(** * Music_Downloader: the stream-resolution and proxying server

    A shallow embedding of the Express server of the repository (the
    ytdl-core variant, [src/unnamed/part_000]) and of the format selection
    of its earlier yt-dlp variant
    ([src/.history/server/index_20260113173543.js]), with the properties its
    specification states about them.

    Conventions.
    - A JavaScript string is a [string]: a sequence of code units below 256.
    - [Date.now()] is an explicit argument [now : Z] (milliseconds).
    - A [Map] is a [gmap]; its size is [size].
    - Module-level mutable state is threaded explicitly: an operation takes
      the state and returns its result with the new state.
    - A promise is a natural number naming it; the store [settled] maps the
      promises that have settled to their outcome.
    - Calls to collaborators (ytdl-core, fetch) are points where the
      environment supplies the result.
    - A finite number that need not be an integer is the rational it
      denotes; [Double] rounds the results of arithmetic on such numbers as
      double precision does. *)

From Stdlib Require Import ZArith String Ascii List QArith Lia.
From stdpp Require Import gmap strings list.

Open Scope Z_scope.

(** ** JavaScript values *)

Module Js.

(** [!!s] for a string: only the empty string is falsy. *)
Definition truthy (s : string) : bool := negb (String.eqb s "").

(** [x || d] where [x] is a string, [null] or [undefined]. *)
Definition orDefault (x : option string) (d : string) : string :=
  match x with
  | Some s => if truthy s then s else d
  | None => d
  end.

(** [x] when it is truthy, for [if (x) ...] on a string, [null] or
    [undefined]. *)
Definition whenTruthy (x : option string) : option string :=
  match x with
  | Some s => if truthy s then Some s else None
  | None => None
  end.

(** [n || 0] where [n] is a number, [null] or [undefined]. *)
Definition numOrZero (n : option Z) : Z :=
  match n with
  | Some z => z
  | None => 0
  end.

(** The fields of an [Error] object the server reads. *)
Record Error := mkError { name : string; message : string; stack : string }.

(** [haystack.includes(needle)]. *)
Fixpoint includes (needle haystack : string) : bool :=
  String.prefix needle haystack
  || match haystack with
     | EmptyString => false
     | String _ rest => includes needle rest
     end.

End Js.

(** ** The caches ([src/unnamed/part_000], lines 23-60) *)

Module Cache.

(** [{ url, timestamp }] *)
Record streamEntry := { url : string; timestamp : Z }.

(** The object [fetchVideoInfo] builds and caches. *)
Record videoInfo := {
  videoId : string;
  title : string;
  channelName : string;
  thumbnail : string;
  duration : Z
}.

(** [{ info, timestamp }] *)
Record infoEntry := { info : videoInfo; infoTimestamp : Z }.

Definition STREAM_CACHE_TTL_MS : Z := 3 * 60 * 60 * 1000.
Definition INFO_CACHE_TTL_MS : Z := 24 * 60 * 60 * 1000.

Definition getCachedStreamUrl (now : Z) (id : string) (cache : gmap string streamEntry)
  : option string * gmap string streamEntry :=
  match cache !! id with
  | None => (None, cache)
  | Some cached =>
      if STREAM_CACHE_TTL_MS <? now - timestamp cached
      then (None, delete id cache)
      else (Some (url cached), cache)
  end.

Definition setCachedStreamUrl (now : Z) (id u : string) (cache : gmap string streamEntry)
  : gmap string streamEntry :=
  <[id := {| url := u; timestamp := now |}]> cache.

Definition getCachedVideoInfo (now : Z) (id : string) (cache : gmap string infoEntry)
  : option videoInfo * gmap string infoEntry :=
  match cache !! id with
  | None => (None, cache)
  | Some cached =>
      if INFO_CACHE_TTL_MS <? now - infoTimestamp cached
      then (None, delete id cache)
      else (Some (info cached), cache)
  end.

Definition setCachedVideoInfo (now : Z) (id : string) (i : videoInfo)
    (cache : gmap string infoEntry) : gmap string infoEntry :=
  <[id := {| info := i; infoTimestamp := now |}]> cache.

(** The body of the [setInterval] callback, cache by cache (lines 502-514):
    every entry older than the time-to-live is deleted. *)
Definition sweepStreams (now : Z) (cache : gmap string streamEntry) : gmap string streamEntry :=
  filter (fun kv => negb (STREAM_CACHE_TTL_MS <? now - timestamp (snd kv)) = true) cache.

Definition sweepInfo (now : Z) (cache : gmap string infoEntry) : gmap string infoEntry :=
  filter (fun kv => negb (INFO_CACHE_TTL_MS <? now - infoTimestamp (snd kv)) = true) cache.

(** A run of [setCachedStreamUrl], one per identifier, all at time [now]. *)
Definition putAll (now : Z) (ids : list string) (u : string) (cache : gmap string streamEntry)
  : gmap string streamEntry :=
  fold_left (fun c id => setCachedStreamUrl now id u c) ids cache.

(** A run of [setCachedVideoInfo], one per identifier, all at time [now]. *)
Definition putAllInfo (now : Z) (ids : list string) (i : videoInfo)
    (cache : gmap string infoEntry) : gmap string infoEntry :=
  fold_left (fun c id => setCachedVideoInfo now id i c) ids cache.

End Cache.

(** ** Characters and strings *)

Module Chars.

(** The code unit of a character. *)
Definition code (c : ascii) : nat := nat_of_ascii c.

Definition inRange (lo hi : nat) (c : ascii) : bool :=
  (lo <=? code c)%nat && (code c <=? hi)%nat.

Definition isDigit : ascii -> bool := inRange 48 57.
Definition isUpper : ascii -> bool := inRange 65 90.
Definition isLower : ascii -> bool := inRange 97 122.
Definition isAlpha (c : ascii) : bool := isUpper c || isLower c.
Definition isHex (c : ascii) : bool := isDigit c || inRange 65 70 c || inRange 97 102 c.

(** Membership of a character in a literal set. *)
Definition oneOf (set : string) (c : ascii) : bool :=
  existsb (Ascii.eqb c) (list_ascii_of_string set).

Definition toLower (c : ascii) : ascii :=
  if isUpper c then ascii_of_nat (code c + 32) else c.

(** [s.toLowerCase()] *)
Definition lower (l : list ascii) : string := string_of_list_ascii (map toLower l).

(** The longest prefix without a character satisfying [stop], and the rest
    (which starts with the first such character, if any). *)
Fixpoint break (stop : ascii -> bool) (l : list ascii) : list ascii * list ascii :=
  match l with
  | [] => ([], [])
  | c :: r =>
      if stop c then ([], l)
      else let (a, b) := break stop r in (c :: a, b)
  end.

(** [split]: the pieces between the characters satisfying [sep]; as
    [String.prototype.split], it yields one piece more than separators. *)
Fixpoint split (sep : ascii -> bool) (l : list ascii) : list (list ascii) :=
  match l with
  | [] => [[]]
  | c :: r =>
      if sep c then [] :: split sep r
      else match split sep r with
           | s :: ss => (c :: s) :: ss
           | [] => [[c]]
           end
  end.

Fixpoint dropWhile (p : ascii -> bool) (l : list ascii) : list ascii :=
  match l with
  | [] => []
  | c :: r => if p c then dropWhile p r else l
  end.

(** No character of [l] passes [p]. *)
Definition noneOf (p : ascii -> bool) (l : list ascii) : bool :=
  forallb (fun c => negb (p c)) l.

(** Both ends stripped of the characters satisfying [p]. *)
Definition strip (p : ascii -> bool) (l : list ascii) : list ascii :=
  rev (dropWhile p (rev (dropWhile p l))).

(** White space and line terminators of [String.prototype.trim] among the
    code units below 256. *)
Definition isWhiteSpace (c : ascii) : bool :=
  inRange 9 13 c || (code c =? 32)%nat || (code c =? 160)%nat.

Definition trim : list ascii -> list ascii := strip isWhiteSpace.

Definition hexValue (c : ascii) : nat :=
  if isDigit c then code c - 48
  else if inRange 65 70 c then code c - 55
  else code c - 87.

(** Percent-decoding of a byte sequence: [%XY] with two hexadecimal digits
    is the byte [XY], any other character stands for itself. *)
Fixpoint percentDecode (l : list ascii) : list ascii :=
  match l with
  | [] => []
  | c :: r0 =>
      match r0 with
      | h1 :: h2 :: r =>
          if Ascii.eqb c "%" && isHex h1 && isHex h2
          then ascii_of_nat (16 * hexValue h1 + hexValue h2) :: percentDecode r
          else c :: percentDecode r0
      | _ => c :: percentDecode r0
      end
  end.

End Chars.

(** ** The URL class, as far as [normalizeVideoId] observes it

    [new URL(input)] without a base follows the WHATWG basic URL parser.
    Modelled: stripping of leading and trailing C0 controls and spaces,
    removal of tabs and newlines, the scheme, the special schemes and their
    slashes, credentials, the empty-host failure, forbidden host code
    points, the port, path segments with single- and double-dot segments,
    the query up to the fragment, and the [application/x-www-form-urlencoded]
    reading of the query by [searchParams].  Not interpreted: percent
    escapes, IDNA and IPv4/IPv6 literals in a host (a host is only checked
    for emptiness and forbidden code points), Windows drive letters of
    [file:] URLs, and the
    percent-encoding the parser applies to the path it stores (an encoded
    character and the character it encodes are both outside the identifier
    alphabet, so no test of [normalizeVideoId] tells them apart). *)

Module Url.
Import Chars.

Record t := { pathname : list ascii; search : list ascii }.

Definition isSchemeChar (c : ascii) : bool :=
  isAlpha c || isDigit c || oneOf "+-." c.

(** The scheme, lower-cased, and what follows its colon. *)
Definition parseScheme (l : list ascii) : option (list ascii * list ascii) :=
  match l with
  | c :: _ =>
      if isAlpha c then
        match break (fun x => negb (isSchemeChar x)) l with
        | (s, colon :: rest) =>
            if Ascii.eqb colon ":" then Some (map toLower s, rest) else None
        | _ => None
        end
      else None
  | [] => None
  end.

Definition isSpecial (scheme : list ascii) : bool :=
  existsb (String.eqb (string_of_list_ascii scheme)) ["ftp"; "http"; "https"; "ws"; "wss"]%string.

Definition isFile (scheme : list ascii) : bool :=
  String.eqb (string_of_list_ascii scheme) "file".

Definition isSlash (c : ascii) : bool := Ascii.eqb c "/".
Definition isAnySlash (c : ascii) : bool := oneOf "/\" c.

(** Forbidden host code points, with the C0 controls and DEL that a domain
    forbids besides. *)
Definition isForbiddenHost (c : ascii) : bool :=
  (code c <=? 32)%nat || (code c =? 127)%nat || oneOf "#/:<>?@[\]^|" c.

(** The part of an authority after its last [@], and whether an [@] was
    seen. *)
Definition afterCredentials (authority : list ascii) : bool * list ascii :=
  let pieces := split (fun c => Ascii.eqb c "@") authority in
  ((1 <? length pieces)%nat, List.last pieces []).

(** Host and port of an authority without credentials: the port follows the
    first colon outside square brackets. *)
Fixpoint hostPort (inBrackets : bool) (l : list ascii) : list ascii * option (list ascii) :=
  match l with
  | [] => ([], None)
  | c :: r =>
      if Ascii.eqb c ":" && negb inBrackets then ([], Some r)
      else
        let inside :=
          if Ascii.eqb c "[" then true
          else if Ascii.eqb c "]" then false
          else inBrackets in
        let (h, p) := hostPort inside r in (c :: h, p)
  end.

Fixpoint decimal (acc : N) (l : list ascii) : N :=
  match l with
  | [] => acc
  | c :: r => decimal (10 * acc + (N.of_nat (code c) - 48))%N r
  end.

Definition validPort (p : option (list ascii)) : bool :=
  match p with
  | None => true
  | Some digits => forallb isDigit digits && (decimal 0 digits <=? 65535)%N
  end.

Definition validHost (mayBeEmpty : bool) (h : list ascii) : bool :=
  match h with
  | [] => mayBeEmpty
  | c :: _ =>
      if Ascii.eqb c "[" then Ascii.eqb (List.last h c) "]"
      else negb (existsb isForbiddenHost h)
  end.

(** The authority state: [false] when the parser fails in it. *)
Definition validAuthority (special : bool) (authority : list ascii) : bool :=
  let (atSeen, rest) := afterCredentials authority in
  let (h, p) := hostPort false rest in
  match h, p with
  | [], Some _ => false
  | [], None => negb atSeen && negb special
  | _, _ => validHost false h && validPort p
  end.

Definition isSingleDot (seg : list ascii) : bool :=
  existsb (String.eqb (lower seg)) ["."; "%2e"]%string.

Definition isDoubleDot (seg : list ascii) : bool :=
  existsb (String.eqb (lower seg)) [".."; ".%2e"; "%2e."; "%2e%2e"]%string.

(** The path state over the raw segments: the path so far is [acc]. *)
Fixpoint pathSegments (acc : list (list ascii)) (segs : list (list ascii))
  : list (list ascii) :=
  match segs with
  | [] => acc
  | seg :: more =>
      let isLast := match more with [] => true | _ => false end in
      if isDoubleDot seg then
        pathSegments (removelast acc ++ (if isLast then [[]] else [])) more
      else if isSingleDot seg then
        pathSegments (acc ++ (if isLast then [[]] else [])) more
      else pathSegments (acc ++ [seg]) more
  end.

(** A path from the path start state: one leading separator is skipped. *)
Definition parsePath (sep : ascii -> bool) (raw : list ascii) : list ascii :=
  let body := match raw with
              | c :: r => if sep c then r else raw
              | [] => []
              end in
  concat (map (fun seg => "/"%char :: seg) (pathSegments [] (split sep body))).

(** Path, query and fragment: what follows the authority. *)
Definition pathAndQuery (sep : ascii -> bool) (hierarchical : bool) (l : list ascii) : t :=
  let (rawPath, afterPath) := break (oneOf "?#") l in
  let q := match afterPath with
           | c :: r => if Ascii.eqb c "?" then fst (break (fun x => Ascii.eqb x "#") r) else []
           | [] => []
           end in
  {| pathname := if hierarchical then parsePath sep rawPath else rawPath;
     search := q |}.

Definition isTabOrNewline (c : ascii) : bool :=
  (code c =? 9)%nat || (code c =? 10)%nat || (code c =? 13)%nat.

(** [new URL(input)]: [None] when the constructor throws. *)
Definition parse (input : list ascii) : option t :=
  let l := List.filter (fun c => negb (isTabOrNewline c))
             (strip (fun c => (code c <=? 32)%nat) input) in
  match parseScheme l with
  | None => None
  | Some (scheme, rest) =>
      if isSpecial scheme then
        let (authority, afterAuthority) := break (oneOf "/\?#") (dropWhile isAnySlash rest) in
        if validAuthority true authority
        then Some (pathAndQuery isAnySlash true afterAuthority)
        else None
      else if isFile scheme then
        match rest with
        | s1 :: s2 :: r =>
            if isAnySlash s1 && isAnySlash s2 then
              let (host, afterHost) := break (oneOf "/\?#") r in
              if validHost true host
              then Some (pathAndQuery isAnySlash true afterHost)
              else None
            else Some (pathAndQuery isAnySlash true rest)
        | _ => Some (pathAndQuery isAnySlash true rest)
        end
      else
        match rest with
        | s1 :: s2 :: r =>
            if isSlash s1 && isSlash s2 then
              let (authority, afterAuthority) := break (oneOf "/?#") r in
              if validAuthority false authority
              then Some (pathAndQuery isSlash
                           (match afterAuthority with
                            | c :: _ => isSlash c
                            | [] => false
                            end) afterAuthority)
              else None
            else Some (pathAndQuery isSlash (isSlash s1) rest)
        | [s1] => Some (pathAndQuery isSlash (isSlash s1) rest)
        | [] => Some (pathAndQuery isSlash false rest)
        end
  end.

Definition plusToSpace (c : ascii) : ascii := if Ascii.eqb c "+" then " "%char else c.

Definition decodeComponent (l : list ascii) : list ascii :=
  percentDecode (map plusToSpace l).

(** The name-value pairs of a query, as [URLSearchParams] reads them. *)
Definition searchParams (u : t) : list (list ascii * list ascii) :=
  map (fun piece =>
         let (n, v) := break (fun c => Ascii.eqb c "=") piece in
         (decodeComponent n, decodeComponent (tl v)))
      (List.filter (fun piece => negb (length piece =? 0)%nat)
              (split (fun c => Ascii.eqb c "&") (search u))).

(** [url.searchParams.get(name)]: the first value under [name]. *)
Definition searchParamsGet (name : string) (u : t) : option (list ascii) :=
  match List.filter (fun nv => String.eqb (string_of_list_ascii (fst nv)) name) (searchParams u) with
  | nv :: _ => Some (snd nv)
  | [] => None
  end.

(** [url.pathname.split("/").filter(Boolean)]. *)
Definition pathParts (u : t) : list (list ascii) :=
  List.filter (fun piece => negb (length piece =? 0)%nat) (split isSlash (pathname u)).

End Url.


(** ** The server ([src/unnamed/part_000]) *)

Module Server.
Import Js Chars.

(** *** Identifiers (lines 62-86) *)

Definition toYouTubeWatchUrl (videoId : string) : string :=
  "https://www.youtube.com/watch?v=" +:+ videoId.

Definition isIdChar (c : ascii) : bool :=
  isAlpha c || isDigit c || oneOf "_-" c.

(** A test on characters that no character of an identifier passes. *)
Definition rejectsIdChars (p : ascii -> bool) : Prop :=
  forall c, isIdChar c = true -> p c = false.

(** [/^[a-zA-Z0-9_-]{11}$/.test(l)] *)
Definition isVideoId (l : list ascii) : bool :=
  (length l =? 11)%nat && forallb isIdChar l.

(** [x && /^...$/.test(x) ? x : nothing] for a string, [null] or
    [undefined]. *)
Definition validCandidate (x : option (list ascii)) : option string :=
  match x with
  | Some ((_ :: _) as l) => if isVideoId l then Some (string_of_list_ascii l) else None
  | _ => None
  end.

Definition normalizeVideoId (videoIdOrUrl : string) : option string :=
  if negb (truthy videoIdOrUrl) then None
  else
    let input := trim (list_ascii_of_string videoIdOrUrl) in
    if isVideoId input then Some (string_of_list_ascii input)
    else
      match Url.parse input with
      | None => None
      | Some url =>
          match validCandidate (Url.searchParamsGet "v" url) with
          | Some v => Some v
          | None =>
              let parts := Url.pathParts url in
              let candidate :=
                match parts with
                | first :: _ =>
                    if String.eqb (string_of_list_ascii first) "watch" then None
                    else Some (List.last parts [])
                | [] => None
                end in
              validCandidate candidate
          end
      end.

(** *** Stream resolution (lines 88-140) *)

(** A format as ytdl-core reports it: the fields [filterFormats] and the
    selection read, and those that describe a candidate (MIME type,
    container, content length, segmented delivery). *)
Record format := {
  mimeType : string;
  container : string;
  hasVideo : bool;
  hasAudio : bool;
  audioBitrate : option Z;
  contentLength : option string;
  isHLS : bool;
  isDashMPD : bool;
  url : option string
}.

(** [ytdl.filterFormats(formats, 'audioonly')]: ytdl-core keeps the formats
    with a URL, audio and no video. *)
Definition filterFormats (formats : list format) : list format :=
  List.filter
    (fun f => match whenTruthy (url f) with Some _ => true | None => false end
              && negb (hasVideo f) && hasAudio f)
    formats.

(** The callback of [audioFormats.reduce]. *)
Definition higherBitrate (best f : format) : format :=
  let bestBitrate := numOrZero (audioBitrate best) in
  let currentBitrate := numOrZero (audioBitrate f) in
  if bestBitrate <? currentBitrate then f else best.

(** [audioFormats.reduce(..., audioFormats[0])] over a non-empty list. *)
Definition bestAudio (first : format) (audioFormats : list format) : format :=
  fold_left higherBitrate audioFormats first.

(** What [await ytdl.getInfo(videoUrl)] gives the async body. *)
Inductive getInfoResult :=
| InfoRejected (e : Error)
| InfoResolved (formats : list format).

(** A settled promise of [fetchStreamUrl]. *)
Inductive outcome :=
| Resolved (directUrl : string)
| Rejected (reason : Error).

(** What a call of the async function [fetchStreamUrl] returns: a promise
    already fulfilled with the cached URL, or one that adopts the state of
    the promise it returned. *)
Inductive asyncResult :=
| Fulfilled (cached : string)
| Adopts (promise : nat).

Record state := mkState {
  streamUrlCache : gmap string Cache.streamEntry;
  pendingStreamRequests : gmap string nat;
  (** the calls of [ytdl.getInfo] that have not settled: the promise of the
      async body awaiting each, and the identifier it was called for *)
  awaitingGetInfo : gmap nat string;
  (** the promises of async bodies that have settled *)
  settled : gmap nat outcome;
  (** every call of [ytdl.getInfo] so far, oldest first, each by the
      identifier whose watch URL ([toYouTubeWatchUrl]) it was given *)
  getInfoCalls : list string;
  nextPromise : nat
}.

Definition initial : state :=
  {| streamUrlCache := ∅; pendingStreamRequests := ∅; awaitingGetInfo := ∅;
     settled := ∅; getInfoCalls := []; nextPromise := 0 |}.

Definition withCache (c : gmap string Cache.streamEntry) (st : state) : state :=
  {| streamUrlCache := c;
     pendingStreamRequests := pendingStreamRequests st;
     awaitingGetInfo := awaitingGetInfo st;
     settled := settled st;
     getInfoCalls := getInfoCalls st;
     nextPromise := nextPromise st |}.

(** [fetchStreamUrl], up to the point where it returns its promise: the
    async body runs as far as its first [await], which calls
    [ytdl.getInfo], and the promise is then registered as pending. *)
Definition fetchStreamUrl (now : Z) (videoId : string) (st : state) : asyncResult * state :=
  let (cached, cache) := Cache.getCachedStreamUrl now videoId (streamUrlCache st) in
  match whenTruthy cached with
  | Some u => (Fulfilled u, withCache cache st)
  | None =>
      match pendingStreamRequests st !! videoId with
      | Some promise => (Adopts promise, withCache cache st)
      | None =>
          let promise := nextPromise st in
          (Adopts promise,
           {| streamUrlCache := cache;
              pendingStreamRequests := <[videoId := promise]> (pendingStreamRequests st);
              awaitingGetInfo := <[promise := videoId]> (awaitingGetInfo st);
              settled := settled st;
              getInfoCalls := getInfoCalls st ++ [videoId];
              nextPromise := S promise |})
      end
  end.

(** The outcome a caller holding [r] observes, once there is one. *)
Definition observed (st : state) (r : asyncResult) : option outcome :=
  match r with
  | Fulfilled u => Some (Resolved u)
  | Adopts promise => settled st !! promise
  end.

Section Engine.

(** The text the JavaScript engine gives the [stack] property of an
    [Error] created with a message. *)
Variable stackOf : string -> string.

Definition newError (msg : string) : Error :=
  {| name := "Error"; message := msg; stack := stackOf msg |}.

(** The async body after [await ytdl.getInfo(videoUrl)] (lines 110-132). *)
Definition resolveStream (r : getInfoResult) : outcome :=
  match r with
  | InfoRejected e => Rejected e
  | InfoResolved formats =>
      match filterFormats formats with
      | [] => Rejected (newError "No audio formats found")
      | (first :: _) as audioFormats =>
          match whenTruthy (url (bestAudio first audioFormats)) with
          | None => Rejected (newError "No stream URL found")
          | Some directUrl => Resolved directUrl
          end
      end
  end.

(** The async body resumes when [ytdl.getInfo] settles: it runs to its end,
    [finally] block included, and settles its promise. *)
Definition getInfoSettles (now : Z) (promise : nat) (r : getInfoResult) (st : state) : state :=
  match awaitingGetInfo st !! promise with
  | None => st
  | Some videoId =>
      let o := resolveStream r in
      {| streamUrlCache :=
           match o with
           | Resolved directUrl => Cache.setCachedStreamUrl now videoId directUrl (streamUrlCache st)
           | Rejected _ => streamUrlCache st
           end;
         pendingStreamRequests := delete videoId (pendingStreamRequests st);
         awaitingGetInfo := delete promise (awaitingGetInfo st);
         settled := <[promise := o]> (settled st);
         getInfoCalls := getInfoCalls st;
         nextPromise := nextPromise st |}
  end.

(** What happens to the shared state, one event-loop turn at a time. *)
Inductive event :=
| CallFetchStreamUrl (now : Z) (videoId : string)
| GetInfoSettles (now : Z) (promise : nat) (r : getInfoResult)
| CallGetCachedStreamUrl (now : Z) (videoId : string)
| CacheClear
| CacheSweep (now : Z).

(** An event's effect, with what a call of [fetchStreamUrl] returned. *)
Definition exec (ev : event) (st : state) : option asyncResult * state :=
  match ev with
  | CallFetchStreamUrl now videoId =>
      let (r, st') := fetchStreamUrl now videoId st in (Some r, st')
  | GetInfoSettles now promise r => (None, getInfoSettles now promise r st)
  | CallGetCachedStreamUrl now videoId =>
      (None, withCache (snd (Cache.getCachedStreamUrl now videoId (streamUrlCache st))) st)
  | CacheClear => (None, withCache ∅ st)
  | CacheSweep now => (None, withCache (Cache.sweepStreams now (streamUrlCache st)) st)
  end.

(** A run of events: the results of its calls, oldest first, and the final
    state. *)
Fixpoint run (evs : list event) (st : state) : list (option asyncResult) * state :=
  match evs with
  | [] => ([], st)
  | ev :: rest =>
      let (r, st1) := exec ev st in
      let (rs, st2) := run rest st1 in
      (r :: rs, st2)
  end.

(** The results of the calls of [fetchStreamUrl] for [videoId] in a run:
    [rs] are the results of the events [evs], one for one. *)
Fixpoint resultsFor (videoId : string) (evs : list event) (rs : list (option asyncResult))
  : list asyncResult :=
  match evs, rs with
  | CallFetchStreamUrl _ id :: evs', Some r :: rs' =>
      if String.eqb id videoId then r :: resultsFor videoId evs' rs'
      else resultsFor videoId evs' rs'
  | _ :: evs', _ :: rs' => resultsFor videoId evs' rs'
  | _, _ => []
  end.

(** No event of the run settles a call of [ytdl.getInfo] made for
    [videoId]: the calls of [fetchStreamUrl] for it in the run are
    concurrent. *)
Fixpoint settlesNothingFor (videoId : string) (evs : list event) (st : state) : Prop :=
  match evs with
  | [] => True
  | ev :: rest =>
      match ev with
      | GetInfoSettles _ promise _ => awaitingGetInfo st !! promise <> Some videoId
      | _ => True
      end
      /\ settlesNothingFor videoId rest (snd (exec ev st))
  end.

End Engine.

(** How many times [ytdl.getInfo] has been called for [videoId]. *)
Definition getInfoCallsFor (videoId : string) (st : state) : nat :=
  count_occ String.string_dec (getInfoCalls st) videoId.

(** What holds of the shared state between two events. *)
Record consistent (st : state) : Prop := {
  cached_urls_truthy :
    forall id e, streamUrlCache st !! id = Some e -> truthy (Cache.url e) = true;
  pending_is_awaiting :
    forall id p, pendingStreamRequests st !! id = Some p -> awaitingGetInfo st !! p = Some id;
  awaiting_is_pending :
    forall p id, awaitingGetInfo st !! p = Some id -> pendingStreamRequests st !! id = Some p;
  pending_not_cached :
    forall id p, pendingStreamRequests st !! id = Some p -> streamUrlCache st !! id = None;
  awaiting_not_settled :
    forall p id, awaitingGetInfo st !! p = Some id ->
                 (p < nextPromise st)%nat /\ settled st !! p = None;
  settled_are_old :
    forall p o, settled st !! p = Some o -> (p < nextPromise st)%nat
}.

(** The states the server can be in. *)
Inductive reachable (stackOf : string -> string) : state -> Prop :=
| reachable_initial : reachable stackOf initial
| reachable_exec ev st : reachable stackOf st -> reachable stackOf (snd (exec stackOf ev st)).

(** *** Metadata resolution (lines 142-183) *)

(** [info.videoDetails] as ytdl-core reports it: the fields
    [fetchVideoInfo] reads.  [lengthSeconds] is the number the field
    denotes, [None] when [Number] makes it [NaN]; [thumbnails] holds the
    [url] of each thumbnail. *)
Record videoDetails := {
  detailsTitle : option string;
  authorName : option string;
  ownerChannelName : option string;
  thumbnails : list (option string);
  lengthSeconds : option Z
}.

(** What [await ytdl.getBasicInfo(videoUrl)] gives the async body. *)
Inductive basicInfoResult :=
| BasicInfoRejected (e : Error)
| BasicInfoResolved (details : videoDetails).

Inductive infoOutcome :=
| InfoFulfilled (videoInfo : Cache.videoInfo)
| InfoFailed (reason : Error).

(** What a call of the async function [fetchVideoInfo] returns. *)
Inductive asyncInfo :=
| CachedInfo (cached : Cache.videoInfo)
| AdoptsInfo (promise : nat).

Record infoState := {
  videoInfoCache : gmap string Cache.infoEntry;
  pendingInfoRequests : gmap string nat;
  (** the calls of [ytdl.getBasicInfo] that have not settled *)
  awaitingBasicInfo : gmap nat string;
  settledInfo : gmap nat infoOutcome;
  getBasicInfoCalls : list string;
  nextInfoPromise : nat
}.

Definition initialInfo : infoState :=
  {| videoInfoCache := ∅; pendingInfoRequests := ∅; awaitingBasicInfo := ∅;
     settledInfo := ∅; getBasicInfoCalls := []; nextInfoPromise := 0 |}.

Definition withInfoCache (c : gmap string Cache.infoEntry) (st : infoState) : infoState :=
  {| videoInfoCache := c;
     pendingInfoRequests := pendingInfoRequests st;
     awaitingBasicInfo := awaitingBasicInfo st;
     settledInfo := settledInfo st;
     getBasicInfoCalls := getBasicInfoCalls st;
     nextInfoPromise := nextInfoPromise st |}.

(** [fetchVideoInfo], up to the point where it returns its promise. *)
Definition fetchVideoInfo (now : Z) (videoId : string) (st : infoState) : asyncInfo * infoState :=
  let (cached, cache) := Cache.getCachedVideoInfo now videoId (videoInfoCache st) in
  match cached with
  | Some i => (CachedInfo i, withInfoCache cache st)
  | None =>
      match pendingInfoRequests st !! videoId with
      | Some promise => (AdoptsInfo promise, withInfoCache cache st)
      | None =>
          let promise := nextInfoPromise st in
          (AdoptsInfo promise,
           {| videoInfoCache := cache;
              pendingInfoRequests := <[videoId := promise]> (pendingInfoRequests st);
              awaitingBasicInfo := <[promise := videoId]> (awaitingBasicInfo st);
              settledInfo := settledInfo st;
              getBasicInfoCalls := getBasicInfoCalls st ++ [videoId];
              nextInfoPromise := S promise |})
      end
  end.

(** The async body after [await ytdl.getBasicInfo(videoUrl)] (lines
    164-175). *)
Definition resolveInfo (videoId : string) (r : basicInfoResult) : infoOutcome :=
  match r with
  | BasicInfoRejected e => InfoFailed e
  | BasicInfoResolved details =>
      InfoFulfilled
        {| Cache.videoId := videoId;
           Cache.title := orDefault (detailsTitle details) "Unknown Title";
           Cache.channelName :=
             orDefault (authorName details)
               (orDefault (ownerChannelName details) "Unknown Channel");
           Cache.thumbnail := orDefault (List.last (thumbnails details) None) "";
           Cache.duration := numOrZero (lengthSeconds details) |}
  end.

(** The async body resumes when [ytdl.getBasicInfo] settles. *)
Definition basicInfoSettles (now : Z) (promise : nat) (r : basicInfoResult) (st : infoState)
  : infoState :=
  match awaitingBasicInfo st !! promise with
  | None => st
  | Some videoId =>
      let o := resolveInfo videoId r in
      {| videoInfoCache :=
           match o with
           | InfoFulfilled i => Cache.setCachedVideoInfo now videoId i (videoInfoCache st)
           | InfoFailed _ => videoInfoCache st
           end;
         pendingInfoRequests := delete videoId (pendingInfoRequests st);
         awaitingBasicInfo := delete promise (awaitingBasicInfo st);
         settledInfo := <[promise := o]> (settledInfo st);
         getBasicInfoCalls := getBasicInfoCalls st;
         nextInfoPromise := nextInfoPromise st |}
  end.

(** What happens to the metadata namespace, one event-loop turn at a time. *)
Inductive infoEvent :=
| CallFetchVideoInfo (now : Z) (videoId : string)
| BasicInfoSettles (now : Z) (promise : nat) (r : basicInfoResult)
| InfoCacheClear
| InfoCacheSweep (now : Z).

Definition execInfo (ev : infoEvent) (st : infoState) : infoState :=
  match ev with
  | CallFetchVideoInfo now videoId => snd (fetchVideoInfo now videoId st)
  | BasicInfoSettles now promise r => basicInfoSettles now promise r st
  | InfoCacheClear => withInfoCache ∅ st
  | InfoCacheSweep now => withInfoCache (Cache.sweepInfo now (videoInfoCache st)) st
  end.

Inductive reachableInfo : infoState -> Prop :=
| reachableInfo_initial : reachableInfo initialInfo
| reachableInfo_exec ev st : reachableInfo st -> reachableInfo (execInfo ev st).

(** What holds of the metadata namespace between two events. *)
Record consistentInfo (st : infoState) : Prop := {
  pendingInfo_is_awaiting :
    forall id p, pendingInfoRequests st !! id = Some p -> awaitingBasicInfo st !! p = Some id;
  awaitingInfo_is_pending :
    forall p id, awaitingBasicInfo st !! p = Some id -> pendingInfoRequests st !! id = Some p;
  awaitingInfo_is_old :
    forall p id, awaitingBasicInfo st !! p = Some id -> (p < nextInfoPromise st)%nat
}.

(** *** The stream endpoint (lines 265-412) *)

(** What a handler reads of the request. *)
Record request := {
  paramsVideoId : string;
  (** [req.headers.range]: [None] when the request has no Range header *)
  headersRange : option string
}.

(** What the relay reads of the response [fetch] resolves with:
    [upstream.headers.get(name)] is [upstreamHeaders !! name] for a
    lower-case [name]. *)
Record upstreamResponse := {
  upstreamStatus : Z;
  upstreamHeaders : gmap string string;
  upstreamHasBody : bool
}.

Inductive fetchResult :=
| FetchRejected (e : Error)
| FetchResponded (upstream : upstreamResponse).

Inductive responseBody :=
| JsonBody (fields : list (string * string))
| PipedBody
| EndedBody.

(** The status, the headers the handler sets (by lower-case name, as Node
    stores them) and the body of a response. *)
Record response := {
  status : Z;
  headers : gmap string string;
  body : responseBody
}.

Definition setHeader (name value : string) (hs : gmap string string) : gmap string string :=
  <[lower (list_ascii_of_string name) := value]> hs.

(** An async handler: it returns, having sent a response or none, or it
    awaits a collaborator and goes on with the result. *)
Inductive handler :=
| Return (sent : option response)
| AwaitFetchStreamUrl (videoId : string) (k : outcome -> handler)
| AwaitFetch (target : string) (requestHeaders : gmap string string) (k : fetchResult -> handler).

Definition userAgent : string :=
  "Mozilla/5.0 (Windows NT 10.0; Win64; x64) AppleWebKit/537.36".

(** The headers of the upstream request (lines 293-298). *)
Definition upstreamRequestHeaders (req : request) : gmap string string :=
  let upstreamHeaders := {[ "User-Agent"%string := userAgent ]} in
  match whenTruthy (headersRange req) with
  | Some range => <["Range"%string := range]> upstreamHeaders
  | None => upstreamHeaders
  end.

(** Status and headers of the relayed response (lines 307-322). *)
Definition relayHeaders (upstream : upstreamResponse) : gmap string string :=
  let get name := upstreamHeaders upstream !! name in
  let h1 := setHeader "Cache-Control" "public, max-age=7200" ∅ in
  let h2 := setHeader "Accept-Ranges" (orDefault (get "accept-ranges"%string) "bytes") h1 in
  let h3 := setHeader "Content-Type" (orDefault (get "content-type"%string) "audio/mp4") h2 in
  let h4 := match whenTruthy (get "content-length"%string) with
            | Some contentLength => setHeader "Content-Length" contentLength h3
            | None => h3
            end in
  match whenTruthy (get "content-range"%string) with
  | Some contentRange => setHeader "Content-Range" contentRange h4
  | None => h4
  end.

Definition relay (upstream : upstreamResponse) : response :=
  {| status := upstreamStatus upstream;
     headers := relayHeaders upstream;
     body := if upstreamHasBody upstream then PipedBody else EndedBody |}.

Definition suggestion : string :=
  "This video may be restricted, unavailable, or require age verification.".

(** The [catch] block of the GET handler (lines 366-383); [nodeEnv] is
    [process.env.NODE_ENV]. *)
Definition streamFailed (nodeEnv : option string) (headersSent : bool)
    (videoId : string) (error : Error) : option response :=
  if String.eqb (name error) "AbortError" then None
  else if headersSent then None
  else
    let errorMessage := orDefault (Some (message error)) "Failed to stream audio" in
    let statusCode := if includes "unavailable" errorMessage then 404 else 500 in
    Some {| status := statusCode;
            headers := ∅;
            body := JsonBody
                      ([("error", errorMessage); ("videoId", videoId);
                        ("suggestion", suggestion)]%string
                       ++ match nodeEnv with
                          | Some env =>
                              if String.eqb env "development"
                              then [("details"%string, stack error)]
                              else []
                          | None => []
                          end) |}.

Definition invalidVideoId (raw : string) : response :=
  {| status := 400;
     headers := ∅;
     body := JsonBody [("error", "Invalid video ID"); ("videoId", raw)]%string |}.

(** [app.get("/api/stream/:videoId", ...)]: no header is sent before either
    [await] has returned. *)
Definition streamGet (nodeEnv : option string) (req : request) : handler :=
  match normalizeVideoId (paramsVideoId req) with
  | None => Return (Some (invalidVideoId (paramsVideoId req)))
  | Some videoId =>
      AwaitFetchStreamUrl videoId (fun resolution =>
        match resolution with
        | Rejected error => Return (streamFailed nodeEnv false videoId error)
        | Resolved directUrl =>
            AwaitFetch directUrl (upstreamRequestHeaders req) (fun fetched =>
              match fetched with
              | FetchRejected error => Return (streamFailed nodeEnv false videoId error)
              | FetchResponded upstream => Return (Some (relay upstream))
              end)
        end)
  end.

(** [app.head("/api/stream/:videoId", ...)]: the response it ends, and the
    state after the call of [fetchStreamUrl] that follows [res.end()] when
    nothing is cached; the promise of that call is dropped behind
    [.catch(() => {})].  [now] and [later] are the two readings of the
    clock. *)
Definition streamHead (now later : Z) (req : request) (st : state) : response * state :=
  match normalizeVideoId (paramsVideoId req) with
  | None => ({| status := 400; headers := ∅; body := EndedBody |}, st)
  | Some videoId =>
      let (cached, cache) := Cache.getCachedStreamUrl now videoId (streamUrlCache st) in
      match whenTruthy cached with
      | Some _ =>
          ({| status := 200;
              headers := setHeader "Cache-Control" "public, max-age=7200"
                           (setHeader "Accept-Ranges" "bytes"
                              (setHeader "Content-Type" "audio/mp4" ∅));
              body := EndedBody |},
           withCache cache st)
      | None =>
          ({| status := 200;
              headers := setHeader "Cache-Control" "public, max-age=7200"
                           (setHeader "Accept-Ranges" "bytes" ∅);
              body := EndedBody |},
           snd (fetchStreamUrl later videoId (withCache cache st)))
      end
  end.

(** A call a handler makes to a collaborator. *)
Inductive call :=
| CalledFetchStreamUrl (videoId : string)
| CalledFetch (target : string) (requestHeaders : gmap string string).

(** A handler run to its end against an environment in which
    [fetchStreamUrl] settles as [resolution] and [fetch] as [fetched]: the
    calls it made, oldest first, and the response it sent. *)
Fixpoint interact (h : handler) (resolution : outcome) (fetched : fetchResult)
  : list call * option response :=
  match h with
  | Return sent => ([], sent)
  | AwaitFetchStreamUrl videoId k =>
      let (calls, sent) := interact (k resolution) resolution fetched in
      (CalledFetchStreamUrl videoId :: calls, sent)
  | AwaitFetch target requestHeaders k =>
      let (calls, sent) := interact (k fetched) resolution fetched in
      (CalledFetch target requestHeaders :: calls, sent)
  end.

(** *** Routing

    Express tries the routes in the order of their registration.  A route
    registered with [app.get] also answers HEAD requests: Express calls
    [app.get()] for the HEAD method too unless [app.head()] was called for
    the path before [app.get()]. *)

Inductive method := GET | HEAD | POST.

Inductive segment := Lit (s : string) | Param.

Inductive handlerId :=
| Health | VideoInfo | Search | StreamGet | StreamHead | ClearCache | CacheStats.

(** The routes of the file, in the order of the [app.get], [app.head] and
    [app.post] calls (lines 186, 202, 231, 266, 387, 415, 433). *)
Definition routes : list (method * list segment * handlerId) :=
  [ (GET, [Lit "api"; Lit "health"], Health);
    (GET, [Lit "api"; Lit "info"; Param], VideoInfo);
    (GET, [Lit "api"; Lit "search"], Search);
    (GET, [Lit "api"; Lit "stream"; Param], StreamGet);
    (HEAD, [Lit "api"; Lit "stream"; Param], StreamHead);
    (POST, [Lit "api"; Lit "cache"; Lit "clear"], ClearCache);
    (GET, [Lit "api"; Lit "cache"; Lit "stats"], CacheStats) ]%string.

(** Whether the route registered for [registered] handles a request of
    method [requested]. *)
Definition handlesMethod (registered requested : method) : bool :=
  match requested, registered with
  | GET, GET | HEAD, HEAD | POST, POST => true
  | HEAD, GET => true
  | _, _ => false
  end.

(** The pieces of a request path, which starts with a slash: what stands
    between its slashes; a trailing slash is optional. *)
Definition pathPieces (path : string) : option (list (list ascii)) :=
  match split Url.isSlash (list_ascii_of_string path) with
  | [] :: pieces =>
      Some (match rev pieces with
            | [] :: others => rev others
            | _ => pieces
            end)
  | _ => None
  end.

(** A pattern against the pieces of a path: the value of its parameter when
    it matches.  Literal segments match without regard to case; a parameter
    matches a piece that is not empty and is bound to it, percent-decoded
    byte by byte (Express decodes with [decodeURIComponent], which reads
    UTF-8 and, on a piece that does not decode, hands an error to the error
    handler of the application instead of the route: not modelled). *)
Fixpoint matchPath (pattern : list segment) (pieces : list (list ascii))
    (param : option string) : option (option string) :=
  match pattern, pieces with
  | [], [] => Some param
  | Lit s :: pattern', piece :: pieces' =>
      if String.eqb (lower piece) (lower (list_ascii_of_string s))
      then matchPath pattern' pieces' param
      else None
  | Param :: pattern', piece :: pieces' =>
      match piece with
      | [] => None
      | _ :: _ =>
          matchPath pattern' pieces' (Some (string_of_list_ascii (percentDecode piece)))
      end
  | _, _ => None
  end.

(** The handler Express runs for a request, with [req.params.videoId]:
    that of the first route, in the order of registration, whose path
    matches and which handles the method. *)
Fixpoint dispatchIn (table : list (method * list segment * handlerId))
    (m : method) (path : string) : option (handlerId * option string) :=
  match table with
  | [] => None
  | (registered, pattern, h) :: rest =>
      match (if handlesMethod registered m
             then match pathPieces path with
                  | Some pieces => matchPath pattern pieces None
                  | None => None
                  end
             else None) with
      | Some param => Some (h, param)
      | None => dispatchIn rest m path
      end
  end.

Definition dispatch : method -> string -> option (handlerId * option string) :=
  dispatchIn routes.

(** The handler that answers a request for the stream of [videoId], as a
    GET handler's behaviour; [None] when the request is not routed to
    [streamGet]. *)
Definition routedToStreamGet (nodeEnv : option string) (m : method) (path : string)
    (range : option string) : option handler :=
  match dispatch m path with
  | Some (StreamGet, Some videoId) =>
      Some (streamGet nodeEnv {| paramsVideoId := videoId; headersRange := range |})
  | _ => None
  end.

End Server.

(** ** Double-precision arithmetic

    A finite number is the rational it denotes.  The result of an
    arithmetic operation of the source is the exact result rounded to the
    nearest double, ties to the even one (53 significant bits, no place
    below 2^-1074).  Results at or above the overflow threshold, near 2^1024,
    are not represented; the sums of the format selection below stay under
    it on finite numbers. *)

Module Double.

(** The integer nearest to [p / q], for [q] positive, ties to the even
    one. *)
Definition nearestEven (p q : Z) : Z :=
  let f := p / q in
  match 2 * (p mod q) ?= q with
  | Lt => f
  | Gt => f + 1
  | Eq => if Z.even f then f else f + 1
  end.

(** The integer part of the binary logarithm of [n / d], for [n] and [d]
    positive. *)
Definition ilog2 (n d : Z) : Z :=
  let k := Z.log2 n - Z.log2 d in
  if (if 0 <=? k then d * 2 ^ k <=? n else d <=? n * 2 ^ (- k)) then k else k - 1.

(** The exponent of the unit in the last place at [n / d]. *)
Definition ulpExponent (n d : Z) : Z := Z.max (ilog2 (Z.abs n) d - 52) (-1074).

(** The double nearest to [x]. *)
Definition round (x : Q) : Q :=
  let n := Qnum x in
  let d := Zpos (Qden x) in
  if n =? 0 then 0%Q
  else
    let e := ulpExponent n d in
    if 0 <=? e then inject_Z (nearestEven n (d * 2 ^ e) * 2 ^ e)
    else nearestEven (n * 2 ^ (- e)) d # Z.to_pos (2 ^ (- e)).

(** [x + y], [x - y] and [x / y] on numbers. *)
Definition add (x y : Q) : Q := round (x + y).
Definition sub (x y : Q) : Q := round (x - y).
Definition div (x y : Q) : Q := round (x / y).

End Double.

(** ** Format selection of the yt-dlp variant
    ([src/.history/server/index_20260113173543.js], lines 106-151)

    [abr] is the finite number the field holds, [filesize] the integer. *)

Module History.
Import Js Chars.

(** A format of yt-dlp's JSON, with the fields the selection reads. *)
Record format := {
  vcodec : option string;
  acodec : option string;
  filesize : option Z;
  container : option string;
  ext : option string;
  abr : option Q;
  protocol : option string;
  url : option string
}.

Definition isString (x : option string) (s : string) : bool :=
  match x with
  | Some v => String.eqb v s
  | None => false
  end.

(** The filter of line 111: audio only, with a size that is known and
    below 50 MiB. *)
Definition isAudioCandidate (f : format) : bool :=
  isString (vcodec f) "none"
  && negb (isString (acodec f) "none")
  && match filesize f with
     | Some size => negb (size =? 0) && (size <? 50 * 1024 * 1024)
     | None => false
     end.

Definition formatPriority : list (string * Z) :=
  [("m4a", 10); ("mp4", 9); ("webm", 8); ("mp3", 7); ("opus", 6)]%string.

(** [formatPriority.find(p => p.container === container)?.priority || 1] *)
Definition priorityOf (containerName : string) : Z :=
  match List.find (fun p => String.eqb (fst p) containerName) formatPriority with
  | Some p => snd p
  | None => 1
  end.

(** [(format.container || format.ext || '').toLowerCase()] *)
Definition containerOf (f : format) : string :=
  lower (list_ascii_of_string (orDefault (container f) (orDefault (ext f) ""))).

(** The score of lines 134-145, each [+=] a double-precision sum. *)
Definition score (f : format) : Q :=
  let s0 := inject_Z (priorityOf (containerOf f) * 1000) in
  let s1 := match abr f with
            | Some rate => if Qeq_bool rate 0 then s0 else Double.add s0 rate
            | None => s0
            end in
  let s2 := match filesize f with
            | Some size =>
                if size =? 0 then s1
                else Double.add s1
                       (Double.sub 100
                          (Double.div (inject_Z size) (inject_Z (1024 * 1024))))
            | None => s1
            end in
  if isString (protocol f) "http_dash_segments" then Double.add s2 500 else s2.

Definition Qltb (a b : Q) : bool := negb (Qle_bool b a).

(** [Array.prototype.sort] with the comparator [(a, b) => b.score - a.score]
    is a stable sort by decreasing score (the difference of two doubles has
    the sign of their exact difference): an element is placed after those
    already there whose score is not smaller. *)
Fixpoint insertByScore (x : format) (sorted : list format) : list format :=
  match sorted with
  | [] => [x]
  | y :: rest =>
      if Qltb (score y) (score x) then x :: sorted
      else y :: insertByScore x rest
  end.

Definition sortByScore (l : list format) : list format :=
  fold_left (fun sorted x => insertByScore x sorted) l [].

(** Every element scores no more than those before it. *)
Fixpoint descending (l : list format) : Prop :=
  match l with
  | [] => True
  | h :: t => (forall g, In g t -> (score g <= score h)%Q) /\ descending t
  end.

Definition selectFastestAudioFormat (formats : list format) : option format :=
  match List.filter isAudioCandidate formats with
  | [] => None
  | audioFormats => List.head (sortByScore audioFormats)
  end.

End History.

(** ** Sample data: the inputs of the specification's test cases *)

Module Samples.

(** One [audio/mp4] candidate at 128 kbps and one [audio/webm] candidate at
    256 kbps, neither segmented, both of known length, as ytdl-core reports
    them. *)
Definition mp4At128 : Server.format :=
  {| Server.mimeType := "audio/mp4; codecs=mp4a.40.2";
     Server.container := "mp4";
     Server.hasVideo := false;
     Server.hasAudio := true;
     Server.audioBitrate := Some 128;
     Server.contentLength := Some "3433514"%string;
     Server.isHLS := false;
     Server.isDashMPD := false;
     Server.url := Some "https://cdn.example/audio.mp4"%string |}.

Definition webmAt256 : Server.format :=
  {| Server.mimeType := "audio/webm; codecs=opus";
     Server.container := "webm";
     Server.hasVideo := false;
     Server.hasAudio := true;
     Server.audioBitrate := Some 256;
     Server.contentLength := Some "6867028"%string;
     Server.isHLS := false;
     Server.isDashMPD := false;
     Server.url := Some "https://cdn.example/audio.webm"%string |}.

(** The same two candidates as yt-dlp reports them, of [size] bytes. *)
Definition ytDlpMp4At128 (size : Z) : History.format :=
  {| History.vcodec := Some "none"%string;
     History.acodec := Some "mp4a.40.2"%string;
     History.filesize := Some size;
     History.container := None;
     History.ext := Some "mp4"%string;
     History.abr := Some (inject_Z 128);
     History.protocol := Some "https"%string;
     History.url := Some "https://cdn.example/audio.mp4"%string |}.

Definition ytDlpWebmAt256 (size : Z) : History.format :=
  {| History.vcodec := Some "none"%string;
     History.acodec := Some "opus"%string;
     History.filesize := Some size;
     History.container := None;
     History.ext := Some "webm"%string;
     History.abr := Some (inject_Z 256);
     History.protocol := Some "https"%string;
     History.url := Some "https://cdn.example/audio.webm"%string |}.

Definition info : Cache.videoInfo :=
  {| Cache.videoId := "dQw4w9WgXcQ";
     Cache.title := "Unknown Title";
     Cache.channelName := "Unknown Channel";
     Cache.thumbnail := "";
     Cache.duration := 212 |}.

(** Strings that differ pairwise, as many as wanted. *)
Fixpoint letters (n : nat) : string :=
  match n with
  | O => EmptyString
  | S k => String "a" (letters k)
  end.

Definition distinctIds (n : nat) : list string := List.map letters (seq 0 n).

End Samples.

From Stdlib Require Import Lqa Qround.

(** ** URL texts, to state what the normalizer does on them *)

Module Shapes.
Import Chars.

(** The path with the segments [segs]: each one after a slash. *)
Definition pathOf (segs : list (list ascii)) : list ascii :=
  concat (map (fun seg => "/"%char :: seg) segs).

(** The query with the parameters [params]: an ampersand between them. *)
Fixpoint queryOf (params : list (list ascii)) : list ascii :=
  match params with
  | [] => []
  | [param] => param
  | param :: more => param ++ "&"%char :: queryOf more
  end.

(** [https://<host><path>] and [https://<host><path>?<query>]. *)
Definition httpsUrl (host : list ascii) (segs : list (list ascii))
    (params : list (list ascii)) : string :=
  string_of_list_ascii
    (list_ascii_of_string "https://" ++ host ++ pathOf segs
     ++ match params with
        | [] => []
        | _ :: _ => "?"%char :: queryOf params
        end).

Definition isHostChar (c : ascii) : bool := isAlpha c || isDigit c || oneOf ".-" c.

(** Whether two hyphens stand side by side. *)
Fixpoint hasDoubleHyphen (l : list ascii) : bool :=
  match l with
  | a :: r =>
      match r with
      | b :: _ => (Ascii.eqb a "-" && Ascii.eqb b "-") || hasDoubleHyphen r
      | [] => false
      end
  | [] => false
  end.

(** The label after the last dot. *)
Definition lastLabel (host : list ascii) : list ascii :=
  List.last (split (fun c => Ascii.eqb c ".") host) [].

(** A host name that the URL parser takes for a domain as it stands:
    letters, digits, dots and hyphens, no label in the Punycode form
    ([xn--]), and a last label that starts with a letter, so that the host
    is not read as an IPv4 address. *)
Definition plainHost (host : list ascii) : bool :=
  negb (length host =? 0)%nat && forallb isHostChar host
  && negb (hasDoubleHyphen host)
  && match lastLabel host with
     | c :: _ => isAlpha c
     | [] => false
     end.

(** A path segment of identifier characters, at least one. *)
Definition plainSegment (seg : list ascii) : bool :=
  negb (length seg =? 0)%nat && forallb Server.isIdChar seg.

(** A query parameter of identifier characters, dots and equals signs. *)
Definition isParamChar (c : ascii) : bool := Server.isIdChar c || oneOf ".=" c.

Definition plainParam (param : list ascii) : bool := forallb isParamChar param.

(** The name of a parameter: what stands before its first equals sign. *)
Definition paramName (param : list ascii) : string :=
  string_of_list_ascii (fst (break (fun c => Ascii.eqb c "=") param)).

Definition named (name : string) (param : list ascii) : bool :=
  String.eqb (paramName param) name.

(** The characters of these URL texts. *)
Definition isUrlChar (c : ascii) : bool := Server.isIdChar c || oneOf ".=&/?:" c.

End Shapes.

(** ** The other endpoints of the server ([src/unnamed/part_000]) *)

Module Api.
Import Js Chars Server.

(** *** The metadata endpoint (lines 201-228) *)

Inductive infoBody :=
| InfoJson (info : Cache.videoInfo)
| InfoErrorJson (fields : list (string * string)).

Record infoResponse := { infoStatus : Z; infoSent : infoBody }.

(** The handler returns at once, or awaits [fetchVideoInfo] and answers by
    its outcome. *)
Inductive infoHandler :=
| InfoReturn (sent : infoResponse)
| AwaitFetchVideoInfo (videoId : string) (k : infoOutcome -> infoResponse).

(** The [catch] block (lines 216-227). *)
Definition infoFailed (nodeEnv : option string) (videoId : string) (error : Error)
  : infoResponse :=
  let errorMessage := orDefault (Some (message error)) "Failed to fetch video info" in
  let statusCode := if includes "Video unavailable" errorMessage then 404 else 500 in
  {| infoStatus := statusCode;
     infoSent := InfoErrorJson
                   ([("error", errorMessage); ("videoId", videoId)]%string
                    ++ match nodeEnv with
                       | Some env =>
                           if String.eqb env "development"
                           then [("details"%string, stack error)]
                           else []
                       | None => []
                       end) |}.

(** [app.get("/api/info/:videoId", ...)] on [req.params.videoId]. *)
Definition infoGet (nodeEnv : option string) (paramsVideoId : string) : infoHandler :=
  match normalizeVideoId paramsVideoId with
  | None =>
      InfoReturn
        {| infoStatus := 400;
           infoSent := InfoErrorJson
                         [("error", "Invalid video ID"); ("videoId", paramsVideoId)]%string |}
  | Some videoId =>
      AwaitFetchVideoInfo videoId (fun outcome =>
        match outcome with
        | InfoFulfilled info => {| infoStatus := 200; infoSent := InfoJson info |}
        | InfoFailed error => infoFailed nodeEnv videoId error
        end)
  end.

(** *** The search endpoint (lines 230-263) *)

(** A value of [req.query] as the query parser of Express builds it: a
    string, an array or an object. *)
#[warnings="-register-all"] Inductive queryValue :=
| QString (s : string)
| QArray (items : list queryValue)
| QObject.

(** [String(v)] *)
Fixpoint toText (v : queryValue) : string :=
  match v with
  | QString s => s
  | QArray items => String.concat "," (map toText items)
  | QObject => "[object Object]"
  end.

(** [v.author] of a video as yt-search reports it: an object with a
    [name], or a string. *)
Inductive author :=
| AuthorObject (name : option string)
| AuthorString (s : string).

(** A video of the result: the fields the handler reads; [seconds] is
    [v.duration?.seconds]. *)
Record video := {
  videoId : option string;
  title : option string;
  thumbnail : option string;
  videoAuthor : option author;
  seconds : option Z
}.

(** The value of [channelName]: a string, or the author object itself. *)
Inductive channel :=
| ChannelName (s : string)
| ChannelAuthor (a : author).

Record searchItem := {
  itemVideoId : option string;
  itemTitle : string;
  itemThumbnail : string;
  itemChannelName : channel;
  itemDuration : Z
}.

(** [v.author?.name || v.author || "Unknown Channel"] *)
Definition channelOf (v : video) : channel :=
  match videoAuthor v with
  | None => ChannelName "Unknown Channel"
  | Some (AuthorString s) => ChannelName (orDefault (Some s) "Unknown Channel")
  | Some (AuthorObject name) =>
      match whenTruthy name with
      | Some s => ChannelName s
      | None => ChannelAuthor (AuthorObject name)
      end
  end.

(** The callback of [map] (lines 247-253). *)
Definition toItem (v : video) : searchItem :=
  {| itemVideoId := videoId v;
     itemTitle := orDefault (title v) "Unknown Title";
     itemThumbnail := orDefault (thumbnail v) "";
     itemChannelName := channelOf v;
     itemDuration := numOrZero (seconds v) |}.

(** [videos.map(...)] over elements that may be [null]: [None] when the
    callback throws, reading a property of [null]. *)
Fixpoint mapItems (videos : list (option video)) : option (list searchItem) :=
  match videos with
  | [] => Some []
  | None :: _ => None
  | Some v :: rest =>
      match mapItems rest with
      | Some items => Some (toItem v :: items)
      | None => None
      end
  end.

(** What [await yts(query)] gives: [videos] is [result?.videos] when that
    is an array. *)
Inductive ytsResult :=
| YtsRejected (e : Error)
| YtsResolved (videos : option (list (option video))).

Inductive searchBody :=
| SearchItems (items : list searchItem)
| SearchErrorJson (fields : list (string * string)).

Record searchResponse := { searchStatus : Z; searchSent : searchBody }.

Inductive searchHandler :=
| SearchReturn (sent : searchResponse)
| AwaitYts (query : string) (k : ytsResult -> searchResponse).

(** [String(req.query.q ?? "").trim()] *)
Definition searchQuery (q : option queryValue) : string :=
  string_of_list_ascii
    (trim (list_ascii_of_string (match q with Some v => toText v | None => "" end))).

Definition searchFailed (query : string) : searchResponse :=
  {| searchStatus := 500;
     searchSent := SearchErrorJson
                     [("error", "Search failed. Please try again."); ("query", query)]%string |}.

(** [app.get("/api/search", ...)] on [req.query.q]. *)
Definition searchGet (q : option queryValue) : searchHandler :=
  let query := searchQuery q in
  if negb (truthy query)
  then SearchReturn {| searchStatus := 200; searchSent := SearchItems [] |}
  else
    AwaitYts query (fun result =>
      match result with
      | YtsRejected _ => searchFailed query
      | YtsResolved found =>
          let videos := match found with Some l => l | None => [] end in
          match mapItems (firstn 10 videos) with
          | Some response => {| searchStatus := 200; searchSent := SearchItems response |}
          | None => searchFailed query
          end
      end).

(** *** Clearing the caches (lines 414-431) *)

Record clearedCounts := { clearedStreamUrls : nat; clearedVideoInfo : nat }.

(** [app.post("/api/cache/clear", ...)]: the counts of the reply (sent with
    the message "Cache cleared") and the two namespaces afterwards. *)
Definition cacheClear (st : state) (infoSt : infoState)
  : clearedCounts * state * infoState :=
  let beforeStreams := size (streamUrlCache st) in
  let beforeInfo := size (videoInfoCache infoSt) in
  ({| clearedStreamUrls := beforeStreams; clearedVideoInfo := beforeInfo |},
   withCache ∅ st, withInfoCache ∅ infoSt).

(** *** The metadata namespace between two events *)

(** An identifier whose metadata is being fetched is not cached. *)
Definition pendingInfoNotCached (st : infoState) : Prop :=
  forall id p, pendingInfoRequests st !! id = Some p -> videoInfoCache st !! id = None.

End Api.

(** ** The search endpoint of the serverless variant
    ([src/api/[...path].js], lines 30-66) *)

Module ApiPath.
Import Js Chars Api.

(** [v?.videoId] as a condition. *)
Definition hasVideoId (v : option video) : bool :=
  match v with
  | Some x => match whenTruthy (videoId x) with Some _ => true | None => false end
  | None => false
  end.

Definition searchGet (q : option queryValue) : searchHandler :=
  let query := searchQuery q in
  if negb (truthy query)
  then SearchReturn {| searchStatus := 200; searchSent := SearchItems [] |}
  else
    AwaitYts query (fun result =>
      match result with
      | YtsRejected _ => searchFailed query
      | YtsResolved found =>
          let videos := match found with Some l => l | None => [] end in
          match mapItems (firstn 10 (List.filter hasVideoId videos)) with
          | Some response => {| searchStatus := 200; searchSent := SearchItems response |}
          | None => searchFailed query
          end
      end).

End ApiPath.

(** ** The yt-dlp variant, further
    ([src/.history/server/index_20260113173543.js]) *)

Module Snapshot.
Import Js Chars.

(** *** Thumbnails and metadata (lines 179-189, 340-347) *)

(** An entry of [json.thumbnails]: the fields the selection reads. *)
Record thumb := { width : option Z; thumbUrl : option string }.

(** [t?.width ?? 0], for an entry that may be [null]. *)
Definition widthOf (t : option thumb) : Z :=
  match t with
  | Some x => match width x with Some w => w | None => 0 end
  | None => 0
  end.

(** The callback of [thumbs.reduce]. *)
Definition wider (acc t : option thumb) : option thumb :=
  if widthOf acc <? widthOf t then t else acc.

(** [pickBestThumbnailFromYtDlpJson] on [json.thumbnail], [Some] when it is
    a string, and [json.thumbnails], [Some] when it is an array. *)
Definition pickBestThumbnailFromYtDlpJson (thumbnail : option string)
    (thumbnails : option (list (option thumb))) : string :=
  match whenTruthy thumbnail with
  | Some s => s
  | None =>
      match thumbnails with
      | Some ((first :: _) as thumbs) =>
          orDefault
            match fold_left wider thumbs first with
            | Some best => thumbUrl best
            | None => None
            end
            ""
      | _ => ""
      end
  end.

(** *** Stream resolution (lines 43-46, 233-304)

    The cache is the LRU cache of a library: what [streamUrlCache.get]
    returns is supplied with each call, and the calls of
    [streamUrlCache.set] are recorded.  The keys [info:<id>] that
    [getVideoInfo] keeps in the same [pendingRequests] map are distinct from
    every identifier and are left out. *)

(** [split(/\r?\n/)]: a line feed, with the carriage return before it if
    there is one, ends a line. *)
Fixpoint splitLines (l : list ascii) : list (list ascii) :=
  match l with
  | [] => [[]]
  | c :: r =>
      if (code c =? 10)%nat then [] :: splitLines r
      else
        match r with
        | d :: r' =>
            if (code c =? 13)%nat && (code d =? 10)%nat then [] :: splitLines r'
            else match splitLines r with
                 | line :: more => (c :: line) :: more
                 | [] => [[c]]
                 end
        | [] => [[c]]
        end
  end.

(** [String(stdout).trim().split(/\r?\n/).filter(Boolean)[0]] *)
Definition firstLine (stdout : string) : option string :=
  match List.filter (fun line => negb (length line =? 0)%nat)
          (splitLines (trim (list_ascii_of_string stdout))) with
  | line :: _ => Some (string_of_list_ascii line)
  | [] => None
  end.

(** What [await runYtDlp(...)] gives: a rejection, or the standard output
    of the process. *)
Inductive ytDlpResult :=
| YtDlpRejected (e : Error)
| YtDlpStdout (stdout : string).

Record state := {
  (** the identifiers under which [pendingRequests] holds [true] *)
  pendingRequests : gset string;
  (** by identifier, the promises whose listeners are registered on
      [stream:<id>:success] and [stream:<id>:error], oldest first *)
  waiters : gmap string (list nat);
  (** the async bodies at [await getAllFormats(videoId)]: by promise, the
      identifier *)
  awaitingFormats : gmap nat string;
  (** the async bodies at [await runYtDlp(...)] of the second method *)
  awaitingFallback : gmap nat string;
  settled : gmap nat Server.outcome;
  (** the calls of [streamUrlCache.set], oldest first *)
  cacheSets : list (string * string);
  (** the calls of [getAllFormats], oldest first *)
  getAllFormatsCalls : list string;
  nextPromise : nat
}.

Definition initial : state :=
  {| pendingRequests := ∅; waiters := ∅; awaitingFormats := ∅; awaitingFallback := ∅;
     settled := ∅; cacheSets := []; getAllFormatsCalls := []; nextPromise := 0 |}.

(** The listeners registered for [videoId]. *)
Definition waitersFor (videoId : string) (st : state) : list nat :=
  match waiters st !! videoId with
  | Some ws => ws
  | None => []
  end.

(** [getStreamUrl], up to the point where it returns its promise; [cached]
    is what [streamUrlCache.get(videoId)] returns. *)
Definition getStreamUrl (cached : option string) (videoId : string) (st : state)
  : Server.asyncResult * state :=
  match whenTruthy cached with
  | Some u => (Server.Fulfilled u, st)
  | None =>
      let promise := nextPromise st in
      if decide (videoId ∈ pendingRequests st)
      then
        (Server.Adopts promise,
         {| pendingRequests := pendingRequests st;
            waiters := <[videoId := waitersFor videoId st ++ [promise]]> (waiters st);
            awaitingFormats := awaitingFormats st;
            awaitingFallback := awaitingFallback st;
            settled := settled st;
            cacheSets := cacheSets st;
            getAllFormatsCalls := getAllFormatsCalls st;
            nextPromise := S promise |})
      else
        (Server.Adopts promise,
         {| pendingRequests := {[ videoId ]} ∪ pendingRequests st;
            waiters := waiters st;
            awaitingFormats := <[promise := videoId]> (awaitingFormats st);
            awaitingFallback := awaitingFallback st;
            settled := settled st;
            cacheSets := cacheSets st;
            getAllFormatsCalls := getAllFormatsCalls st ++ [videoId];
            nextPromise := S promise |})
  end.

(** The outcome a caller holding [r] observes, once there is one. *)
Definition observed (st : state) (r : Server.asyncResult) : option Server.outcome :=
  match r with
  | Server.Fulfilled u => Some (Server.Resolved u)
  | Server.Adopts promise => settled st !! promise
  end.

(** The async body of [promise] runs to its end with the outcome [o]: the
    URL is cached, the event is emitted (every listener settles its
    promise and is removed), the body returns or throws, and the [finally]
    block deletes the pending entry. *)
Definition finish (promise : nat) (videoId : string) (o : Server.outcome) (st : state) : state :=
  {| pendingRequests := pendingRequests st ∖ {[ videoId ]};
     waiters := delete videoId (waiters st);
     awaitingFormats := delete promise (awaitingFormats st);
     awaitingFallback := delete promise (awaitingFallback st);
     settled := <[promise := o]>
                  (fold_right (fun w m => <[w := o]> m) (settled st) (waitersFor videoId st));
     cacheSets := match o with
                  | Server.Resolved directUrl => cacheSets st ++ [(videoId, directUrl)]
                  | Server.Rejected _ => cacheSets st
                  end;
     getAllFormatsCalls := getAllFormatsCalls st;
     nextPromise := nextPromise st |}.

Section Engine.

Variable stackOf : string -> string.

(** The URL of the first method (lines 270-273): that of the selected
    format, when there is one and it has a URL. *)
Definition firstMethod (formats : list History.format) : option string :=
  match History.selectFastestAudioFormat formats with
  | Some bestFormat => whenTruthy (History.url bestFormat)
  | None => None
  end.

(** The outcome of the second method (lines 290-295, 297-300). *)
Definition secondMethod (r : ytDlpResult) : Server.outcome :=
  match r with
  | YtDlpRejected e => Server.Rejected e
  | YtDlpStdout stdout =>
      match firstLine stdout with
      | Some directUrl => Server.Resolved directUrl
      | None => Server.Rejected (Server.newError stackOf "No stream URL found")
      end
  end.

(** The body resumes when [getAllFormats] resolves (it does not reject):
    the first method, or on to the second. *)
Definition formatsSettle (promise : nat) (formats : list History.format) (st : state) : state :=
  match awaitingFormats st !! promise with
  | None => st
  | Some videoId =>
      match firstMethod formats with
      | Some directUrl => finish promise videoId (Server.Resolved directUrl) st
      | None =>
          {| pendingRequests := pendingRequests st;
             waiters := waiters st;
             awaitingFormats := delete promise (awaitingFormats st);
             awaitingFallback := <[promise := videoId]> (awaitingFallback st);
             settled := settled st;
             cacheSets := cacheSets st;
             getAllFormatsCalls := getAllFormatsCalls st;
             nextPromise := nextPromise st |}
      end
  end.

(** The body resumes when [runYtDlp] of the second method settles (lines
    290-303). *)
Definition fallbackSettles (promise : nat) (r : ytDlpResult) (st : state) : state :=
  match awaitingFallback st !! promise with
  | None => st
  | Some videoId =>
      finish promise videoId (secondMethod r) st
  end.

(** What happens to the shared state, one event-loop turn at a time. *)
Inductive event :=
| CallGetStreamUrl (cached : option string) (videoId : string)
| FormatsSettle (promise : nat) (formats : list History.format)
| FallbackSettles (promise : nat) (r : ytDlpResult).

Definition exec (ev : event) (st : state) : option Server.asyncResult * state :=
  match ev with
  | CallGetStreamUrl cached videoId =>
      let (r, st') := getStreamUrl cached videoId st in (Some r, st')
  | FormatsSettle promise formats => (None, formatsSettle promise formats st)
  | FallbackSettles promise r => (None, fallbackSettles promise r st)
  end.

Fixpoint run (evs : list event) (st : state) : list (option Server.asyncResult) * state :=
  match evs with
  | [] => ([], st)
  | ev :: rest =>
      let (r, st1) := exec ev st in
      let (rs, st2) := run rest st1 in
      (r :: rs, st2)
  end.

(** The results of the calls of [getStreamUrl] for [videoId] in a run:
    [rs] are the results of the events [evs], one for one. *)
Fixpoint resultsFor (videoId : string) (evs : list event) (rs : list (option Server.asyncResult))
  : list Server.asyncResult :=
  match evs, rs with
  | CallGetStreamUrl _ id :: evs', Some r :: rs' =>
      if String.eqb id videoId then r :: resultsFor videoId evs' rs'
      else resultsFor videoId evs' rs'
  | _ :: evs', _ :: rs' => resultsFor videoId evs' rs'
  | _, _ => []
  end.

(** The calls for [videoId] in the run are concurrent and find nothing
    cached: no event of the run ends the extraction for [videoId] (its
    first method may fail and leave it to the second), and the cache gives
    none of the calls a URL. *)
Fixpoint concurrentFor (videoId : string) (evs : list event) (st : state) : Prop :=
  match evs with
  | [] => True
  | ev :: rest =>
      match ev with
      | CallGetStreamUrl cached id => id = videoId -> whenTruthy cached = None
      | FormatsSettle promise formats =>
          awaitingFormats st !! promise = Some videoId -> firstMethod formats = None
      | FallbackSettles promise _ => awaitingFallback st !! promise <> Some videoId
      end
      /\ concurrentFor videoId rest (snd (exec ev st))
  end.

End Engine.

(** How many times [getAllFormats] has been called for [videoId]. *)
Definition getAllFormatsCallsFor (videoId : string) (st : state) : nat :=
  count_occ String.string_dec (getAllFormatsCalls st) videoId.

(** The states the server can be in. *)
Inductive reachable (stackOf : string -> string) : state -> Prop :=
| reachable_initial : reachable stackOf initial
| reachable_exec ev st : reachable stackOf st -> reachable stackOf (snd (exec stackOf ev st)).

(** The extraction in flight for [videoId], at either [await]. *)
Definition inFlight (st : state) (promise : nat) (videoId : string) : Prop :=
  awaitingFormats st !! promise = Some videoId \/ awaitingFallback st !! promise = Some videoId.

(** What holds of the shared state between two events. *)
Record consistent (st : state) : Prop := {
  pending_in_flight :
    forall videoId, videoId ∈ pendingRequests st -> exists promise, inFlight st promise videoId;
  in_flight_pending :
    forall promise videoId, inFlight st promise videoId -> videoId ∈ pendingRequests st;
  in_flight_once :
    forall p1 p2 videoId, inFlight st p1 videoId -> inFlight st p2 videoId -> p1 = p2;
  in_flight_one_id :
    forall promise id1 id2, inFlight st promise id1 -> inFlight st promise id2 -> id1 = id2;
  in_flight_not_settled :
    forall promise videoId, inFlight st promise videoId ->
                            (promise < nextPromise st)%nat /\ settled st !! promise = None;
  waiters_pending :
    forall videoId w, In w (waitersFor videoId st) ->
                      videoId ∈ pendingRequests st
                      /\ (w < nextPromise st)%nat /\ settled st !! w = None;
  waiters_not_in_flight :
    forall videoId w id, In w (waitersFor videoId st) -> ~ inFlight st w id;
  waiters_one_id :
    forall id1 id2 w, In w (waitersFor id1 st) -> In w (waitersFor id2 st) -> id1 = id2;
  settled_are_old :
    forall promise o, settled st !! promise = Some o -> (promise < nextPromise st)%nat
}.

(** *** The stream endpoint and its proxy (lines 428-534)

    [normalizeVideoId] of this variant (lines 157-177) is that of the
    server, word for word. *)

Definition proxyUserAgent : string :=
  "Mozilla/5.0 (Windows NT 10.0; Win64; x64) AppleWebKit/537.36 (KHTML, like Gecko) Chrome/120.0.0.0 Safari/537.36".

(** The headers of the upstream request (lines 479-488). *)
Definition proxyRequestHeaders (range : option string) : gmap string string :=
  let headers :=
    <["Connection"%string := "keep-alive"%string]>
      (<["Accept-Encoding"%string := "identity"%string]>
         (<["Accept"%string := "*/*"%string]>
            {[ "User-Agent"%string := proxyUserAgent ]})) in
  match whenTruthy range with
  | Some r => <["Range"%string := r]> headers
  | None => headers
  end.

(** [upstream.ok] *)
Definition ok (upstream : Server.upstreamResponse) : bool :=
  (200 <=? Server.upstreamStatus upstream) && (Server.upstreamStatus upstream <=? 299).

(** The [forEach] over the allow-list (lines 502-506). *)
Definition copyHeaders (upstream : Server.upstreamResponse) (hs : gmap string string)
  : gmap string string :=
  fold_left
    (fun acc header =>
       match whenTruthy (Server.upstreamHeaders upstream !! header) with
       | Some value => Server.setHeader header value acc
       | None => acc
       end)
    ["content-type"; "content-length"; "content-range"; "accept-ranges"]%string
    hs.

(** [proxyStream] once [fetch] has settled: the response it sends, if any.
    [aborted] is [abortController.signal.aborted] in the [catch] block,
    [alreadySet] the headers set on the response before the call.  The
    status code is never set: it is the default, 200. *)
Definition proxyStream (aborted : bool) (videoId : string)
    (alreadySet : gmap string string) (fetched : Server.fetchResult)
  : option Server.response :=
  let failed :=
    if aborted then None
    else Some {| Server.status := 500;
                 Server.headers := alreadySet;
                 Server.body := Server.JsonBody
                                  [("error", "Stream proxy failed"); ("videoId", videoId)]%string |} in
  match fetched with
  | Server.FetchRejected _ => failed
  | Server.FetchResponded upstream =>
      if ok upstream
      then Some {| Server.status := 200;
                   Server.headers :=
                     Server.setHeader "Access-Control-Allow-Origin" "*"
                       (Server.setHeader "Cache-Control" "public, max-age=7200"
                          (copyHeaders upstream alreadySet));
                   Server.body := if Server.upstreamHasBody upstream
                                  then Server.PipedBody else Server.EndedBody |}
      else failed
  end.

Inductive handler :=
| Return (sent : option Server.response)
| AwaitGetStreamUrl (videoId : string) (k : Server.outcome -> handler)
| AwaitFetch (target : string) (requestHeaders : gmap string string)
    (k : Server.fetchResult -> handler).

(** The headers set before the URL is known (lines 453-455). *)
Definition optimisticHeaders : gmap string string :=
  Server.setHeader "Content-Type" "audio/mpeg"
    (Server.setHeader "Cache-Control" "public, max-age=7200"
       (Server.setHeader "Accept-Ranges" "bytes" ∅)).

(** [app.get("/api/stream/:videoId", ...)]; [cachedUrl] is what
    [streamUrlCache.get(videoId)] returns. *)
Definition streamGet (cachedUrl : option string) (aborted : bool) (req : Server.request)
  : handler :=
  match Server.normalizeVideoId (Server.paramsVideoId req) with
  | None =>
      Return (Some {| Server.status := 400;
                      Server.headers := ∅;
                      Server.body := Server.JsonBody [("error", "Invalid video ID")]%string |})
  | Some videoId =>
      let range := Server.headersRange req in
      match whenTruthy cachedUrl with
      | Some directUrl =>
          AwaitFetch directUrl (proxyRequestHeaders range) (fun fetched =>
            Return (proxyStream aborted videoId ∅ fetched))
      | None =>
          AwaitGetStreamUrl videoId (fun resolution =>
            match resolution with
            | Server.Rejected error =>
                Return (Some {| Server.status := 500;
                                Server.headers := optimisticHeaders;
                                Server.body :=
                                  Server.JsonBody
                                    [("error", "Stream failed"); ("videoId", videoId);
                                     ("message", message error)]%string |})
            | Server.Resolved streamUrl =>
                AwaitFetch streamUrl (proxyRequestHeaders range) (fun fetched =>
                  Return (proxyStream aborted videoId optimisticHeaders fetched))
            end)
      end
  end.

(** A handler run to its end: the response it sends, when [getStreamUrl]
    settles as [resolution] and [fetch] as [fetched]. *)
Fixpoint answer (h : handler) (resolution : Server.outcome) (fetched : Server.fetchResult)
  : option Server.response :=
  match h with
  | Return sent => sent
  | AwaitGetStreamUrl _ k => answer (k resolution) resolution fetched
  | AwaitFetch _ _ k => answer (k fetched) resolution fetched
  end.

(** *** The search endpoint (lines 391-426) *)

(** The value of a digit of [parseInt] in the radix, 10 or 16. *)
Definition digitOf (radix : Z) (c : ascii) : option Z :=
  if isDigit c then Some (Z.of_nat (code c) - 48)%Z
  else if (radix =? 16)%Z then
    if inRange 97 102 c then Some (Z.of_nat (code c) - 87)%Z
    else if inRange 65 70 c then Some (Z.of_nat (code c) - 55)%Z
    else None
  else None.

(** The number the longest prefix of digits denotes after [acc], which is
    [None] as long as no digit was read. *)
Fixpoint digitsPrefix (radix : Z) (l : list ascii) (acc : option Z) : option Z :=
  match l with
  | c :: r =>
      match digitOf radix c with
      | Some d =>
          digitsPrefix radix r
            (Some (match acc with Some n => n * radix + d | None => d end)%Z)
      | None => acc
      end
  | [] => acc
  end.

(** The sign of [parseInt], and the text after it. *)
Definition signOf (s : list ascii) : bool * list ascii :=
  match s with
  | c :: r =>
      if (code c =? 45)%nat then (true, r)
      else if (code c =? 43)%nat then (false, r)
      else (false, s)
  | [] => (false, s)
  end.

(** The radix of [parseInt] without a second argument, and the text after
    the prefix [0x] or [0X]. *)
Definition radixOf (s : list ascii) : Z * list ascii :=
  match s with
  | c :: d :: r =>
      if (code c =? 48)%nat && ((code d =? 120)%nat || (code d =? 88)%nat)
      then (16%Z, r)
      else (10%Z, s)
  | _ => (10%Z, s)
  end.

(** [parseInt(text)] without a radix: leading white space is skipped, then
    a sign, then [0x] or [0X], which makes the radix 16; [None] is [NaN].
    The result is the integer the digits denote; the double the source
    holds differs from it only beyond 2^53, where [Math.min] and [slice]
    below give the same on every array. *)
Definition parseInt (text : string) : option Z :=
  let signed := signOf (dropWhile isWhiteSpace (list_ascii_of_string text)) in
  let prefixed := radixOf (snd signed) in
  match digitsPrefix (fst prefixed) (snd prefixed) None with
  | Some n => Some (if fst signed then (- n)%Z else n)
  | None => None
  end.

(** [Math.min(parseInt(req.query.limit) || 10, 20)] *)
Definition searchLimit (limit : option Api.queryValue) : Z :=
  let parsed :=
    parseInt (match limit with Some v => Api.toText v | None => "undefined" end) in
  Z.min (match parsed with
         | Some n => if (n =? 0)%Z then 10%Z else n
         | None => 10%Z
         end) 20.

(** [array.slice(0, limit)] *)
Definition sliceTo {A} (limit : Z) (l : list A) : list A :=
  if (limit <? 0)%Z
  then firstn (Z.to_nat (Z.max (Z.of_nat (length l) + limit) 0)) l
  else firstn (Z.to_nat limit) l.

Definition searchFailed (query : string) : Api.searchResponse :=
  {| Api.searchStatus := 500;
     Api.searchSent :=
       Api.SearchErrorJson [("error", "Search failed"); ("query", query)]%string |}.

(** [app.get("/api/search", ...)] on [req.query.q] and [req.query.limit];
    the callback of [map] is that of lines 247-253 of the server. *)
Definition searchGet (q limit : option Api.queryValue) : Api.searchHandler :=
  let query := Api.searchQuery q in
  let limit := searchLimit limit in
  if negb (truthy query)
  then Api.SearchReturn {| Api.searchStatus := 200; Api.searchSent := Api.SearchItems [] |}
  else
    Api.AwaitYts query (fun result =>
      match result with
      | Api.YtsRejected _ => searchFailed query
      | Api.YtsResolved found =>
          let videos := match found with Some l => l | None => [] end in
          match Api.mapItems (sliceTo limit videos) with
          | Some response =>
              {| Api.searchStatus := 200; Api.searchSent := Api.SearchItems response |}
          | None => searchFailed query
          end
      end).

(** The timer callback of lines 413-419: the values [getStreamUrl] is
    called with, [has] being [streamUrlCache.has] when the timer fires. *)
Definition prewarmed (has : option string -> bool) (response : list Api.searchItem)
  : list (option string) :=
  List.filter (fun id => negb (has id)) (map Api.itemVideoId (firstn 3 response)).

(** The number a decimal numeral denotes. *)
Definition numeral (digits : list ascii) : Z :=
  fold_left (fun n c => (n * 10 + (Z.of_nat (code c) - 48))%Z) digits 0%Z.

End Snapshot.
(** * Properties *)

(** ** The caches *)

Section CacheFacts.
Import Cache.

Lemma ttl_not_exceeded (ttl now now' : Z) :
  now' - now <= ttl -> (ttl <? now' - now) = false.
Proof. intros H. apply Z.ltb_ge. exact H. Qed.

Lemma getCachedStreamUrl_fresh now now' k v (c : gmap string streamEntry) :
  now' - now <= STREAM_CACHE_TTL_MS ->
  getCachedStreamUrl now' k (setCachedStreamUrl now k v c)
  = (Some v, setCachedStreamUrl now k v c).
Proof.
  intros Hfresh. unfold getCachedStreamUrl, setCachedStreamUrl.
  rewrite lookup_insert_eq. simpl.
  now rewrite (ttl_not_exceeded _ _ _ Hfresh).
Qed.

Lemma getCachedVideoInfo_fresh now now' k i (c : gmap string infoEntry) :
  now' - now <= INFO_CACHE_TTL_MS ->
  getCachedVideoInfo now' k (setCachedVideoInfo now k i c)
  = (Some i, setCachedVideoInfo now k i c).
Proof.
  intros Hfresh. unfold getCachedVideoInfo, setCachedVideoInfo.
  rewrite lookup_insert_eq. simpl.
  now rewrite (ttl_not_exceeded _ _ _ Hfresh).
Qed.

Lemma getCachedStreamUrl_stale now k e (c : gmap string streamEntry) :
  c !! k = Some e ->
  STREAM_CACHE_TTL_MS < now - timestamp e ->
  getCachedStreamUrl now k c = (None, delete k c).
Proof.
  intros Hk Hold. unfold getCachedStreamUrl. rewrite Hk.
  apply Z.ltb_lt in Hold. now rewrite Hold.
Qed.

Lemma getCachedVideoInfo_stale now k e (c : gmap string infoEntry) :
  c !! k = Some e ->
  INFO_CACHE_TTL_MS < now - infoTimestamp e ->
  getCachedVideoInfo now k c = (None, delete k c).
Proof.
  intros Hk Hold. unfold getCachedVideoInfo. rewrite Hk.
  apply Z.ltb_lt in Hold. now rewrite Hold.
Qed.

(** Deleting an entry that is there takes one off the occupancy. *)
Lemma size_delete_present {A} k (e : A) (c : gmap string A) :
  c !! k = Some e -> S (size (delete k c)) = size c.
Proof.
  intros Hk. rewrite map_size_delete, Hk.
  assert (size c <> 0%nat) as Hpos.
  { intros Hz. apply map_size_empty_inv in Hz. subst c.
    rewrite lookup_empty in Hk. discriminate. }
  destruct (size c); [contradiction | reflexivity].
Qed.

(** A get never adds an entry, whatever it returns. *)
Lemma getCachedStreamUrl_size now k (c : gmap string streamEntry) :
  (size (snd (getCachedStreamUrl now k c)) <= size c)%nat.
Proof.
  unfold getCachedStreamUrl. destruct (c !! k) as [e|] eqn:Hk; simpl; [|lia].
  destruct (_ <? _); simpl; [|lia].
  pose proof (size_delete_present k e c Hk). lia.
Qed.

(** A put of an absent identifier adds one entry: nothing is evicted to
    make room. *)
Lemma setCachedStreamUrl_size_absent now k u (c : gmap string streamEntry) :
  c !! k = None -> size (setCachedStreamUrl now k u c) = S (size c).
Proof. intros Hk. unfold setCachedStreamUrl. now apply map_size_insert_None. Qed.

(** A run of insertions under keys that differ pairwise and are not in the
    map adds one entry per key. *)
Lemma size_insert_all {A} (value : string -> A) ids (c : gmap string A) :
  NoDup ids ->
  (forall id, id ∈ ids -> c !! id = None) ->
  size (fold_left (fun m id => <[id := value id]> m) ids c) = (size c + length ids)%nat.
Proof.
  revert c. induction ids as [|id ids IH]; intros c Hnd Hfresh; simpl.
  - lia.
  - apply NoDup_cons in Hnd as [Hnotin Hnd].
    rewrite IH.
    + rewrite map_size_insert_None by (apply Hfresh; left). lia.
    + exact Hnd.
    + intros k Hk. rewrite lookup_insert_ne.
      * apply Hfresh. now right.
      * intros ->. contradiction.
Qed.

Lemma putAll_size now ids u (c : gmap string streamEntry) :
  NoDup ids ->
  (forall id, id ∈ ids -> c !! id = None) ->
  size (putAll now ids u c) = (size c + length ids)%nat.
Proof. apply (size_insert_all (fun _ => {| url := u; timestamp := now |})). Qed.

Lemma putAllInfo_size now ids i (c : gmap string infoEntry) :
  NoDup ids ->
  (forall id, id ∈ ids -> c !! id = None) ->
  size (putAllInfo now ids i c) = (size c + length ids)%nat.
Proof. apply (size_insert_all (fun _ => {| info := i; infoTimestamp := now |})). Qed.

End CacheFacts.

Import Samples.

Lemma letters_length n : String.length (letters n) = n.
Proof. induction n; simpl; congruence. Qed.

Lemma distinctIds_NoDup n : NoDup (distinctIds n).
Proof.
  unfold distinctIds. apply (NoDup_fmap_2_strong letters).
  - intros a b _ _ Hab. apply (f_equal String.length) in Hab.
    now rewrite !letters_length in Hab.
  - apply NoDup_seq.
Qed.

Lemma distinctIds_length n : length (distinctIds n) = n.
Proof. unfold distinctIds. now rewrite length_map, length_seq. Qed.

(** C3: in the stream-location cache and in the metadata cache alike, a get
    that follows a put of [v] under [k] within the time-to-live (at once, in
    particular) returns [v]; and a get of an entry older than the
    time-to-live returns a miss and deletes the entry, so that the key is
    gone and the occupancy is one less. *)
Theorem cache_put_get_and_lazy_eviction :
  (forall now now' k v (c : gmap string Cache.streamEntry),
      now' - now <= Cache.STREAM_CACHE_TTL_MS ->
      fst (Cache.getCachedStreamUrl now' k (Cache.setCachedStreamUrl now k v c)) = Some v)
  /\ (forall now now' k i (c : gmap string Cache.infoEntry),
      now' - now <= Cache.INFO_CACHE_TTL_MS ->
      fst (Cache.getCachedVideoInfo now' k (Cache.setCachedVideoInfo now k i c)) = Some i)
  /\ (forall now k e (c : gmap string Cache.streamEntry),
      c !! k = Some e ->
      Cache.STREAM_CACHE_TTL_MS < now - Cache.timestamp e ->
      fst (Cache.getCachedStreamUrl now k c) = None
      /\ snd (Cache.getCachedStreamUrl now k c) !! k = None
      /\ S (size (snd (Cache.getCachedStreamUrl now k c))) = size c)
  /\ (forall now k e (c : gmap string Cache.infoEntry),
      c !! k = Some e ->
      Cache.INFO_CACHE_TTL_MS < now - Cache.infoTimestamp e ->
      fst (Cache.getCachedVideoInfo now k c) = None
      /\ snd (Cache.getCachedVideoInfo now k c) !! k = None
      /\ S (size (snd (Cache.getCachedVideoInfo now k c))) = size c).
Proof.
  repeat split.
  - intros. now rewrite getCachedStreamUrl_fresh.
  - intros. now rewrite getCachedVideoInfo_fresh.
  - erewrite getCachedStreamUrl_stale by eassumption. reflexivity.
  - erewrite getCachedStreamUrl_stale by eassumption. apply lookup_delete_eq.
  - erewrite getCachedStreamUrl_stale by eassumption.
    simpl. eapply size_delete_present. eassumption.
  - erewrite getCachedVideoInfo_stale by eassumption. reflexivity.
  - erewrite getCachedVideoInfo_stale by eassumption. apply lookup_delete_eq.
  - erewrite getCachedVideoInfo_stale by eassumption.
    simpl. eapply size_delete_present. eassumption.
Qed.

(** The theorem at work: a put at time 1000, a get at once, and a get three
    hours and one millisecond later (a day and one millisecond for the
    metadata). *)
Lemma cache_put_get_and_lazy_eviction_witness :
  fst (Cache.getCachedStreamUrl 1000 "dQw4w9WgXcQ"
         (Cache.setCachedStreamUrl 1000 "dQw4w9WgXcQ" "https://cdn/a" ∅))
  = Some "https://cdn/a"%string
  /\ fst (Cache.getCachedVideoInfo 1000 "dQw4w9WgXcQ"
            (Cache.setCachedVideoInfo 1000 "dQw4w9WgXcQ" Samples.info ∅))
     = Some Samples.info
  /\ S (size (snd (Cache.getCachedStreamUrl 10801001 "dQw4w9WgXcQ"
                     (Cache.setCachedStreamUrl 1000 "dQw4w9WgXcQ" "https://cdn/a" ∅))))
     = 1%nat
  /\ S (size (snd (Cache.getCachedVideoInfo 86401001 "dQw4w9WgXcQ"
                     (Cache.setCachedVideoInfo 1000 "dQw4w9WgXcQ" Samples.info ∅))))
     = 1%nat.
Proof.
  destruct cache_put_get_and_lazy_eviction as (Hs & Hi & Hse & Hie).
  split; [|split; [|split]].
  - apply Hs. vm_compute. discriminate.
  - apply Hi. vm_compute. discriminate.
  - refine (proj2 (proj2 (Hse 10801001 "dQw4w9WgXcQ"%string
             {| Cache.url := "https://cdn/a"; Cache.timestamp := 1000 |} _ _ _))).
    + apply lookup_insert_eq.
    + vm_compute. reflexivity.
  - refine (proj2 (proj2 (Hie 86401001 "dQw4w9WgXcQ"%string
             {| Cache.info := Samples.info; Cache.infoTimestamp := 1000 |} _ _ _))).
    + apply lookup_insert_eq.
    + vm_compute. reflexivity.
Defined.

(** C4, as the claim states it, fails: each cache is a plain [Map], and no
    bound holds for it.  Three puts leave three entries, and whatever the
    bound, a run of puts leaves more entries than that, in the
    stream-location cache and in the metadata cache. *)
Lemma cache_has_no_maximum_entry_count :
  size (Cache.putAll 0 ["aaaaaaaaaaa"; "bbbbbbbbbbb"; "ccccccccccc"]%string "https://cdn/a" ∅) = 3%nat
  /\ (forall bound : nat, exists ids,
         (bound < size (Cache.putAll 0 ids "https://cdn/a" ∅))%nat)
  /\ (forall bound : nat, exists ids,
         (bound < size (Cache.putAllInfo 0 ids Samples.info ∅))%nat).
Proof.
  split; [|split].
  - vm_compute. reflexivity.
  - intros bound. exists (distinctIds (S bound)).
    rewrite putAll_size.
    + rewrite distinctIds_length, map_size_empty. lia.
    + apply distinctIds_NoDup.
    + intros. apply lookup_empty.
  - intros bound. exists (distinctIds (S bound)).
    rewrite putAllInfo_size.
    + rewrite distinctIds_length, map_size_empty. lia.
    + apply distinctIds_NoDup.
    + intros. apply lookup_empty.
Qed.

Section LeavingFacts.
Import Cache Server.

Lemma getCachedStreamUrl_leaves now id (c : gmap string streamEntry) k e :
  c !! k = Some e ->
  snd (getCachedStreamUrl now id c) !! k = None ->
  k = id /\ STREAM_CACHE_TTL_MS < now - timestamp e.
Proof.
  intros Hk. unfold getCachedStreamUrl.
  destruct (c !! id) as [cached|] eqn:Hid; simpl; [|congruence].
  destruct (Z.ltb_spec STREAM_CACHE_TTL_MS (now - timestamp cached)) as [Hold | Hfresh];
    simpl; [|congruence].
  intros Hgone. apply lookup_delete_None in Hgone as [-> | Hnone]; [|congruence].
  split; [reflexivity|]. congruence.
Qed.

Lemma getCachedVideoInfo_leaves now id (c : gmap string infoEntry) k e :
  c !! k = Some e ->
  snd (getCachedVideoInfo now id c) !! k = None ->
  k = id /\ INFO_CACHE_TTL_MS < now - infoTimestamp e.
Proof.
  intros Hk. unfold getCachedVideoInfo.
  destruct (c !! id) as [cached|] eqn:Hid; simpl; [|congruence].
  destruct (Z.ltb_spec INFO_CACHE_TTL_MS (now - infoTimestamp cached)) as [Hold | Hfresh];
    simpl; [|congruence].
  intros Hgone. apply lookup_delete_None in Hgone as [-> | Hnone]; [|congruence].
  split; [reflexivity|]. congruence.
Qed.

Lemma sweepStreams_keeps later (c : gmap string streamEntry) k e :
  sweepStreams later c !! k = Some e
  <-> c !! k = Some e /\ later - timestamp e <= STREAM_CACHE_TTL_MS.
Proof.
  unfold sweepStreams. rewrite map_lookup_filter_Some. simpl.
  rewrite negb_true_iff, Z.ltb_ge. reflexivity.
Qed.

Lemma sweepInfo_keeps later (c : gmap string infoEntry) k e :
  sweepInfo later c !! k = Some e
  <-> c !! k = Some e /\ later - infoTimestamp e <= INFO_CACHE_TTL_MS.
Proof.
  unfold sweepInfo. rewrite map_lookup_filter_Some. simpl.
  rewrite negb_true_iff, Z.ltb_ge. reflexivity.
Qed.

(** The cache after [fetchStreamUrl] is the cache after its lookup. *)
Lemma fetchStreamUrl_cache now id st :
  streamUrlCache (snd (fetchStreamUrl now id st))
  = snd (getCachedStreamUrl now id (streamUrlCache st)).
Proof.
  unfold fetchStreamUrl.
  destruct (getCachedStreamUrl now id (streamUrlCache st)) as [cached cache].
  destruct (Js.whenTruthy cached); [reflexivity|].
  destruct (pendingStreamRequests st !! id); reflexivity.
Qed.

Lemma fetchVideoInfo_cache now id st :
  videoInfoCache (snd (fetchVideoInfo now id st))
  = snd (getCachedVideoInfo now id (videoInfoCache st)).
Proof.
  unfold fetchVideoInfo.
  destruct (getCachedVideoInfo now id (videoInfoCache st)) as [cached cache].
  destruct cached; [reflexivity|].
  destruct (pendingInfoRequests st !! id); reflexivity.
Qed.

(** In the stream-location cache an entry leaves only by a clear or when
    its time-to-live has passed, whatever the server does. *)
Lemma stream_entry_leaves stackOf ev st k e :
  streamUrlCache st !! k = Some e ->
  streamUrlCache (snd (exec stackOf ev st)) !! k = None ->
  ev = CacheClear
  \/ exists now,
      (ev = CallFetchStreamUrl now k \/ ev = CallGetCachedStreamUrl now k
       \/ ev = CacheSweep now)
      /\ STREAM_CACHE_TTL_MS < now - timestamp e.
Proof.
  intros Hk. destruct ev as [now id | now p r | now id | | now]; cbn [exec].
  - destruct (fetchStreamUrl now id st) as [res st1] eqn:Hcall. cbn [snd].
    replace st1 with (snd (fetchStreamUrl now id st)) by now rewrite Hcall.
    rewrite fetchStreamUrl_cache. intros Hgone.
    destruct (getCachedStreamUrl_leaves now id _ k e Hk Hgone) as [-> Hold].
    right. exists now. split; [now left | exact Hold].
  - cbn [snd]. unfold getInfoSettles.
    destruct (awaitingGetInfo st !! p) as [videoId|]; [|congruence].
    cbn [streamUrlCache]. destruct (resolveStream stackOf r) as [directUrl | err];
      [|congruence].
    unfold setCachedStreamUrl. intros Hgone.
    apply lookup_insert_None in Hgone as [Hnone _]. congruence.
  - cbn [snd withCache streamUrlCache]. intros Hgone.
    destruct (getCachedStreamUrl_leaves now id _ k e Hk Hgone) as [-> Hold].
    right. exists now. split; [right; now left | exact Hold].
  - now left.
  - cbn [snd withCache streamUrlCache]. intros Hgone.
    right. exists now. split; [right; now right|].
    destruct (Z.ltb_spec STREAM_CACHE_TTL_MS (now - timestamp e)) as [Hold | Hfresh];
      [exact Hold|].
    exfalso. assert (sweepStreams now (streamUrlCache st) !! k = Some e) as Hkept
      by now apply sweepStreams_keeps.
    congruence.
Qed.

(** The same of the metadata cache. *)
Lemma info_entry_leaves ev st k e :
  videoInfoCache st !! k = Some e ->
  videoInfoCache (execInfo ev st) !! k = None ->
  ev = InfoCacheClear
  \/ exists now,
      (ev = CallFetchVideoInfo now k \/ ev = InfoCacheSweep now)
      /\ INFO_CACHE_TTL_MS < now - infoTimestamp e.
Proof.
  intros Hk. destruct ev as [now id | now p r | | now]; cbn [execInfo].
  - rewrite fetchVideoInfo_cache. intros Hgone.
    destruct (getCachedVideoInfo_leaves now id _ k e Hk Hgone) as [-> Hold].
    right. exists now. split; [now left | exact Hold].
  - unfold basicInfoSettles.
    destruct (awaitingBasicInfo st !! p) as [videoId|]; [|congruence].
    cbn [videoInfoCache]. destruct (resolveInfo videoId r) as [i | err]; [|congruence].
    unfold setCachedVideoInfo. intros Hgone.
    apply lookup_insert_None in Hgone as [Hnone _]. congruence.
  - now left.
  - cbn [withInfoCache videoInfoCache]. intros Hgone.
    right. exists now. split; [now right|].
    destruct (Z.ltb_spec INFO_CACHE_TTL_MS (now - infoTimestamp e)) as [Hold | Hfresh];
      [exact Hold|].
    exfalso. assert (sweepInfo now (videoInfoCache st) !! k = Some e) as Hkept
      by now apply sweepInfo_keeps.
    congruence.
Qed.

End LeavingFacts.

(** C4, amended: a put never evicts.  After puts of identifiers that differ
    pairwise and are not in the cache, either cache holds that many entries
    more.  The periodic sweep keeps, in either cache, exactly the entries
    whose time-to-live has not passed.  And whatever the server does next
    (a call, a settlement, a lookup, a sweep, a clear), an entry of either
    cache that is there before and gone after has left by a clear, or by a
    lookup for its identifier or a sweep at a time when its time-to-live
    had passed; a clear empties the cache. *)
Theorem cache_grows_with_every_new_identifier :
  (forall now ids,
      NoDup ids ->
      (forall u (c : gmap string Cache.streamEntry),
          (forall id, id ∈ ids -> c !! id = None) ->
          size (Cache.putAll now ids u c) = (size c + length ids)%nat)
      /\ (forall i (c : gmap string Cache.infoEntry),
             (forall id, id ∈ ids -> c !! id = None) ->
             size (Cache.putAllInfo now ids i c) = (size c + length ids)%nat))
  /\ (forall later (c : gmap string Cache.streamEntry) k e,
         Cache.sweepStreams later c !! k = Some e <->
         c !! k = Some e /\ later - Cache.timestamp e <= Cache.STREAM_CACHE_TTL_MS)
  /\ (forall later (c : gmap string Cache.infoEntry) k e,
         Cache.sweepInfo later c !! k = Some e <->
         c !! k = Some e /\ later - Cache.infoTimestamp e <= Cache.INFO_CACHE_TTL_MS)
  /\ (forall stackOf ev st k e,
         Server.streamUrlCache st !! k = Some e ->
         Server.streamUrlCache (snd (Server.exec stackOf ev st)) !! k = None ->
         ev = Server.CacheClear
         \/ exists now,
             (ev = Server.CallFetchStreamUrl now k
              \/ ev = Server.CallGetCachedStreamUrl now k
              \/ ev = Server.CacheSweep now)
             /\ Cache.STREAM_CACHE_TTL_MS < now - Cache.timestamp e)
  /\ (forall ev st k e,
         Server.videoInfoCache st !! k = Some e ->
         Server.videoInfoCache (Server.execInfo ev st) !! k = None ->
         ev = Server.InfoCacheClear
         \/ exists now,
             (ev = Server.CallFetchVideoInfo now k \/ ev = Server.InfoCacheSweep now)
             /\ Cache.INFO_CACHE_TTL_MS < now - Cache.infoTimestamp e)
  /\ (forall stackOf st,
         Server.streamUrlCache (snd (Server.exec stackOf Server.CacheClear st)) = ∅)
  /\ (forall st, Server.videoInfoCache (Server.execInfo Server.InfoCacheClear st) = ∅).
Proof.
  split; [|split; [|split; [|split; [|split; [|split]]]]].
  - intros now ids Hnd. split.
    + intros u c Hfresh. now apply putAll_size.
    + intros i c Hfresh. now apply putAllInfo_size.
  - exact sweepStreams_keeps.
  - exact sweepInfo_keeps.
  - exact stream_entry_leaves.
  - exact info_entry_leaves.
  - reflexivity.
  - reflexivity.
Qed.

(** The theorem at work: two puts into the empty cache, and an entry put at
    time 1000 that a sweep at time 10801001, past its three hours, has
    removed. *)
Lemma cache_grows_with_every_new_identifier_witness :
  size (Cache.putAll 0 ["aaaaaaaaaaa"; "bbbbbbbbbbb"]%string "https://cdn/a" ∅)
  = (size (∅ : gmap string Cache.streamEntry) + 2)%nat
  /\ (Server.CacheSweep 10801001 = Server.CacheClear
      \/ exists now,
          (Server.CacheSweep 10801001 = Server.CallFetchStreamUrl now "dQw4w9WgXcQ"
           \/ Server.CacheSweep 10801001 = Server.CallGetCachedStreamUrl now "dQw4w9WgXcQ"
           \/ Server.CacheSweep 10801001 = Server.CacheSweep now)
          /\ Cache.STREAM_CACHE_TTL_MS < now - 1000).
Proof.
  split.
  - refine (proj1 (proj1 cache_grows_with_every_new_identifier 0
                     ["aaaaaaaaaaa"; "bbbbbbbbbbb"]%string _)
              "https://cdn/a"%string ∅ _).
    + apply NoDup_cons. split; [|apply NoDup_singleton].
      intros Hin. apply list_elem_of_singleton in Hin. discriminate.
    + intros. apply lookup_empty.
  - refine (proj1 (proj2 (proj2 (proj2 cache_grows_with_every_new_identifier)))
              (fun msg => msg) (Server.CacheSweep 10801001)
              (Server.withCache
                 (Cache.setCachedStreamUrl 1000 "dQw4w9WgXcQ" "https://cdn/a" ∅)
                 Server.initial)
              "dQw4w9WgXcQ"%string
              {| Cache.url := "https://cdn/a"; Cache.timestamp := 1000 |} _ _).
    + apply lookup_insert_eq.
    + vm_compute. reflexivity.
Defined.

(** ** The identifier normalizer *)

Section NormalizerFacts.
Import Chars Server.

Ltac by_char_cases :=
  let c := fresh "c" in
  intros c; destruct c as [[] [] [] [] [] [] [] []];
  vm_compute; solve [reflexivity | discriminate | intros; discriminate].

Lemma idchar_not_whitespace : rejectsIdChars isWhiteSpace.
Proof. by_char_cases. Qed.

Lemma idchar_not_c0_or_space : rejectsIdChars (fun c => (code c <=? 32)%nat).
Proof. by_char_cases. Qed.

Lemma idchar_not_tab_or_newline : rejectsIdChars Url.isTabOrNewline.
Proof. by_char_cases. Qed.

Lemma idchar_not_query_or_fragment : rejectsIdChars (oneOf "?#").
Proof. by_char_cases. Qed.

Lemma idchar_not_fragment : rejectsIdChars (fun x => Ascii.eqb x "#").
Proof. by_char_cases. Qed.

Lemma idchar_not_ampersand : rejectsIdChars (fun c => Ascii.eqb c "&").
Proof. by_char_cases. Qed.

Lemma idchar_not_percent : rejectsIdChars (fun c => Ascii.eqb c "%").
Proof. by_char_cases. Qed.

Lemma idchar_not_any_slash : rejectsIdChars Url.isAnySlash.
Proof. by_char_cases. Qed.

Lemma idchar_not_slash : rejectsIdChars Url.isSlash.
Proof. by_char_cases. Qed.

Lemma idchar_plusToSpace c : isIdChar c = true -> Url.plusToSpace c = c.
Proof.
  revert c. intros c; destruct c as [[] [] [] [] [] [] [] []];
  vm_compute; solve [reflexivity | discriminate | intros; discriminate].
Qed.

Lemma noneOf_id p l :
  rejectsIdChars p -> forallb isIdChar l = true -> noneOf p l = true.
Proof.
  intros Hp. unfold noneOf. induction l as [|c l IH]; simpl; [reflexivity|].
  intros [Hc Hl]%andb_true_iff. now rewrite (Hp c Hc), IH.
Qed.

Lemma noneOf_app p l1 l2 : noneOf p (l1 ++ l2) = noneOf p l1 && noneOf p l2.
Proof. apply forallb_app. Qed.

Lemma noneOf_rev p l : noneOf p (rev l) = noneOf p l.
Proof.
  unfold noneOf. induction l as [|c l IH]; simpl; [reflexivity|].
  rewrite forallb_app, IH. simpl. rewrite andb_true_r. apply andb_comm.
Qed.

Lemma dropWhile_noneOf p l : noneOf p l = true -> dropWhile p l = l.
Proof.
  destruct l as [|c l]; simpl; [reflexivity|].
  intros [Hc _]%andb_true_iff. apply negb_true_iff in Hc. now rewrite Hc.
Qed.

Lemma strip_noneOf p l : noneOf p l = true -> strip p l = l.
Proof.
  intros H. unfold strip. rewrite (dropWhile_noneOf p l H).
  rewrite dropWhile_noneOf by now rewrite noneOf_rev.
  apply rev_involutive.
Qed.

Lemma filter_noneOf p l : noneOf p l = true -> List.filter (fun c => negb (p c)) l = l.
Proof.
  induction l as [|c l IH]; simpl; [reflexivity|].
  intros [Hc Hl]%andb_true_iff. rewrite Hc. f_equal. now apply IH.
Qed.

Lemma break_noneOf p l : noneOf p l = true -> break p l = (l, []).
Proof.
  induction l as [|c l IH]; simpl; [reflexivity|].
  intros [Hc Hl]%andb_true_iff. apply negb_true_iff in Hc.
  now rewrite Hc, IH.
Qed.

Lemma split_noneOf p l : noneOf p l = true -> split p l = [l].
Proof.
  induction l as [|c l IH]; simpl; [reflexivity|].
  intros [Hc Hl]%andb_true_iff. apply negb_true_iff in Hc.
  now rewrite Hc, IH.
Qed.

(** A piece without separator, then a separator: the piece is split off. *)
Lemma split_piece p l c r :
  noneOf p l = true -> p c = true -> split p (l ++ c :: r) = l :: split p r.
Proof.
  intros Hl Hc. induction l as [|x l IH]; simpl.
  - now rewrite Hc.
  - simpl in Hl. apply andb_true_iff in Hl as [Hx Hl].
    apply negb_true_iff in Hx. now rewrite Hx, IH.
Qed.

Lemma map_plusToSpace_id l :
  forallb isIdChar l = true -> map Url.plusToSpace l = l.
Proof.
  induction l as [|c l IH]; simpl; [reflexivity|].
  intros [Hc Hl]%andb_true_iff. now rewrite idchar_plusToSpace, IH.
Qed.

Lemma percentDecode_cons c l :
  Ascii.eqb c "%" = false -> percentDecode (c :: l) = c :: percentDecode l.
Proof.
  intros Hc. destruct l as [|h1 [|h2 r]]; try reflexivity.
  simpl. now rewrite Hc.
Qed.

Lemma percentDecode_noneOf l :
  noneOf (fun c => Ascii.eqb c "%") l = true -> percentDecode l = l.
Proof.
  induction l as [|c l IH]; [reflexivity|].
  intros Hl. simpl in Hl. apply andb_true_iff in Hl as [Hc Hl].
  apply negb_true_iff in Hc.
  now rewrite percentDecode_cons, IH.
Qed.

Lemma decodeComponent_id l :
  forallb isIdChar l = true -> Url.decodeComponent l = l.
Proof.
  intros H. unfold Url.decodeComponent. rewrite map_plusToSpace_id by exact H.
  apply percentDecode_noneOf. now apply noneOf_id; [apply idchar_not_percent|].
Qed.

Lemma chars_app (a b : string) :
  list_ascii_of_string (a +:+ b) = list_ascii_of_string a ++ list_ascii_of_string b.
Proof. induction a as [|c a IH]; simpl; [reflexivity | now rewrite IH]. Qed.

Lemma string_eqb_length (s t : string) :
  String.length s <> String.length t -> String.eqb s t = false.
Proof. intros H. apply String.eqb_neq. intros ->. now apply H. Qed.

Lemma string_of_chars_length l : String.length (string_of_list_ascii l) = length l.
Proof. induction l; simpl; congruence. Qed.

Lemma lower_length l : String.length (lower l) = length l.
Proof. unfold lower. now rewrite string_of_chars_length, length_map. Qed.

(** What [isVideoId] says of a list. *)
Lemma isVideoId_inv l :
  isVideoId l = true -> length l = 11%nat /\ forallb isIdChar l = true.
Proof.
  unfold isVideoId. intros [Hlen Hall]%andb_true_iff.
  split; [now apply Nat.eqb_eq | exact Hall].
Qed.

Lemma videoId_not_dots l :
  length l = 11%nat -> Url.isSingleDot l = false /\ Url.isDoubleDot l = false.
Proof.
  intros Hlen. unfold Url.isSingleDot, Url.isDoubleDot. simpl.
  rewrite !string_eqb_length by (rewrite lower_length, Hlen; simpl; lia).
  split; reflexivity.
Qed.

Lemma validCandidate_id l :
  isVideoId l = true -> validCandidate (Some l) = Some (string_of_list_ascii l).
Proof.
  intros H. destruct (isVideoId_inv l H) as [Hlen _].
  destruct l as [|c l]; [discriminate|]. simpl. now rewrite H.
Qed.

(** The normalizer on a list that is already an identifier. *)
Lemma normalize_identifier (s : string) :
  isVideoId (list_ascii_of_string s) = true -> normalizeVideoId s = Some s.
Proof.
  intros H. destruct (isVideoId_inv _ H) as [Hlen Hall].
  unfold normalizeVideoId.
  assert (Js.truthy s = true) as ->.
  { destruct s; [discriminate | reflexivity]. }
  simpl. unfold trim. rewrite strip_noneOf
    by (apply noneOf_id; [apply idchar_not_whitespace | exact Hall]).
  rewrite H. now rewrite string_of_list_ascii_of_string.
Qed.

(** The URL parser on [https://y/watch?v=<id>]. *)
Lemma parse_watch_url l :
  forallb isIdChar l = true ->
  Url.parse (list_ascii_of_string "https://y/watch?v=" ++ l)
  = Some {| Url.pathname := list_ascii_of_string "/watch";
            Url.search := list_ascii_of_string "v=" ++ l |}.
Proof.
  intros Hall. unfold Url.parse.
  rewrite strip_noneOf
    by (rewrite noneOf_app, (noneOf_id _ l idchar_not_c0_or_space Hall); reflexivity).
  rewrite (filter_noneOf Url.isTabOrNewline)
    by (rewrite noneOf_app, (noneOf_id _ l idchar_not_tab_or_newline Hall); reflexivity).
  change (Url.parseScheme (list_ascii_of_string "https://y/watch?v=" ++ l))
    with (Some (list_ascii_of_string "https",
                list_ascii_of_string "//y/watch?v=" ++ l)).
  cbv iota beta.
  change (Url.isSpecial (list_ascii_of_string "https")) with true. cbv iota.
  change (break (oneOf "/\?#") (dropWhile Url.isAnySlash (list_ascii_of_string "//y/watch?v=" ++ l)))
    with (list_ascii_of_string "y", list_ascii_of_string "/watch?v=" ++ l).
  cbv iota beta.
  change (Url.validAuthority true (list_ascii_of_string "y")) with true. cbv iota.
  unfold Url.pathAndQuery.
  change (break (oneOf "?#") (list_ascii_of_string "/watch?v=" ++ l))
    with (list_ascii_of_string "/watch", "?"%char :: list_ascii_of_string "v=" ++ l).
  cbv iota beta.
  change (Ascii.eqb "?" "?") with true. cbv iota.
  rewrite break_noneOf
    by (rewrite noneOf_app, (noneOf_id _ l idchar_not_fragment Hall); reflexivity).
  reflexivity.
Qed.

Lemma searchParamsGet_v l path :
  forallb isIdChar l = true ->
  Url.searchParamsGet "v"
    {| Url.pathname := path; Url.search := list_ascii_of_string "v=" ++ l |}
  = Some l.
Proof.
  intros Hall. unfold Url.searchParamsGet, Url.searchParams. cbn [Url.search].
  rewrite split_noneOf
    by (rewrite noneOf_app, (noneOf_id _ l idchar_not_ampersand Hall); reflexivity).
  simpl. now rewrite decodeComponent_id.
Qed.

(** The URL parser on [https://y/embed/<id>]. *)
Lemma parse_embed_url l :
  length l = 11%nat ->
  forallb isIdChar l = true ->
  Url.parse (list_ascii_of_string "https://y/embed/" ++ l)
  = Some {| Url.pathname := list_ascii_of_string "/embed/" ++ l; Url.search := [] |}.
Proof.
  intros Hlen Hall. unfold Url.parse.
  rewrite strip_noneOf
    by (rewrite noneOf_app, (noneOf_id _ l idchar_not_c0_or_space Hall); reflexivity).
  rewrite (filter_noneOf Url.isTabOrNewline)
    by (rewrite noneOf_app, (noneOf_id _ l idchar_not_tab_or_newline Hall); reflexivity).
  change (Url.parseScheme (list_ascii_of_string "https://y/embed/" ++ l))
    with (Some (list_ascii_of_string "https",
                list_ascii_of_string "//y/embed/" ++ l)).
  cbv iota beta.
  change (Url.isSpecial (list_ascii_of_string "https")) with true. cbv iota.
  change (break (oneOf "/\?#") (dropWhile Url.isAnySlash (list_ascii_of_string "//y/embed/" ++ l)))
    with (list_ascii_of_string "y", list_ascii_of_string "/embed/" ++ l).
  cbv iota beta.
  change (Url.validAuthority true (list_ascii_of_string "y")) with true. cbv iota.
  unfold Url.pathAndQuery.
  rewrite break_noneOf
    by (rewrite noneOf_app, (noneOf_id _ l idchar_not_query_or_fragment Hall); reflexivity).
  f_equal. f_equal. unfold Url.parsePath.
  change (match list_ascii_of_string "/embed/" ++ l with
          | [] => []
          | c :: r => if Url.isAnySlash c then r else list_ascii_of_string "/embed/" ++ l
          end) with (list_ascii_of_string "embed" ++ "/"%char :: l).
  rewrite split_piece by reflexivity.
  rewrite split_noneOf by (apply noneOf_id; [apply idchar_not_any_slash | exact Hall]).
  destruct (videoId_not_dots l Hlen) as [Hsingle Hdouble].
  simpl. rewrite Hsingle, Hdouble. simpl. now rewrite app_nil_r.
Qed.

Lemma pathParts_embed l :
  length l = 11%nat ->
  forallb isIdChar l = true ->
  Url.pathParts {| Url.pathname := list_ascii_of_string "/embed/" ++ l; Url.search := [] |}
  = [list_ascii_of_string "embed"; l].
Proof.
  intros Hlen Hall. unfold Url.pathParts. cbn [Url.pathname].
  change (list_ascii_of_string "/embed/" ++ l)
    with ([] ++ "/"%char :: list_ascii_of_string "embed" ++ "/"%char :: l).
  rewrite split_piece by reflexivity.
  rewrite split_piece by reflexivity.
  rewrite split_noneOf by (apply noneOf_id; [apply idchar_not_slash | exact Hall]).
  simpl. now rewrite Hlen.
Qed.

Lemma trim_prefixed (prefix : string) l :
  noneOf isWhiteSpace (list_ascii_of_string prefix) = true ->
  forallb isIdChar l = true ->
  trim (list_ascii_of_string prefix ++ l) = list_ascii_of_string prefix ++ l.
Proof.
  intros Hp Hall. apply strip_noneOf.
  now rewrite noneOf_app, Hp, (noneOf_id _ l idchar_not_whitespace Hall).
Qed.

Lemma prefixed_not_identifier (prefix : string) l :
  length l = 11%nat ->
  prefix <> EmptyString ->
  isVideoId (list_ascii_of_string prefix ++ l) = false.
Proof.
  intros Hlen Hne. unfold isVideoId. rewrite length_app, Hlen.
  destruct prefix as [|c p]; [contradiction|]. simpl.
  replace (length (list_ascii_of_string p) + 11 =? 10)%nat with false; [reflexivity|].
  symmetry. apply Nat.eqb_neq. lia.
Qed.

Lemma normalize_watch_url (id : string) :
  isVideoId (list_ascii_of_string id) = true ->
  normalizeVideoId ("https://y/watch?v=" +:+ id) = Some id.
Proof.
  intros H. destruct (isVideoId_inv _ H) as [Hlen Hall].
  unfold normalizeVideoId. change (Js.truthy _) with true. cbv iota. simpl negb. cbv iota.
  rewrite chars_app, trim_prefixed by (reflexivity || exact Hall).
  rewrite prefixed_not_identifier by (exact Hlen || discriminate).
  rewrite parse_watch_url by exact Hall.
  rewrite searchParamsGet_v by exact Hall.
  rewrite validCandidate_id by exact H.
  now rewrite string_of_list_ascii_of_string.
Qed.

Lemma normalize_embed_url (id : string) :
  isVideoId (list_ascii_of_string id) = true ->
  normalizeVideoId ("https://y/embed/" +:+ id) = Some id.
Proof.
  intros H. destruct (isVideoId_inv _ H) as [Hlen Hall].
  unfold normalizeVideoId. change (Js.truthy _) with true. cbv iota. simpl negb. cbv iota.
  rewrite chars_app, trim_prefixed by (reflexivity || exact Hall).
  rewrite prefixed_not_identifier by (exact Hlen || discriminate).
  rewrite parse_embed_url by assumption.
  change (Url.searchParamsGet "v" _) with (@None (list ascii)).
  change (validCandidate None) with (@None string). cbv iota.
  rewrite pathParts_embed by assumption.
  change (String.eqb (string_of_list_ascii (list_ascii_of_string "embed")) "watch") with false.
  cbv iota. simpl List.last.
  rewrite validCandidate_id by exact H.
  now rewrite string_of_list_ascii_of_string.
Qed.

End NormalizerFacts.

(** C7: [normalizeVideoId] is a function of its argument alone.  It returns
    every input that matches the eleven-character pattern unchanged; for a
    valid identifier [id] it returns [id] on [https://y/watch?v=<id>], on
    [https://y/embed/<id>] and on the bare [id]; and it returns nothing on
    the empty string, on [http://] and on [12345]. *)
Theorem normalizeVideoId_identity_urls_and_garbage :
  (forall input : string,
      Server.isVideoId (list_ascii_of_string input) = true ->
      Server.normalizeVideoId input = Some input)
  /\ (forall id : string,
      Server.isVideoId (list_ascii_of_string id) = true ->
      Server.normalizeVideoId ("https://y/watch?v=" +:+ id) = Some id
      /\ Server.normalizeVideoId ("https://y/embed/" +:+ id) = Some id
      /\ Server.normalizeVideoId id = Some id)
  /\ Server.normalizeVideoId "" = None
  /\ Server.normalizeVideoId "http://" = None
  /\ Server.normalizeVideoId "12345" = None.
Proof.
  split; [|split; [|split; [|split]]].
  - exact normalize_identifier.
  - intros id H. split; [|split].
    + now apply normalize_watch_url.
    + now apply normalize_embed_url.
    + now apply normalize_identifier.
  - reflexivity.
  - vm_compute. reflexivity.
  - vm_compute. reflexivity.
Qed.

Lemma normalizeVideoId_identity_urls_and_garbage_witness :
  Server.normalizeVideoId "dQw4w9WgXcQ" = Some "dQw4w9WgXcQ"%string
  /\ Server.normalizeVideoId "https://y/watch?v=dQw4w9WgXcQ" = Some "dQw4w9WgXcQ"%string
  /\ Server.normalizeVideoId "https://y/embed/dQw4w9WgXcQ" = Some "dQw4w9WgXcQ"%string.
Proof.
  destruct normalizeVideoId_identity_urls_and_garbage as (Hid & Hurl & _).
  split.
  - apply Hid. vm_compute. reflexivity.
  - destruct (Hurl "dQw4w9WgXcQ"%string) as (Hw & He & _).
    + vm_compute. reflexivity.
    + split; [exact Hw | exact He].
Defined.

(** ** Format selection *)

Section SelectionFacts.
Import Server.

Local Abbreviation bitrate f := (Js.numOrZero (audioBitrate f)).

Lemma higherBitrate_cases best f :
  (higherBitrate best f = f /\ bitrate best < bitrate f)
  \/ (higherBitrate best f = best /\ bitrate f <= bitrate best).
Proof.
  unfold higherBitrate.
  destruct (Z.ltb_spec (Js.numOrZero (audioBitrate best)) (Js.numOrZero (audioBitrate f)));
    [left | right]; split; (reflexivity || lia).
Qed.

(** The reduction never loses bit rate. *)
Lemma bestAudio_at_least_first l first : bitrate first <= bitrate (bestAudio first l).
Proof.
  unfold bestAudio. revert first. induction l as [|f l IH]; intros first; simpl; [lia|].
  specialize (IH (higherBitrate first f)).
  destruct (higherBitrate_cases first f) as [[Heq Hlt] | [Heq Hle]];
    rewrite Heq in IH |- *; lia.
Qed.

Lemma bestAudio_maximal l first f :
  In f l -> bitrate f <= bitrate (bestAudio first l).
Proof.
  unfold bestAudio. revert first. induction l as [|g l IH]; intros first Hin; [contradiction|].
  simpl. destruct Hin as [-> | Hin].
  - pose proof (bestAudio_at_least_first l (higherBitrate first f)) as Hge.
    unfold bestAudio in Hge.
    destruct (higherBitrate_cases first f) as [[Heq Hlt] | [Heq Hle]];
      rewrite Heq in Hge |- *; lia.
  - now apply IH.
Qed.

Lemma bestAudio_is_candidate l first :
  bestAudio first l = first \/ In (bestAudio first l) l.
Proof.
  unfold bestAudio. revert first. induction l as [|g l IH]; intros first; simpl; [now left|].
  destruct (IH (higherBitrate first g)) as [Heq | Hin]; [|now right; right].
  rewrite Heq. destruct (higherBitrate_cases first g) as [[-> _] | [-> _]];
    [right; now left | now left].
Qed.

(** A candidate is replaced only by one of strictly higher bit rate: among
    the candidates of the highest bit rate the first one is returned. *)
Lemma bestAudio_keeps_first l first :
  (forall f, In f l -> bitrate f <= bitrate first) -> bestAudio first l = first.
Proof.
  unfold bestAudio. induction l as [|g l IH]; intros Hle; simpl; [reflexivity|].
  destruct (higherBitrate_cases first g) as [[_ Hlt] | [-> _]].
  - specialize (Hle g (or_introl eq_refl)). lia.
  - apply IH. intros f Hf. apply Hle. now right.
Qed.

Lemma bestAudio_first_of_highest l first :
  (bestAudio first l = first /\ forall f, In f l -> bitrate f <= bitrate first)
  \/ (exists earlier later,
         l = earlier ++ bestAudio first l :: later
         /\ bitrate first < bitrate (bestAudio first l)
         /\ forall f, In f earlier -> bitrate f < bitrate (bestAudio first l)).
Proof.
  unfold bestAudio. revert first. induction l as [|g l IH]; intros first; simpl.
  - left. split; [reflexivity | intros f []].
  - destruct (higherBitrate_cases first g) as [[Heq Hlt] | [Heq Hle]]; rewrite Heq.
    + right. destruct (IH g) as [[Hbest Hall] | (earlier & later & Hsplit & Hgt & Hbefore)].
      * exists [], l. rewrite Hbest. split; [reflexivity|]. split; [exact Hlt|].
        intros f [].
      * exists (g :: earlier), later. split; [simpl; now rewrite <- Hsplit|].
        split; [lia|]. intros f [<- | Hf]; [exact Hgt | now apply Hbefore].
    + destruct (IH first) as [[Hbest Hall] | (earlier & later & Hsplit & Hgt & Hbefore)].
      * left. split; [exact Hbest|]. intros f [<- | Hf]; [exact Hle | now apply Hall].
      * right. exists (g :: earlier), later. split; [simpl; now rewrite <- Hsplit|].
        split; [exact Hgt|]. intros f [<- | Hf]; [lia | now apply Hbefore].
Qed.

Lemma filterFormats_audio_only formats f :
  In f (filterFormats formats) ->
  In f formats /\ hasVideo f = false /\ hasAudio f = true
  /\ exists u, url f = Some u /\ Js.truthy u = true.
Proof.
  unfold filterFormats. rewrite filter_In.
  intros [Hin Hkeep]. apply andb_true_iff in Hkeep as [Hkeep Haudio].
  apply andb_true_iff in Hkeep as [Hurl Hvideo].
  apply negb_true_iff in Hvideo. repeat split; try assumption.
  unfold Js.whenTruthy in Hurl. destruct (url f) as [u|]; [|discriminate].
  exists u. split; [reflexivity|]. now destruct (Js.truthy u).
Qed.

End SelectionFacts.

Section DoubleFacts.
Import Double.

Lemma nearestEven_between p q lo hi :
  0 < q -> lo * q <= p <= hi * q -> lo <= nearestEven p q <= hi.
Proof.
  intros Hq [Hlo Hhi]. unfold nearestEven.
  pose proof (Z.div_mod p q ltac:(lia)) as Hdiv.
  pose proof (Z.mod_pos_bound p q Hq) as Hmod.
  assert (lo <= p / q) as Hfloor by (apply Z.div_le_lower_bound; lia).
  assert (p / q <= hi) as Hceil by (apply Z.div_le_upper_bound; lia).
  assert (0 < p mod q -> p / q + 1 <= hi) as Hup by nia.
  destruct (Z.compare_spec (2 * (p mod q)) q) as [Heq | Hlt | Hgt].
  - destruct (Z.even (p / q)); lia.
  - lia.
  - lia.
Qed.

(** Below 2^53 the unit in the last place is 1 at most. *)
Lemma ilog2_below n d : 0 < n -> 0 < d -> n < d * 2 ^ 53 -> ilog2 n d <= 52.
Proof.
  intros Hn Hd Hlt. unfold ilog2.
  destruct (Z.log2_spec n Hn) as [Hn1 Hn2]. destruct (Z.log2_spec d Hd) as [Hd1 Hd2].
  pose proof (Z.log2_nonneg n) as Hln. pose proof (Z.log2_nonneg d) as Hld.
  set (k := Z.log2 n - Z.log2 d) in *.
  destruct (Z.le_gt_cases k 52) as [Hle | Hgt].
  - destruct (0 <=? k); [destruct (_ <=? _) | destruct (_ <=? _)]; lia.
  - destruct (Z.eq_dec k 53) as [-> | Hne].
    + change (0 <=? 53) with true. cbv iota.
      destruct (Z.leb_spec (d * 2 ^ 53) n); lia.
    + exfalso.
      assert (Z.log2 n = Z.log2 d + 1 + (k - 1)) as Heq by lia.
      assert (2 ^ Z.log2 n = 2 ^ (Z.log2 d + 1) * 2 ^ (k - 1)) as Hpow.
      { rewrite Heq at 1. apply Z.pow_add_r; lia. }
      assert (2 ^ 53 <= 2 ^ (k - 1)) as Hbig by (apply Z.pow_le_mono_r; lia).
      replace (Z.succ (Z.log2 d)) with (Z.log2 d + 1) in Hd2 by lia.
      assert (0 < 2 ^ (k - 1)) by (apply Z.pow_pos_nonneg; lia).
      nia.
Qed.

(** Rounding does not cross an integer below 2^53. *)
Lemma round_between (lo hi : Z) (x : Q) :
  - 2 ^ 53 < lo -> hi < 2 ^ 53 ->
  (inject_Z lo <= x)%Q -> (x <= inject_Z hi)%Q ->
  (inject_Z lo <= round x)%Q /\ (round x <= inject_Z hi)%Q.
Proof.
  intros Hlo Hhi Hle Hge. destruct x as [n d].
  unfold Qle in Hle, Hge. simpl in Hle, Hge.
  unfold round. cbn [Qnum Qden].
  destruct (Z.eqb_spec n 0) as [-> | Hn].
  - unfold Qle. simpl. lia.
  - assert (ulpExponent n (Z.pos d) <= 0) as He.
    { unfold ulpExponent.
      assert (ilog2 (Z.abs n) (Z.pos d) <= 52); [|lia].
      assert (n < Z.pos d * 2 ^ 53) by nia.
      assert (- (Z.pos d * 2 ^ 53) < n) by nia.
      apply ilog2_below; lia. }
    destruct (Z.leb_spec 0 (ulpExponent n (Z.pos d))) as [Hnonneg | Hneg].
    + replace (ulpExponent n (Z.pos d)) with 0 by lia.
      rewrite Z.pow_0_r, !Z.mul_1_r.
      destruct (nearestEven_between n (Z.pos d) lo hi) as [H1 H2]; [lia | lia |].
      unfold Qle. simpl. lia.
    + set (s := 2 ^ (- ulpExponent n (Z.pos d))).
      assert (0 < s) as Hs by (apply Z.pow_pos_nonneg; lia).
      destruct (nearestEven_between (n * s) (Z.pos d) (lo * s) (hi * s)) as [H1 H2];
        [lia | nia |].
      unfold Qle. simpl. rewrite Z2Pos.id by exact Hs. lia.
Qed.

(** The rounding at work: a decimal fraction, a tie above 2^53 going to the
    even neighbour, and the last places there are. *)
Example round_to_nearest_even :
  (round (1 # 10) == 3602879701896397 # 36028797018963968)%Q
  /\ (round (inject_Z (2 ^ 53 + 1)) == inject_Z (2 ^ 53))%Q
  /\ (round (inject_Z (2 ^ 53 + 3)) == inject_Z (2 ^ 53 + 4))%Q
  /\ (round (1 # 2 ^ 1075) == 0)%Q
  /\ (round (3 # 2 ^ 1075) == 1 # 2 ^ 1073)%Q.
Proof. repeat split; vm_compute; reflexivity. Qed.

(** A sum of numbers between integers is between the sums of the
    integers. *)
Lemma add_between (lo1 hi1 lo2 hi2 : Z) (x y : Q) :
  - 2 ^ 53 < lo1 + lo2 -> hi1 + hi2 < 2 ^ 53 ->
  (inject_Z lo1 <= x)%Q -> (x <= inject_Z hi1)%Q ->
  (inject_Z lo2 <= y)%Q -> (y <= inject_Z hi2)%Q ->
  (inject_Z (lo1 + lo2) <= add x y)%Q /\ (add x y <= inject_Z (hi1 + hi2))%Q.
Proof.
  intros Hlo Hhi Hx1 Hx2 Hy1 Hy2. unfold add. apply round_between; try assumption.
  - rewrite inject_Z_plus. now apply Qplus_le_compat.
  - rewrite inject_Z_plus. now apply Qplus_le_compat.
Qed.

End DoubleFacts.

Section HistorySelectionFacts.
Import History.

(** [format.abr] as a summand of the score. *)
Local Abbreviation rate f := (match abr f with Some r => r | None => 0%Q end).

Lemma Qltb_false_iff a b : Qltb a b = false <-> (b <= a)%Q.
Proof. unfold Qltb. rewrite negb_false_iff. apply Qle_bool_iff. Qed.

Lemma Qltb_true_iff a b : Qltb a b = true <-> (a < b)%Q.
Proof.
  unfold Qltb. rewrite negb_true_iff. split.
  - intros H. apply Qnot_le_lt. intros Hle. apply Qle_bool_iff in Hle. congruence.
  - intros H. destruct (Qle_bool b a) eqn:E; [|reflexivity].
    apply Qle_bool_iff in E. exfalso. now apply (Qlt_not_le a b).
Qed.

Lemma insertByScore_head x sorted :
  List.head (insertByScore x sorted)
  = match sorted with
    | [] => Some x
    | y :: _ => if Qltb (score y) (score x) then Some x else Some y
    end.
Proof. destruct sorted as [|y rest]; simpl; [reflexivity|]. now destruct (Qltb _ _). Qed.

Lemma sortByScore_snoc l x : sortByScore (l ++ [x]) = insertByScore x (sortByScore l).
Proof. unfold sortByScore. now rewrite fold_left_app. Qed.

(** The head of the sorted list is the first element of the highest
    score. *)
Lemma sortByScore_first_of_highest l :
  match List.head (sortByScore l) with
  | None => l = []
  | Some best =>
      exists earlier later,
        l = earlier ++ best :: later
        /\ (forall g, In g earlier -> (score g < score best)%Q)
        /\ (forall g, In g later -> (score g <= score best)%Q)
  end.
Proof.
  induction l as [|x l IH] using rev_ind; [reflexivity|].
  rewrite sortByScore_snoc, insertByScore_head.
  destruct (sortByScore l) as [|y sorted] eqn:Hsorted; simpl in IH.
  - subst l. exists [], []. split; [reflexivity|]. split; intros g [].
  - destruct IH as (earlier & later & Hsplit & Hbefore & Hafter).
    destruct (Qltb (score y) (score x)) eqn:Hcmp.
    + apply Qltb_true_iff in Hcmp. exists l, []. split; [reflexivity|].
      split; [|intros g []]. intros g Hg. rewrite Hsplit in Hg.
      apply in_app_iff in Hg as [Hg | [<- | Hg]].
      * apply Qlt_trans with (score y); [now apply Hbefore | exact Hcmp].
      * exact Hcmp.
      * apply Qle_lt_trans with (score y); [now apply Hafter | exact Hcmp].
    + apply Qltb_false_iff in Hcmp. exists earlier, (later ++ [x]).
      split; [rewrite Hsplit, <- app_assoc; reflexivity|].
      split; [exact Hbefore|]. intros g Hg.
      apply in_app_iff in Hg as [Hg | [<- | []]]; [now apply Hafter | exact Hcmp].
Qed.

(** The selection returns a format whenever a candidate is left, and then
    the first candidate of the highest score. *)
Lemma selectFastestAudioFormat_first_of_highest formats :
  match List.filter isAudioCandidate formats with
  | [] => selectFastestAudioFormat formats = None
  | first :: rest =>
      exists earlier best later,
        first :: rest = earlier ++ best :: later
        /\ selectFastestAudioFormat formats = Some best
        /\ (forall g, In g earlier -> (score g < score best)%Q)
        /\ (forall g, In g later -> (score g <= score best)%Q)
  end.
Proof.
  unfold selectFastestAudioFormat.
  destruct (List.filter isAudioCandidate formats) as [|first rest]; [reflexivity|].
  pose proof (sortByScore_first_of_highest (first :: rest)) as Hhead.
  destruct (List.head (sortByScore (first :: rest))) as [best|]; [|discriminate].
  destruct Hhead as (earlier & later & Hsplit & Hbefore & Hafter).
  now exists earlier, best, later.
Qed.

Lemma priorityOf_range name : 1 <= priorityOf name <= 10.
Proof.
  unfold priorityOf, formatPriority. cbn [List.find fst snd].
  repeat (destruct (String.eqb _ name); [cbn [snd]; lia|]). lia.
Qed.

Lemma isAudioCandidate_size f :
  isAudioCandidate f = true ->
  exists size, filesize f = Some size /\ size <> 0 /\ size < 50 * 1024 * 1024.
Proof.
  unfold isAudioCandidate. intros [_ Hsize]%andb_true_iff.
  destruct (filesize f) as [size|]; [|discriminate].
  apply andb_true_iff in Hsize as [Hnz Hlt].
  apply negb_true_iff, Z.eqb_neq in Hnz. apply Z.ltb_lt in Hlt.
  exists size. repeat split; assumption.
Qed.

(** The summand of the size is between 50 and 100. *)
Lemma size_term_between size :
  0 < size < 50 * 1024 * 1024 ->
  (inject_Z 50
   <= Double.sub 100 (Double.div (inject_Z size) (inject_Z (1024 * 1024))))%Q
  /\ (Double.sub 100 (Double.div (inject_Z size) (inject_Z (1024 * 1024)))
      <= inject_Z 100)%Q.
Proof.
  intros [Hpos Hlt].
  destruct (round_between 0 50 (inject_Z size / inject_Z (1024 * 1024)))
    as [Hq1 Hq2]; try lia.
  { unfold Qle, Qdiv, Qmult, Qinv, inject_Z. simpl. lia. }
  { unfold Qle, Qdiv, Qmult, Qinv, inject_Z. simpl. lia. }
  fold (Double.div (inject_Z size) (inject_Z (1024 * 1024))) in Hq1, Hq2.
  unfold Double.sub. apply round_between; try lia.
  - change (inject_Z 50) with (100 - inject_Z 50)%Q.
    apply Qplus_le_compat; [apply Qle_refl | now apply Qopp_le_compat].
  - change (inject_Z 100) with (100 - inject_Z 0)%Q.
    apply Qplus_le_compat; [apply Qle_refl | now apply Qopp_le_compat].
Qed.

(** The score of a candidate of positive size whose bit rate is between
    two integers. *)
Lemma score_between f size lo hi :
  filesize f = Some size -> 0 < size < 50 * 1024 * 1024 ->
  - 2 ^ 52 <= lo -> hi <= 2 ^ 52 ->
  (inject_Z lo <= rate f)%Q -> (rate f <= inject_Z hi)%Q ->
  let base :=
    priorityOf (containerOf f) * 1000
    + (if isString (protocol f) "http_dash_segments" then 500 else 0) in
  (inject_Z (base + lo + 50) <= score f)%Q /\ (score f <= inject_Z (base + hi + 100))%Q.
Proof.
  intros Hsize Hrange Hlo Hhi Hrate1 Hrate2 base. subst base.
  pose proof (priorityOf_range (containerOf f)) as Hp.
  assert (lo <= hi) as Hlohi.
  { apply Qle_trans with (x := inject_Z lo) in Hrate2; [|exact Hrate1].
    unfold Qle in Hrate2. simpl in Hrate2. lia. }
  assert (2 ^ 52 = 4503599627370496) as Hpow52 by reflexivity.
  assert (2 ^ 53 = 9007199254740992) as Hpow53 by reflexivity.
  unfold score. rewrite Hsize.
  replace (size =? 0) with false by (symmetry; apply Z.eqb_neq; lia).
  set (s0 := priorityOf (containerOf f) * 1000) in *.
  set (s1 := match abr f with
             | Some r => if Qeq_bool r 0 then inject_Z s0 else Double.add (inject_Z s0) r
             | None => inject_Z s0
             end).
  assert ((inject_Z (s0 + lo) <= s1)%Q /\ (s1 <= inject_Z (s0 + hi))%Q) as [Hs1 Hs1'].
  { subst s1. destruct (abr f) as [r|].
    - destruct (Qeq_bool r 0) eqn:Hzero.
      + apply Qeq_bool_eq in Hzero. rewrite Hzero in Hrate1, Hrate2.
        unfold Qle in *. simpl in *. lia.
      + apply add_between; try lia; try assumption; apply Qle_refl.
    - unfold Qle in *. simpl in *. lia. }
  destruct (size_term_between size Hrange) as [Ht Ht'].
  set (t := Double.sub 100 (Double.div (inject_Z size) (inject_Z (1024 * 1024)))) in *.
  destruct (add_between (s0 + lo) (s0 + hi) 50 100 s1 t) as [Hs2 Hs2'];
    try lia; try assumption.
  destruct (isString (protocol f) "http_dash_segments").
  - destruct (add_between (s0 + lo + 50) (s0 + hi + 100) 500 500 (Double.add s1 t) 500)
      as [Hs3 Hs3']; try lia; try assumption; try apply Qle_refl.
    split.
    + replace (s0 + 500 + lo + 50) with (s0 + lo + 50 + 500) by lia. exact Hs3.
    + replace (s0 + 500 + hi + 100) with (s0 + hi + 100 + 500) by lia. exact Hs3'.
  - rewrite !Z.add_0_r. split; assumption.
Qed.

End HistorySelectionFacts.

(** C2, as the claim states it, fails.  On the pair of the specification's
    test case the server selects the [audio/webm] candidate at 256 kbps, in
    whichever order the two are listed: it compares bit rates and nothing
    else.  And the selection of the yt-dlp variant, which does rank
    containers, returns no candidate at all for the pair when both files
    are of 50 MiB, a known length. *)
Lemma selection_does_not_return_the_mp4_candidate :
  Server.filterFormats [Samples.mp4At128; Samples.webmAt256]
  = [Samples.mp4At128; Samples.webmAt256]
  /\ Server.bestAudio Samples.mp4At128 [Samples.mp4At128; Samples.webmAt256]
     = Samples.webmAt256
  /\ Server.bestAudio Samples.webmAt256 [Samples.webmAt256; Samples.mp4At128]
     = Samples.webmAt256
  /\ Server.container Samples.webmAt256 = "webm"%string
  /\ Server.resolveStream (fun msg => msg)
       (Server.InfoResolved [Samples.mp4At128; Samples.webmAt256])
     = Server.Resolved "https://cdn.example/audio.webm"
  /\ History.selectFastestAudioFormat
       [Samples.ytDlpMp4At128 (50 * 1024 * 1024); Samples.ytDlpWebmAt256 (50 * 1024 * 1024)]
     = None.
Proof. repeat split; vm_compute; reflexivity. Qed.

(** C2, amended.  The server keeps the audio-only formats (those with a
    URL, audio and no video); when there is none the resolution fails with
    "No audio formats found"; otherwise it resolves to the URL of the first
    candidate of the highest audio bit rate, whatever its container, its
    content length or its delivery.  The selection of the yt-dlp variant
    keeps the audio-only formats of a known size below 50 MiB; it returns
    nothing when none is left, and otherwise the first candidate of the
    highest score, the container priority times 1000 plus the bit rate plus
    100 minus the size in MiB (plus 500 for DASH segments), summed in double
    precision; on the pair of the test case it returns the [mp4] candidate
    when both sizes are known and below 50 MiB. *)
Theorem selection_is_by_bitrate_and_in_history_by_score :
  (forall stackOf formats,
      (Server.filterFormats formats = [] ->
       Server.resolveStream stackOf (Server.InfoResolved formats)
       = Server.Rejected (Server.newError stackOf "No audio formats found"))
      /\ (forall first rest,
             Server.filterFormats formats = first :: rest ->
             let best := Server.bestAudio first (first :: rest) in
             In best formats
             /\ Server.hasVideo best = false /\ Server.hasAudio best = true
             /\ (forall f, In f (Server.filterFormats formats) ->
                           Js.numOrZero (Server.audioBitrate f)
                           <= Js.numOrZero (Server.audioBitrate best))
             /\ (exists earlier later,
                    first :: rest = earlier ++ best :: later
                    /\ forall f, In f earlier ->
                                 Js.numOrZero (Server.audioBitrate f)
                                 < Js.numOrZero (Server.audioBitrate best))
             /\ exists directUrl,
                 Server.url best = Some directUrl
                 /\ Server.resolveStream stackOf (Server.InfoResolved formats)
                    = Server.Resolved directUrl))
  /\ (forall formats,
         match List.filter History.isAudioCandidate formats with
         | [] => History.selectFastestAudioFormat formats = None
         | first :: rest =>
             exists earlier best later,
               first :: rest = earlier ++ best :: later
               /\ History.selectFastestAudioFormat formats = Some best
               /\ In best formats /\ History.isAudioCandidate best = true
               /\ (forall g, In g earlier -> (History.score g < History.score best)%Q)
               /\ (forall g, In g later -> (History.score g <= History.score best)%Q)
         end)
  /\ (forall size1 size2,
         0 < size1 < 50 * 1024 * 1024 ->
         0 < size2 < 50 * 1024 * 1024 ->
         History.selectFastestAudioFormat
           [Samples.ytDlpMp4At128 size1; Samples.ytDlpWebmAt256 size2]
         = Some (Samples.ytDlpMp4At128 size1)
         /\ History.selectFastestAudioFormat
              [Samples.ytDlpWebmAt256 size2; Samples.ytDlpMp4At128 size1]
            = Some (Samples.ytDlpMp4At128 size1)).
Proof.
  split; [|split].
  - intros stackOf formats. split.
    + intros Hnone. unfold Server.resolveStream. now rewrite Hnone.
    + intros first rest Hsome best.
      assert (In best (Server.filterFormats formats)) as Hbest.
      { rewrite Hsome. subst best.
        destruct (bestAudio_is_candidate (first :: rest) first) as [-> | Hin];
          [now left | exact Hin]. }
      destruct (filterFormats_audio_only formats best Hbest)
        as (Hin & Hvideo & Haudio & directUrl & Hurl & Htruthy).
      split; [exact Hin|]. split; [exact Hvideo|]. split; [exact Haudio|].
      split; [|split].
      * intros f Hf. rewrite Hsome in Hf. now apply bestAudio_maximal.
      * destruct (bestAudio_first_of_highest (first :: rest) first)
          as [[Hfirst _] | (earlier & later & Hsplit & _ & Hbefore)].
        -- exists [], rest. subst best. rewrite Hfirst. split; [reflexivity|].
           intros f [].
        -- exists earlier, later. split; [exact Hsplit | exact Hbefore].
      * exists directUrl. split; [exact Hurl|].
        unfold Server.resolveStream. rewrite Hsome. subst best.
        cbv iota beta. rewrite Hurl. unfold Js.whenTruthy. now rewrite Htruthy.
  - intros formats.
    pose proof (selectFastestAudioFormat_first_of_highest formats) as Hsel.
    destruct (List.filter History.isAudioCandidate formats) as [|first rest] eqn:Hfilter;
      [exact Hsel|].
    destruct Hsel as (earlier & best & later & Hsplit & Hbest & Hbefore & Hafter).
    exists earlier, best, later.
    assert (In best (List.filter History.isAudioCandidate formats)) as Hin.
    { rewrite Hfilter, Hsplit. apply in_app_iff. right. now left. }
    apply filter_In in Hin as [Hin Hcand]. repeat split; assumption.
  - intros size1 size2 Hsize1 Hsize2.
    assert ((size1 =? 0) = false) as Hnz1 by (apply Z.eqb_neq; lia).
    assert ((size2 =? 0) = false) as Hnz2 by (apply Z.eqb_neq; lia).
    assert (History.isAudioCandidate (Samples.ytDlpMp4At128 size1) = true) as Hc1.
    { unfold History.isAudioCandidate. cbn. rewrite Hnz1. apply Z.ltb_lt. lia. }
    assert (History.isAudioCandidate (Samples.ytDlpWebmAt256 size2) = true) as Hc2.
    { unfold History.isAudioCandidate. cbn. rewrite Hnz2. apply Z.ltb_lt. lia. }
    assert (History.score (Samples.ytDlpWebmAt256 size2)
            < History.score (Samples.ytDlpMp4At128 size1))%Q as Hscore.
    { destruct (score_between (Samples.ytDlpMp4At128 size1) size1 128 128 eq_refl Hsize1)
        as [Hmp4 _]; [lia | lia | apply Qle_refl | apply Qle_refl |].
      destruct (score_between (Samples.ytDlpWebmAt256 size2) size2 256 256 eq_refl Hsize2)
        as [_ Hwebm]; [lia | lia | apply Qle_refl | apply Qle_refl |].
      change (inject_Z 9178 <= History.score (Samples.ytDlpMp4At128 size1))%Q in Hmp4.
      change (History.score (Samples.ytDlpWebmAt256 size2) <= inject_Z 8356)%Q in Hwebm.
      apply Qle_lt_trans with (inject_Z 8356); [exact Hwebm|].
      apply Qlt_le_trans with (inject_Z 9178); [reflexivity | exact Hmp4]. }
    unfold History.selectFastestAudioFormat.
    cbn [List.filter]. rewrite Hc1, Hc2.
    unfold History.sortByScore. cbn [fold_left History.insertByScore].
    rewrite (proj2 (Qltb_true_iff _ _) Hscore).
    rewrite (proj2 (Qltb_false_iff _ _) (Qlt_le_weak _ _ Hscore)).
    split; reflexivity.
Qed.

(** The theorem at work on the pair of the test case: as ytdl-core reports
    it, and as yt-dlp reports it with files of 3 and 6 MB. *)
Lemma selection_is_by_bitrate_and_in_history_by_score_witness :
  (exists directUrl,
      Server.url (Server.bestAudio Samples.mp4At128 [Samples.mp4At128; Samples.webmAt256])
      = Some directUrl
      /\ Server.resolveStream (fun msg => msg)
           (Server.InfoResolved [Samples.mp4At128; Samples.webmAt256])
         = Server.Resolved directUrl)
  /\ History.selectFastestAudioFormat
       [Samples.ytDlpMp4At128 3433514; Samples.ytDlpWebmAt256 6867028]
     = Some (Samples.ytDlpMp4At128 3433514).
Proof.
  destruct selection_is_by_bitrate_and_in_history_by_score as (Hserver & _ & Hpair).
  split.
  - destruct (Hserver (fun msg => msg) [Samples.mp4At128; Samples.webmAt256]) as [_ Hsome].
    destruct (Hsome Samples.mp4At128 [Samples.webmAt256]) as (_ & _ & _ & _ & _ & Hurl).
    + vm_compute. reflexivity.
    + exact Hurl.
  - destruct (Hpair 3433514 6867028) as [Hfirst _].
    + lia.
    + lia.
    + exact Hfirst.
Defined.

(** ** The stream endpoint *)

Section RelayFacts.
Import Server.

Lemma orDefault_nonempty v d : v <> ""%string -> Js.orDefault (Some v) d = v.
Proof.
  intros Hv. unfold Js.orDefault, Js.truthy.
  destruct (String.eqb_spec v ""); [contradiction | reflexivity].
Qed.

Lemma whenTruthy_nonempty v : v <> ""%string -> Js.whenTruthy (Some v) = Some v.
Proof.
  intros Hv. unfold Js.whenTruthy, Js.truthy.
  destruct (String.eqb_spec v ""); [contradiction | reflexivity].
Qed.

(** What the relay sets, header by header. *)
Lemma relayHeaders_lookup upstream :
  let get name := upstreamHeaders upstream !! name in
  relayHeaders upstream !! "content-type"%string
  = Some (Js.orDefault (get "content-type"%string) "audio/mp4")
  /\ relayHeaders upstream !! "accept-ranges"%string
     = Some (Js.orDefault (get "accept-ranges"%string) "bytes")
  /\ relayHeaders upstream !! "content-length"%string
     = Js.whenTruthy (get "content-length"%string)
  /\ relayHeaders upstream !! "content-range"%string
     = Js.whenTruthy (get "content-range"%string).
Proof.
  intros get. subst get. unfold relayHeaders, setHeader. cbv zeta.
  change (Chars.lower (list_ascii_of_string "Cache-Control")) with "cache-control"%string.
  change (Chars.lower (list_ascii_of_string "Accept-Ranges")) with "accept-ranges"%string.
  change (Chars.lower (list_ascii_of_string "Content-Type")) with "content-type"%string.
  change (Chars.lower (list_ascii_of_string "Content-Length")) with "content-length"%string.
  change (Chars.lower (list_ascii_of_string "Content-Range")) with "content-range"%string.
  destruct (Js.whenTruthy (upstreamHeaders upstream !! "content-length"%string)) as [cl|];
    destruct (Js.whenTruthy (upstreamHeaders upstream !! "content-range"%string)) as [cr|];
    repeat split;
    repeat (first [ rewrite lookup_insert_eq
                  | rewrite lookup_insert_ne by discriminate
                  | rewrite lookup_empty ]);
    reflexivity.
Qed.

(** The GET handler on a request whose identifier is valid, when the
    resolution and the upstream fetch both succeed. *)
Lemma streamGet_relays nodeEnv req videoId directUrl upstream :
  normalizeVideoId (paramsVideoId req) = Some videoId ->
  interact (streamGet nodeEnv req) (Resolved directUrl) (FetchResponded upstream)
  = ([CalledFetchStreamUrl videoId; CalledFetch directUrl (upstreamRequestHeaders req)],
     Some (relay upstream)).
Proof. intros Hid. unfold streamGet. rewrite Hid. reflexivity. Qed.

Lemma streamGet_invalid nodeEnv req resolution fetched :
  normalizeVideoId (paramsVideoId req) = None ->
  interact (streamGet nodeEnv req) resolution fetched
  = ([], Some (invalidVideoId (paramsVideoId req))).
Proof. intros Hid. unfold streamGet. rewrite Hid. reflexivity. Qed.

Lemma streamGet_resolution_failed nodeEnv req videoId error fetched :
  normalizeVideoId (paramsVideoId req) = Some videoId ->
  interact (streamGet nodeEnv req) (Rejected error) fetched
  = ([CalledFetchStreamUrl videoId], streamFailed nodeEnv false videoId error).
Proof. intros Hid. unfold streamGet. rewrite Hid. reflexivity. Qed.

Lemma upstreamRequestHeaders_range req :
  upstreamRequestHeaders req !! "Range"%string = Js.whenTruthy (headersRange req)
  /\ upstreamRequestHeaders req !! "User-Agent"%string = Some userAgent.
Proof.
  unfold upstreamRequestHeaders.
  destruct (Js.whenTruthy (headersRange req)) as [range|]; split;
    repeat (first [ rewrite lookup_insert_eq
                  | rewrite lookup_insert_ne by discriminate
                  | rewrite lookup_singleton_eq
                  | rewrite lookup_singleton_ne by discriminate ]);
    reflexivity.
Qed.

End RelayFacts.

(** C5, as the claim states it, fails: upstream sends [content-type] and
    [content-range] with empty values, and the client response carries the
    default content type and no [Content-Range] at all. *)
Lemma relay_does_not_copy_an_empty_header :
  let upstream :=
    {| Server.upstreamStatus := 200;
       Server.upstreamHeaders := {[ "content-type"%string := ""%string;
                                    "content-range"%string := ""%string ]};
       Server.upstreamHasBody := true |} in
  Server.upstreamHeaders upstream !! "content-type"%string = Some ""%string
  /\ Server.headers (Server.relay upstream) !! "content-type"%string = Some "audio/mp4"%string
  /\ Server.upstreamHeaders upstream !! "content-range"%string = Some ""%string
  /\ Server.headers (Server.relay upstream) !! "content-range"%string = None.
Proof. vm_compute. repeat split; reflexivity. Qed.

(** C5, amended.  The relay copies the upstream status code and, of
    [content-type], [content-length], [content-range] and [accept-ranges],
    every header that upstream sends with a non-empty value; [content-type]
    defaults to [audio/mp4] and [accept-ranges] to [bytes] when upstream
    omits them or sends them empty, and a [content-length] or
    [content-range] that is omitted or empty is not set.  Hence a request
    with [Range: bytes=100-199] that upstream answers with 206 and
    [Content-Range: bytes 100-199/1000] gets a 206 response that carries
    that [Content-Range]. *)
Theorem relay_copies_status_and_nonempty_allowed_headers :
  forall upstream,
    let sent name := Server.upstreamHeaders upstream !! name in
    let relayed name := Server.headers (Server.relay upstream) !! name in
    Server.status (Server.relay upstream) = Server.upstreamStatus upstream
    /\ (forall name value,
           In name ["content-type"; "content-length"; "content-range"; "accept-ranges"]%string ->
           sent name = Some value -> value <> ""%string ->
           relayed name = Some value)
    /\ (sent "content-type"%string = None \/ sent "content-type"%string = Some ""%string ->
        relayed "content-type"%string = Some "audio/mp4"%string)
    /\ (sent "accept-ranges"%string = None \/ sent "accept-ranges"%string = Some ""%string ->
        relayed "accept-ranges"%string = Some "bytes"%string)
    /\ (forall name,
           In name ["content-length"; "content-range"]%string ->
           sent name = None \/ sent name = Some ""%string ->
           relayed name = None)
    /\ (forall nodeEnv req videoId directUrl,
           Server.normalizeVideoId (Server.paramsVideoId req) = Some videoId ->
           Server.headersRange req = Some "bytes=100-199"%string ->
           Server.upstreamStatus upstream = 206 ->
           sent "content-range"%string = Some "bytes 100-199/1000"%string ->
           exists answer,
             snd (Server.interact (Server.streamGet nodeEnv req)
                    (Server.Resolved directUrl) (Server.FetchResponded upstream))
             = Some answer
             /\ Server.status answer = 206
             /\ Server.headers answer !! "content-range"%string
                = Some "bytes 100-199/1000"%string).
Proof.
  intros upstream sent relayed. subst sent relayed. cbv beta.
  pose proof (relayHeaders_lookup upstream) as H. cbv zeta in H.
  destruct H as (Htype & Hranges & Hlength & Hrange).
  change (Server.headers (Server.relay upstream)) with (Server.relayHeaders upstream).
  split; [reflexivity|]. split; [|split; [|split; [|split]]].
  - intros name value Hname Hsent Hvalue.
    simpl in Hname. destruct Hname as [<- | [<- | [<- | [<- | []]]]].
    + rewrite Htype, Hsent. now rewrite orDefault_nonempty.
    + rewrite Hlength, Hsent. now apply whenTruthy_nonempty.
    + rewrite Hrange, Hsent. now apply whenTruthy_nonempty.
    + rewrite Hranges, Hsent. now rewrite orDefault_nonempty.
  - intros [Hsent | Hsent]; rewrite Htype, Hsent; reflexivity.
  - intros [Hsent | Hsent]; rewrite Hranges, Hsent; reflexivity.
  - intros name Hname Hsent.
    simpl in Hname. destruct Hname as [<- | [<- | []]].
    + rewrite Hlength. destruct Hsent as [-> | ->]; reflexivity.
    + rewrite Hrange. destruct Hsent as [-> | ->]; reflexivity.
  - intros nodeEnv req videoId directUrl Hid _ Hstatus Hsent.
    exists (Server.relay upstream).
    rewrite (streamGet_relays nodeEnv req videoId directUrl upstream Hid).
    split; [reflexivity|]. split; [exact Hstatus|].
    change (Server.headers (Server.relay upstream)) with (Server.relayHeaders upstream).
    rewrite Hrange, Hsent. reflexivity.
Qed.

(** The theorem at work on the range request of the specification's test
    case. *)
Lemma relay_copies_status_and_nonempty_allowed_headers_witness :
  exists answer,
    snd (Server.interact
           (Server.streamGet None
              {| Server.paramsVideoId := "dQw4w9WgXcQ";
                 Server.headersRange := Some "bytes=100-199"%string |})
           (Server.Resolved "https://cdn.example/audio.webm")
           (Server.FetchResponded
              {| Server.upstreamStatus := 206;
                 Server.upstreamHeaders :=
                   {[ "content-range"%string := "bytes 100-199/1000"%string;
                      "content-length"%string := "100"%string ]};
                 Server.upstreamHasBody := true |}))
    = Some answer
    /\ Server.status answer = 206
    /\ Server.headers answer !! "content-range"%string = Some "bytes 100-199/1000"%string.
Proof.
  refine (proj2 (proj2 (proj2 (proj2 (proj2
            (relay_copies_status_and_nonempty_allowed_headers _)))))
            None _ "dQw4w9WgXcQ"%string _ _ _ _ _).
  - vm_compute. reflexivity.
  - reflexivity.
  - reflexivity.
  - vm_compute. reflexivity.
Defined.

(** C6, as the claim states it, fails: a Range header that is there with an
    empty value is not forwarded; the upstream request has no Range header. *)
Lemma empty_range_header_is_not_forwarded :
  let req := {| Server.paramsVideoId := "dQw4w9WgXcQ";
                Server.headersRange := Some ""%string |} in
  Server.headersRange req = Some ""%string
  /\ Server.upstreamRequestHeaders req !! "Range"%string = None
  /\ fst (Server.interact (Server.streamGet None req)
            (Server.Resolved "https://cdn.example/audio.webm")
            (Server.FetchRejected (Js.mkError "TypeError" "fetch failed" "")))
     = [Server.CalledFetchStreamUrl "dQw4w9WgXcQ";
        Server.CalledFetch "https://cdn.example/audio.webm"
          {[ "User-Agent"%string := Server.userAgent ]}].
Proof. vm_compute. repeat split; reflexivity. Qed.

(** C6, amended.  When the request has a Range header with a non-empty
    value, the upstream request carries that value unchanged in its Range
    header; when the request has no Range header, or an empty one, the
    upstream request carries no Range header.  These are the headers of the
    one fetch the handler makes once the stream URL is resolved. *)
Theorem nonempty_range_header_is_forwarded_verbatim :
  forall req,
    (forall range,
        Server.headersRange req = Some range -> range <> ""%string ->
        Server.upstreamRequestHeaders req !! "Range"%string = Some range)
    /\ (Server.headersRange req = None \/ Server.headersRange req = Some ""%string ->
        Server.upstreamRequestHeaders req !! "Range"%string = None)
    /\ (forall nodeEnv videoId directUrl fetched,
           Server.normalizeVideoId (Server.paramsVideoId req) = Some videoId ->
           fst (Server.interact (Server.streamGet nodeEnv req)
                  (Server.Resolved directUrl) fetched)
           = [Server.CalledFetchStreamUrl videoId;
              Server.CalledFetch directUrl (Server.upstreamRequestHeaders req)]).
Proof.
  intros req. destruct (upstreamRequestHeaders_range req) as [Hrange _].
  split; [|split].
  - intros range Hreq Hne. rewrite Hrange, Hreq. now apply whenTruthy_nonempty.
  - intros [Hreq | Hreq]; rewrite Hrange, Hreq; reflexivity.
  - intros nodeEnv videoId directUrl fetched Hid.
    unfold Server.streamGet. rewrite Hid. simpl.
    destruct fetched; reflexivity.
Qed.

Lemma nonempty_range_header_is_forwarded_verbatim_witness :
  Server.upstreamRequestHeaders
    {| Server.paramsVideoId := "dQw4w9WgXcQ";
       Server.headersRange := Some "bytes=100-199"%string |} !! "Range"%string
  = Some "bytes=100-199"%string.
Proof.
  refine (proj1 (nonempty_range_header_is_forwarded_verbatim _) _ _ _).
  - reflexivity.
  - discriminate.
Defined.

(** ** Errors of the stream endpoint, and the HEAD request *)

Section ErrorFacts.
Import Server.

Lemma streamFailed_abort nodeEnv headersSent videoId error :
  Js.name error = "AbortError"%string ->
  streamFailed nodeEnv headersSent videoId error = None.
Proof. intros Hname. unfold streamFailed. now rewrite Hname. Qed.

Lemma streamFailed_json nodeEnv videoId error :
  Js.name error <> "AbortError"%string ->
  let errorMessage := Js.orDefault (Some (Js.message error)) "Failed to stream audio" in
  streamFailed nodeEnv false videoId error
  = Some {| status := if Js.includes "unavailable" errorMessage then 404 else 500;
            headers := ∅;
            body := JsonBody
                      ([("error", errorMessage); ("videoId", videoId);
                        ("suggestion", suggestion)]%string
                       ++ match nodeEnv with
                          | Some env =>
                              if String.eqb env "development"
                              then [("details"%string, Js.stack error)]
                              else []
                          | None => []
                          end) |}.
Proof.
  intros Hname. unfold streamFailed.
  destruct (String.eqb_spec (Js.name error) "AbortError"); [contradiction | reflexivity].
Qed.

(** What the callback registered with [app.head] does when it is run: for
    an identifier that is valid it ends the response with status 200, and
    the shared state is what a call of [fetchStreamUrl] leaves. *)
Lemma streamHead_when_run now later req st videoId :
  normalizeVideoId (paramsVideoId req) = Some videoId ->
  status (fst (streamHead now later req st)) = 200
  /\ body (fst (streamHead now later req st)) = EndedBody
  /\ (Js.whenTruthy (fst (Cache.getCachedStreamUrl now videoId (streamUrlCache st))) = None ->
      snd (streamHead now later req st)
      = snd (fetchStreamUrl later videoId
               (withCache (snd (Cache.getCachedStreamUrl now videoId (streamUrlCache st))) st))).
Proof.
  intros Hid. unfold streamHead. rewrite Hid.
  destruct (Cache.getCachedStreamUrl now videoId (streamUrlCache st)) as [cached cache].
  simpl. destruct (Js.whenTruthy cached); simpl; repeat split; (reflexivity || discriminate).
Qed.

End ErrorFacts.

(** C8, as the claim states it, fails: when the resolution is rejected with
    an error whose name is [AbortError], the handler returns without
    sending any response, JSON or other. *)
Lemma resolution_rejected_with_abort_error_gets_no_response :
  Server.interact
    (Server.streamGet None
       {| Server.paramsVideoId := "dQw4w9WgXcQ"; Server.headersRange := None |})
    (Server.Rejected (Js.mkError "AbortError" "Request aborted" "AbortError: Request aborted"))
    (Server.FetchRejected (Js.mkError "TypeError" "fetch failed" ""))
  = ([Server.CalledFetchStreamUrl "dQw4w9WgXcQ"], None).
Proof. vm_compute. reflexivity. Qed.

(** C8, amended.  On the stream endpoint an identifier that is not valid
    gets status 400 and a JSON body with an error string and the identifier
    as it was received, and [fetchStreamUrl] is not called.  When the
    resolution is rejected with an error whose name is not [AbortError],
    the response is a JSON body with the error message (or "Failed to
    stream audio" when the message is empty), the identifier and a
    suggestion, with status 404 when the message includes "unavailable" and
    500 otherwise; the body has a [details] field, the stack trace, exactly
    when [NODE_ENV] is [development].  When the name of the error is
    [AbortError], the handler sends no response. *)
Theorem stream_endpoint_error_responses :
  forall nodeEnv req fetched,
    (Server.normalizeVideoId (Server.paramsVideoId req) = None ->
     forall resolution,
       Server.interact (Server.streamGet nodeEnv req) resolution fetched
       = ([], Some {| Server.status := 400;
                      Server.headers := ∅;
                      Server.body :=
                        Server.JsonBody [("error", "Invalid video ID");
                                         ("videoId", Server.paramsVideoId req)]%string |}))
    /\ (forall videoId error,
           Server.normalizeVideoId (Server.paramsVideoId req) = Some videoId ->
           (Js.name error = "AbortError"%string ->
            Server.interact (Server.streamGet nodeEnv req) (Server.Rejected error) fetched
            = ([Server.CalledFetchStreamUrl videoId], None))
           /\ (Js.name error <> "AbortError"%string ->
               exists fields,
                 let errorMessage :=
                   Js.orDefault (Some (Js.message error)) "Failed to stream audio" in
                 Server.interact (Server.streamGet nodeEnv req) (Server.Rejected error) fetched
                 = ([Server.CalledFetchStreamUrl videoId],
                    Some {| Server.status :=
                              if Js.includes "unavailable" errorMessage then 404 else 500;
                            Server.headers := ∅;
                            Server.body := Server.JsonBody fields |})
                 /\ In ("error"%string, errorMessage) fields
                 /\ In ("videoId"%string, videoId) fields
                 /\ In ("suggestion"%string, Server.suggestion) fields
                 /\ (forall detail,
                        In ("details"%string, detail) fields <->
                        nodeEnv = Some "development"%string /\ detail = Js.stack error))).
Proof.
  intros nodeEnv req fetched. split.
  - intros Hid resolution. now apply streamGet_invalid.
  - intros videoId error Hid. split; intros Hname.
    + rewrite streamGet_resolution_failed with (videoId := videoId) by exact Hid.
      now rewrite streamFailed_abort.
    + eexists. cbv zeta.
      rewrite streamGet_resolution_failed with (videoId := videoId) by exact Hid.
      pose proof (streamFailed_json nodeEnv videoId error Hname) as Hjson.
      cbv zeta in Hjson. rewrite Hjson. split; [reflexivity|].
      split; [now left|]. split; [right; now left|]. split; [right; right; now left|].
      intros detail. rewrite in_app_iff. split.
      * intros [Hfixed | Hdetails].
        -- simpl in Hfixed. destruct Hfixed as [[=] | [[=] | [[=] | []]]].
        -- destruct nodeEnv as [env|]; [|destruct Hdetails].
           destruct (String.eqb_spec env "development") as [-> | Hne]; [|destruct Hdetails].
           destruct Hdetails as [[= <-] | []]. now split.
      * intros [-> ->]. right. simpl. now left.
Qed.

(** The theorem at work: the two errors [fetchStreamUrl] throws itself, and
    an unavailable video, in production. *)
Lemma stream_endpoint_error_responses_witness :
  Server.interact
    (Server.streamGet (Some "production"%string)
       {| Server.paramsVideoId := "12345"; Server.headersRange := None |})
    (Server.Resolved "") (Server.FetchRejected (Js.mkError "TypeError" "fetch failed" ""))
  = ([], Some {| Server.status := 400;
                 Server.headers := ∅;
                 Server.body :=
                   Server.JsonBody [("error", "Invalid video ID"); ("videoId", "12345")]%string |})
  /\ exists fields,
      Server.interact
        (Server.streamGet (Some "production"%string)
           {| Server.paramsVideoId := "dQw4w9WgXcQ"; Server.headersRange := None |})
        (Server.Rejected (Js.mkError "Error" "Video unavailable" "Error: Video unavailable"))
        (Server.FetchRejected (Js.mkError "TypeError" "fetch failed" ""))
      = ([Server.CalledFetchStreamUrl "dQw4w9WgXcQ"],
         Some {| Server.status := 404;
                 Server.headers := ∅;
                 Server.body := Server.JsonBody fields |})
      /\ forall detail, ~ In ("details"%string, detail) fields.
Proof.
  split.
  - refine (proj1 (stream_endpoint_error_responses (Some "production"%string)
                     {| Server.paramsVideoId := "12345"; Server.headersRange := None |} _) _ _).
    vm_compute. reflexivity.
  - destruct (proj2 (stream_endpoint_error_responses (Some "production"%string)
                       {| Server.paramsVideoId := "dQw4w9WgXcQ"; Server.headersRange := None |}
                       (Server.FetchRejected (Js.mkError "TypeError" "fetch failed" "")))
                    "dQw4w9WgXcQ"%string
                    (Js.mkError "Error" "Video unavailable" "Error: Video unavailable"))
      as [_ Hjson].
    + vm_compute. reflexivity.
    + destruct Hjson as (fields & Hanswer & _ & _ & _ & Hdetails).
      * discriminate.
      * exists fields. split; [exact Hanswer|].
        intros detail Hin. apply Hdetails in Hin as [Henv _]. discriminate.
Defined.

(** C10: the code does not do what the claim says.  Express gives a HEAD
    request for [/api/stream/:videoId] to the route registered with
    [app.get] (line 266), which comes before the one registered with
    [app.head] (line 387): no request is ever routed to the HEAD handler.
    So a HEAD request for a well-formed identifier waits for the resolution,
    and when the resolution is rejected with "Video unavailable" its status
    is 404. *)
Theorem head_request_is_answered_by_the_get_handler :
  (forall m path param, Server.dispatch m path <> Some (Server.StreamHead, param))
  /\ Server.dispatch Server.HEAD "/api/stream/dQw4w9WgXcQ"
     = Some (Server.StreamGet, Some "dQw4w9WgXcQ"%string)
  /\ exists h fields,
      Server.routedToStreamGet None Server.HEAD "/api/stream/dQw4w9WgXcQ" None = Some h
      /\ Server.interact h
           (Server.Rejected (Js.mkError "Error" "Video unavailable" "Error: Video unavailable"))
           (Server.FetchRejected (Js.mkError "TypeError" "fetch failed" ""))
         = ([Server.CalledFetchStreamUrl "dQw4w9WgXcQ"],
            Some {| Server.status := 404;
                    Server.headers := ∅;
                    Server.body := Server.JsonBody fields |}).
Proof.
  split; [|split].
  - intros m path param. unfold Server.dispatch, Server.routes.
    cbn [Server.dispatchIn].
    destruct (Server.pathPieces path) as [pieces|];
      destruct m; cbn [Server.handlesMethod];
      repeat match goal with
             | |- context [Server.matchPath ?p ?q None] =>
                 destruct (Server.matchPath p q None); [discriminate|]
             end; discriminate.
  - vm_compute. reflexivity.
  - eexists. eexists. split; vm_compute; reflexivity.
Qed.

(** ** Deduplication of stream resolutions *)

Section DedupFacts.
Import Server.

Lemma consistent_initial : consistent initial.
Proof.
  split; unfold initial; simpl; intros *; rewrite ?lookup_empty; discriminate.
Qed.

(** The cache after a get: an entry of it was there before, and the entry
    of another identifier stays. *)
Lemma getCached_subset now id (c : gmap string Cache.streamEntry) k e :
  snd (Cache.getCachedStreamUrl now id c) !! k = Some e -> c !! k = Some e.
Proof.
  unfold Cache.getCachedStreamUrl. destruct (c !! id) as [cached|]; simpl; [|auto].
  destruct (_ <? _); simpl; [|auto].
  intros H. apply lookup_delete_Some in H. tauto.
Qed.

Lemma getCached_absent now id (c : gmap string Cache.streamEntry) k :
  c !! k = None -> snd (Cache.getCachedStreamUrl now id c) !! k = None.
Proof.
  intros Hk. destruct (snd (Cache.getCachedStreamUrl now id c) !! k) as [e|] eqn:E;
    [|reflexivity].
  apply getCached_subset in E. congruence.
Qed.

(** A get that yields nothing truthy leaves no entry under the identifier,
    when the cached URLs are truthy. *)
Lemma getCached_miss now id (c : gmap string Cache.streamEntry) :
  (forall e, c !! id = Some e -> Js.truthy (Cache.url e) = true) ->
  Js.whenTruthy (fst (Cache.getCachedStreamUrl now id c)) = None ->
  snd (Cache.getCachedStreamUrl now id c) !! id = None.
Proof.
  intros Htruthy. unfold Cache.getCachedStreamUrl.
  destruct (c !! id) as [cached|] eqn:Hc; simpl; [|auto].
  destruct (_ <? _); simpl; [intros _; apply lookup_delete_eq|].
  rewrite (Htruthy cached eq_refl). discriminate.
Qed.

(** Taking entries out of the cache keeps the state consistent. *)
Lemma consistent_withCache c st :
  consistent st ->
  (forall k e, c !! k = Some e -> streamUrlCache st !! k = Some e) ->
  consistent (withCache c st).
Proof.
  intros [Ha Hb Hc Hd He Hf] Hsub. split; simpl; eauto.
  intros id p Hp. specialize (Hd id p Hp).
  destruct (c !! id) as [e|] eqn:E; [|reflexivity].
  apply Hsub in E. congruence.
Qed.

Lemma fetchStreamUrl_consistent now id st :
  consistent st -> consistent (snd (fetchStreamUrl now id st)).
Proof.
  intros Hst. unfold fetchStreamUrl.
  destruct (Cache.getCachedStreamUrl now id (streamUrlCache st)) as [cached cache] eqn:Hget.
  assert (cache = snd (Cache.getCachedStreamUrl now id (streamUrlCache st))) as Hcache
    by now rewrite Hget.
  assert (forall k e, cache !! k = Some e -> streamUrlCache st !! k = Some e) as Hsub.
  { intros k e. rewrite Hcache. apply getCached_subset. }
  destruct (Js.whenTruthy cached) as [u|] eqn:Hcached; simpl.
  { now apply consistent_withCache. }
  destruct (pendingStreamRequests st !! id) as [p|] eqn:Hpending; simpl.
  { now apply consistent_withCache. }
  assert (cache !! id = None) as Hmiss.
  { rewrite Hcache. apply getCached_miss.
    - intros e. apply (cached_urls_truthy st Hst).
    - now rewrite Hget. }
  destruct Hst as [Ha Hb Hc Hd He Hf]. split; simpl.
  - intros k e Hk. eauto.
  - intros k p Hk. apply lookup_insert_Some in Hk as [[<- <-] | [Hne Hk]].
    + apply lookup_insert_eq.
    + rewrite lookup_insert_ne; [now apply Hb|].
      intros <-. apply Hb in Hk. apply He in Hk. lia.
  - intros p k Hp. apply lookup_insert_Some in Hp as [[<- <-] | [Hne Hp]].
    + apply lookup_insert_eq.
    + rewrite lookup_insert_ne; [now apply Hc|].
      intros <-. apply Hc in Hp. congruence.
  - intros k p Hk. apply lookup_insert_Some in Hk as [[<- <-] | [Hne Hk]].
    + exact Hmiss.
    + destruct (cache !! k) as [e|] eqn:E; [|reflexivity].
      apply Hsub in E. rewrite (Hd k p Hk) in E. discriminate.
  - intros p k Hp. apply lookup_insert_Some in Hp as [[<- <-] | [Hne Hp]].
    + split; [lia|]. destruct (settled st !! nextPromise st) as [o|] eqn:E; [|reflexivity].
      apply Hf in E. lia.
    + destruct (He p k Hp). split; [lia | assumption].
  - intros p o Hp. apply Hf in Hp. lia.
Qed.

Lemma sweep_subset now (c : gmap string Cache.streamEntry) k e :
  Cache.sweepStreams now c !! k = Some e -> c !! k = Some e.
Proof. unfold Cache.sweepStreams. intros H. apply map_lookup_filter_Some in H. tauto. Qed.

(** *** One call of [fetchStreamUrl] *)

(** A call for an identifier that is not cached: the caller adopts the
    pending promise, which is a new one, with a call of [ytdl.getInfo],
    exactly when none was pending. *)
Lemma fetchStreamUrl_not_cached now id st :
  consistent st ->
  streamUrlCache st !! id = None ->
  exists p,
    fst (fetchStreamUrl now id st) = Adopts p
    /\ pendingStreamRequests (snd (fetchStreamUrl now id st)) !! id = Some p
    /\ streamUrlCache (snd (fetchStreamUrl now id st)) !! id = None
    /\ match pendingStreamRequests st !! id with
       | Some p0 =>
           p = p0
           /\ getInfoCallsFor id (snd (fetchStreamUrl now id st)) = getInfoCallsFor id st
       | None =>
           p = nextPromise st
           /\ getInfoCallsFor id (snd (fetchStreamUrl now id st)) = S (getInfoCallsFor id st)
       end.
Proof.
  intros Hst Hcache. unfold fetchStreamUrl, Cache.getCachedStreamUrl.
  rewrite Hcache. simpl.
  destruct (pendingStreamRequests st !! id) as [p0|] eqn:Hpending; simpl.
  - exists p0. rewrite Hpending. auto.
  - exists (nextPromise st). rewrite lookup_insert_eq.
    repeat split; [assumption|].
    unfold getInfoCallsFor. simpl. rewrite count_occ_app. simpl.
    destruct (String.string_dec id id); [lia | contradiction].
Qed.

(** A call for another identifier leaves what concerns this one. *)
Lemma fetchStreamUrl_other now id' id st :
  id' <> id ->
  streamUrlCache st !! id = None ->
  streamUrlCache (snd (fetchStreamUrl now id' st)) !! id = None
  /\ pendingStreamRequests (snd (fetchStreamUrl now id' st)) !! id
     = pendingStreamRequests st !! id
  /\ getInfoCallsFor id (snd (fetchStreamUrl now id' st)) = getInfoCallsFor id st.
Proof.
  intros Hne Hcache. unfold fetchStreamUrl.
  pose proof (getCached_absent now id' (streamUrlCache st) id Hcache) as Habsent.
  destruct (Cache.getCachedStreamUrl now id' (streamUrlCache st)) as [cached cache].
  simpl in Habsent.
  destruct (Js.whenTruthy cached); simpl; [auto|].
  destruct (pendingStreamRequests st !! id'); simpl; [auto|].
  rewrite lookup_insert_ne by exact Hne.
  repeat split; [assumption|].
  unfold getInfoCallsFor. simpl. rewrite count_occ_app. simpl.
  destruct (String.string_dec id' id); [contradiction | lia].
Qed.

Lemma resultsFor_cons id ev r evs rs :
  resultsFor id (ev :: evs) (r :: rs) = resultsFor id [ev] [r] ++ resultsFor id evs rs.
Proof.
  destruct ev as [now id' | | | |]; try reflexivity.
  destruct r as [r|]; [|reflexivity]. simpl.
  destruct (String.eqb id' id); reflexivity.
Qed.

Lemma resultsFor_single id ev r :
  resultsFor id [ev] [r] = [] \/ exists a, resultsFor id [ev] [r] = [a].
Proof.
  destruct ev as [now id' | | | |]; try (now left).
  destruct r as [r|]; [|now left]. simpl.
  destruct (String.eqb id' id); [right; now exists r | now left].
Qed.

(** *** The metadata namespace *)

Lemma consistentInfo_initial : consistentInfo initialInfo.
Proof.
  split; unfold initialInfo; simpl; intros *; rewrite ?lookup_empty; discriminate.
Qed.

Lemma consistentInfo_withInfoCache c st :
  consistentInfo st -> consistentInfo (withInfoCache c st).
Proof. intros [Hb Hc He]. split; simpl; assumption. Qed.

Lemma fetchVideoInfo_consistent now id st :
  consistentInfo st -> consistentInfo (snd (fetchVideoInfo now id st)).
Proof.
  intros Hst. unfold fetchVideoInfo.
  destruct (Cache.getCachedVideoInfo now id (videoInfoCache st)) as [cached cache].
  destruct cached as [i|]; simpl; [now apply consistentInfo_withInfoCache|].
  destruct (pendingInfoRequests st !! id) as [p|] eqn:Hpending; simpl;
    [now apply consistentInfo_withInfoCache|].
  destruct Hst as [Hb Hc He]. split; simpl.
  - intros k p Hk. apply lookup_insert_Some in Hk as [[<- <-] | [Hne Hk]].
    + apply lookup_insert_eq.
    + rewrite lookup_insert_ne; [now apply Hb|].
      intros <-. apply Hb in Hk. apply He in Hk. lia.
  - intros p k Hp. apply lookup_insert_Some in Hp as [[<- <-] | [Hne Hp]].
    + apply lookup_insert_eq.
    + rewrite lookup_insert_ne; [now apply Hc|].
      intros <-. apply Hc in Hp. congruence.
  - intros p k Hp. apply lookup_insert_Some in Hp as [[<- <-] | [Hne Hp]].
    + lia.
    + apply He in Hp. lia.
Qed.

Lemma basicInfoSettles_consistent now p r st :
  consistentInfo st -> consistentInfo (basicInfoSettles now p r st).
Proof.
  intros Hst. unfold basicInfoSettles.
  destruct (awaitingBasicInfo st !! p) as [id|] eqn:Hawait; [|exact Hst].
  pose proof (awaitingInfo_is_pending st Hst p id Hawait) as Hpending.
  destruct Hst as [Hb Hc He]. split; simpl.
  - intros k q Hk. apply lookup_delete_Some in Hk as [Hne Hk].
    rewrite lookup_delete_ne; [now apply Hb|].
    intros <-. apply Hb in Hk. congruence.
  - intros q k Hq. apply lookup_delete_Some in Hq as [Hne Hq].
    rewrite lookup_delete_ne; [now apply Hc|].
    intros <-. apply Hc in Hq. congruence.
  - intros q k Hq. apply lookup_delete_Some in Hq as [Hne Hq]. now apply (He q k).
Qed.

Lemma reachableInfo_consistent st : reachableInfo st -> consistentInfo st.
Proof.
  induction 1 as [|ev st _ IH]; [apply consistentInfo_initial|].
  destruct ev as [now id | now p r | | now]; simpl.
  - now apply fetchVideoInfo_consistent.
  - now apply basicInfoSettles_consistent.
  - now apply consistentInfo_withInfoCache.
  - now apply consistentInfo_withInfoCache.
Qed.

Variable stackOf : string -> string.

(** A resolution that succeeds yields a truthy URL. *)
Lemma resolveStream_truthy r u :
  resolveStream stackOf r = Resolved u -> Js.truthy u = true.
Proof.
  unfold resolveStream. destruct r as [e | formats]; [discriminate|].
  destruct (filterFormats formats) as [|first rest]; [discriminate|].
  unfold Js.whenTruthy.
  destruct (url (bestAudio first (first :: rest))) as [v|]; [|discriminate].
  destruct (Js.truthy v) eqn:Hv; [|discriminate].
  now intros [= <-].
Qed.

Lemma getInfoSettles_consistent now p r st :
  consistent st -> consistent (getInfoSettles stackOf now p r st).
Proof.
  intros Hst. unfold getInfoSettles.
  destruct (awaitingGetInfo st !! p) as [id|] eqn:Hawait; [|exact Hst].
  pose proof (awaiting_is_pending st Hst p id Hawait) as Hpending.
  destruct Hst as [Ha Hb Hc Hd He Hf]. split; simpl.
  - intros k e. destruct (resolveStream stackOf r) as [u|err] eqn:Hr; [|now apply Ha].
    unfold Cache.setCachedStreamUrl. intros Hk.
    apply lookup_insert_Some in Hk as [[<- <-] | [Hne Hk]]; [|now apply (Ha k)].
    simpl. now apply resolveStream_truthy with (r := r).
  - intros k q Hk. apply lookup_delete_Some in Hk as [Hne Hk].
    rewrite lookup_delete_ne; [now apply Hb|].
    intros <-. apply Hb in Hk. congruence.
  - intros q k Hq. apply lookup_delete_Some in Hq as [Hne Hq].
    rewrite lookup_delete_ne; [now apply Hc|].
    intros <-. apply Hc in Hq. congruence.
  - intros k q Hk. apply lookup_delete_Some in Hk as [Hne Hk].
    destruct (resolveStream stackOf r) as [u|err]; [|now apply (Hd k q)].
    unfold Cache.setCachedStreamUrl. rewrite lookup_insert_ne by exact Hne.
    now apply (Hd k q).
  - intros q k Hq. apply lookup_delete_Some in Hq as [Hne Hq].
    destruct (He q k Hq). split; [assumption|].
    now rewrite lookup_insert_ne.
  - intros q o Hq. apply lookup_insert_Some in Hq as [[<- <-] | [Hne Hq]].
    + now destruct (He p id Hawait).
    + now apply (Hf q o).
Qed.

Lemma exec_consistent ev st :
  consistent st -> consistent (snd (exec stackOf ev st)).
Proof.
  intros Hst. destruct ev as [now id | now p r | now id | | now]; simpl.
  - pose proof (fetchStreamUrl_consistent now id st Hst) as H.
    now destruct (fetchStreamUrl now id st).
  - now apply getInfoSettles_consistent.
  - apply consistent_withCache; [exact Hst|]. intros k e. apply getCached_subset.
  - apply consistent_withCache; [exact Hst|]. intros k e. rewrite lookup_empty. discriminate.
  - apply consistent_withCache; [exact Hst|]. intros k e. apply sweep_subset.
Qed.

Lemma reachable_consistent st : reachable stackOf st -> consistent st.
Proof.
  induction 1 as [|ev st _ IH]; [apply consistent_initial | now apply exec_consistent].
Qed.

(** The settlement of a call made for another identifier leaves what
    concerns this one. *)
Lemma getInfoSettles_other now p r id st :
  consistent st ->
  awaitingGetInfo st !! p <> Some id ->
  streamUrlCache st !! id = None ->
  streamUrlCache (getInfoSettles stackOf now p r st) !! id = None
  /\ pendingStreamRequests (getInfoSettles stackOf now p r st) !! id
     = pendingStreamRequests st !! id
  /\ getInfoCallsFor id (getInfoSettles stackOf now p r st) = getInfoCallsFor id st.
Proof.
  intros Hst Hp Hcache. unfold getInfoSettles.
  destruct (awaitingGetInfo st !! p) as [id'|] eqn:Hawait; [|auto].
  assert (id' <> id) as Hne by congruence.
  simpl. rewrite lookup_delete_ne by exact Hne.
  repeat split.
  destruct (resolveStream stackOf r); [|assumption].
  unfold Cache.setCachedStreamUrl. now rewrite lookup_insert_ne.
Qed.

(** One event that does not settle a call made for [id], from a state in
    which [id] is not cached. *)
Lemma exec_concurrent id ev st :
  consistent st ->
  streamUrlCache st !! id = None ->
  match ev with
  | GetInfoSettles _ p _ => awaitingGetInfo st !! p <> Some id
  | _ => True
  end ->
  streamUrlCache (snd (exec stackOf ev st)) !! id = None
  /\ match resultsFor id [ev] [fst (exec stackOf ev st)] with
     | r :: _ =>
         exists p,
           r = Adopts p
           /\ pendingStreamRequests (snd (exec stackOf ev st)) !! id = Some p
           /\ match pendingStreamRequests st !! id with
              | Some p0 =>
                  p = p0
                  /\ getInfoCallsFor id (snd (exec stackOf ev st)) = getInfoCallsFor id st
              | None =>
                  getInfoCallsFor id (snd (exec stackOf ev st)) = S (getInfoCallsFor id st)
              end
     | [] =>
         pendingStreamRequests (snd (exec stackOf ev st)) !! id
         = pendingStreamRequests st !! id
         /\ getInfoCallsFor id (snd (exec stackOf ev st)) = getInfoCallsFor id st
     end.
Proof.
  intros Hst Hcache Hev. destruct ev as [now id' | now p r | now id' | | now]; simpl.
  - destruct (String.eqb_spec id' id) as [-> | Hne].
    + destruct (fetchStreamUrl_not_cached now id st Hst Hcache)
        as (p & Hfst & Hpending & Hcache' & Hcalls).
      destruct (fetchStreamUrl now id st) as [r st1]. simpl in *.
      split; [exact Hcache'|].
      exists p. split; [exact Hfst|]. split; [exact Hpending|].
      destruct (pendingStreamRequests st !! id); tauto.
    + destruct (fetchStreamUrl_other now id' id st Hne Hcache) as (Hcache' & Hpending & Hcalls).
      destruct (fetchStreamUrl now id' st) as [r st1]. simpl in *. auto.
  - destruct (getInfoSettles_other now p r id st Hst Hev Hcache) as (Hcache' & Hpending & Hcalls).
    auto.
  - split; [now apply getCached_absent | auto].
  - split; [apply lookup_empty | auto].
  - split; [|auto].
    destruct (Cache.sweepStreams now (streamUrlCache st) !! id) as [e|] eqn:E; [|reflexivity].
    apply sweep_subset in E. congruence.
Qed.

(** A run of events of which none settles a call made for [id], from a
    state in which [id] is not cached. *)
Lemma run_concurrent id evs : forall st,
  consistent st ->
  streamUrlCache st !! id = None ->
  settlesNothingFor stackOf id evs st ->
  let results := resultsFor id evs (fst (run stackOf evs st)) in
  let st' := snd (run stackOf evs st) in
  consistent st'
  /\ streamUrlCache st' !! id = None
  /\ (forall r, In r results ->
                exists p, r = Adopts p /\ pendingStreamRequests st' !! id = Some p)
  /\ (forall p0, pendingStreamRequests st !! id = Some p0 ->
                 pendingStreamRequests st' !! id = Some p0
                 /\ getInfoCallsFor id st' = getInfoCallsFor id st)
  /\ (pendingStreamRequests st !! id = None ->
      (results = [] /\ pendingStreamRequests st' !! id = None
       /\ getInfoCallsFor id st' = getInfoCallsFor id st)
      \/ (results <> [] /\ getInfoCallsFor id st' = S (getInfoCallsFor id st))).
Proof.
  induction evs as [|ev evs IH]; intros st Hst Hcache Hquiet; cbv zeta.
  - simpl. split; [exact Hst|]. split; [exact Hcache|]. split; [intros r []|].
    split; [auto|]. intros Hp. left. auto.
  - destruct Hquiet as [Hev Hquiet].
    pose proof (exec_consistent ev st Hst) as Hst1.
    destruct (exec_concurrent id ev st Hst Hcache Hev) as [Hcache1 Hstep].
    specialize (IH (snd (exec stackOf ev st)) Hst1 Hcache1 Hquiet). cbv zeta in IH.
    cbn [run]. destruct (exec stackOf ev st) as [r st1]. cbn [fst snd] in *.
    destruct (run stackOf evs st1) as [rs st2]. cbn [fst snd] in *.
    destruct IH as (Hst2 & Hcache2 & Hres & Hkeep & Hnone).
    rewrite resultsFor_cons.
    split; [exact Hst2|]. split; [exact Hcache2|].
    destruct (resultsFor_single id ev r) as [Hempty | [a Ha]].
    + rewrite Hempty in Hstep |- *. simpl. destruct Hstep as [Hpending Hcalls].
      split; [exact Hres|]. split.
      * intros p0 Hp0. rewrite <- Hpending in Hp0.
        destruct (Hkeep p0 Hp0). split; [assumption | congruence].
      * intros Hp. rewrite <- Hpending in Hp.
        destruct (Hnone Hp) as [(Hr & Hp2 & Hc) | (Hr & Hc)];
          [left | right]; repeat split; (assumption || congruence).
    + rewrite Ha in Hstep |- *. simpl.
      destruct Hstep as (p & -> & Hpending & Hcalls).
      destruct (Hkeep p Hpending) as [Hpending2 Hcalls2].
      split; [|split].
      * intros r' [<- | Hr']; [now exists p | now apply Hres].
      * intros p0 Hp0. rewrite Hp0 in Hcalls. destruct Hcalls as [-> Hcalls].
        split; [assumption | congruence].
      * intros Hp. rewrite Hp in Hcalls. right. split; [discriminate | congruence].
Qed.



End DedupFacts.

(** C1: in every state the server reaches, no two calls of [ytdl.getInfo]
    for one identifier are in flight, and no two calls of
    [ytdl.getBasicInfo] either.  And let calls of [fetchStreamUrl] for an
    identifier that is not cached be concurrent: at least one call, in a
    run of events (calls for this and other identifiers, settlements of
    other extractions, cache reads, sweeps and clears) of which none settles
    an extraction for this identifier.  Then over the run [ytdl.getInfo] is
    called for the identifier once, or not at all when an extraction for it
    was already in flight; one extraction for it is in flight after the
    run; every caller holds a promise that adopts the promise of that
    extraction, none has an outcome yet; and when that extraction settles,
    every caller observes its outcome, the same URL or the same error for
    all. *)
Theorem concurrent_requests_share_one_extraction :
  (forall st p1 p2 id,
      Server.reachableInfo st ->
      Server.awaitingBasicInfo st !! p1 = Some id ->
      Server.awaitingBasicInfo st !! p2 = Some id ->
      p1 = p2)
  /\ forall stackOf st,
    Server.reachable stackOf st ->
    (forall p1 p2 id,
        Server.awaitingGetInfo st !! p1 = Some id ->
        Server.awaitingGetInfo st !! p2 = Some id ->
        p1 = p2)
    /\ (forall id evs,
           Server.streamUrlCache st !! id = None ->
           Server.settlesNothingFor stackOf id evs st ->
           let results := Server.resultsFor id evs (fst (Server.run stackOf evs st)) in
           let st' := snd (Server.run stackOf evs st) in
           results <> [] ->
           Server.getInfoCallsFor id st'
           = (Server.getInfoCallsFor id st
              + match Server.pendingStreamRequests st !! id with
                | Some _ => 0
                | None => 1
                end)%nat
           /\ exists p,
               Server.awaitingGetInfo st' !! p = Some id
               /\ (forall r, In r results ->
                             r = Server.Adopts p /\ Server.observed st' r = None)
               /\ (forall now info r,
                      In r results ->
                      Server.observed (Server.getInfoSettles stackOf now p info st') r
                      = Some (Server.resolveStream stackOf info))).
Proof.
  split.
  { intros st p1 p2 id Hreach H1 H2.
    pose proof (reachableInfo_consistent st Hreach) as Hst.
    apply (Server.awaitingInfo_is_pending st Hst) in H1, H2. congruence. }
  intros stackOf st Hreach. pose proof (reachable_consistent stackOf st Hreach) as Hst.
  split.
  - intros p1 p2 id H1 H2.
    apply (Server.awaiting_is_pending st Hst) in H1, H2. congruence.
  - intros id evs Hcache Hquiet results st' Hsome.
    destruct (run_concurrent stackOf id evs st Hst Hcache Hquiet)
      as (Hst' & Hcache' & Hres & Hkeep & Hnone).
    fold results in Hres, Hnone. fold st' in Hst', Hcache', Hres, Hkeep, Hnone.
    split.
    + destruct (Server.pendingStreamRequests st !! id) as [p0|] eqn:Hp0.
      * destruct (Hkeep p0 eq_refl) as [_ ->]. lia.
      * destruct (Hnone eq_refl) as [(Hr & _) | (_ & ->)]; [contradiction | lia].
    + destruct results as [|first others] eqn:Hresults; [contradiction|].
      destruct (Hres first (or_introl eq_refl)) as (p & -> & Hpending).
      pose proof (Server.pending_is_awaiting st' Hst' id p Hpending) as Hawait.
      exists p. split; [exact Hawait|]. split.
      * intros r Hr. destruct (Hres r Hr) as (q & -> & Hq).
        assert (q = p) as -> by congruence.
        split; [reflexivity|]. simpl.
        now destruct (Server.awaiting_not_settled st' Hst' p id Hawait).
      * intros now info r Hr. destruct (Hres r Hr) as (q & -> & Hq).
        assert (q = p) as -> by congruence.
        unfold Server.getInfoSettles. rewrite Hawait. simpl.
        apply lookup_insert_eq.
Qed.

(** The theorem at work: three calls for one identifier from the initial
    state, with a call for another identifier and a sweep between them. *)
Lemma concurrent_requests_share_one_extraction_witness :
  let evs := [Server.CallFetchStreamUrl 0 "dQw4w9WgXcQ";
              Server.CallFetchStreamUrl 1 "kJQP7kiw5Fk";
              Server.CallFetchStreamUrl 2 "dQw4w9WgXcQ";
              Server.CacheSweep 3;
              Server.CallFetchStreamUrl 4 "dQw4w9WgXcQ"] in
  let st' := snd (Server.run (fun msg => msg) evs Server.initial) in
  Server.getInfoCallsFor "dQw4w9WgXcQ" st' = 1%nat
  /\ exists p,
      Server.awaitingGetInfo st' !! p = Some "dQw4w9WgXcQ"%string
      /\ (forall r,
             In r (Server.resultsFor "dQw4w9WgXcQ" evs
                     (fst (Server.run (fun msg => msg) evs Server.initial))) ->
             r = Server.Adopts p /\ Server.observed st' r = None)
      /\ (forall now info r,
             In r (Server.resultsFor "dQw4w9WgXcQ" evs
                     (fst (Server.run (fun msg => msg) evs Server.initial))) ->
             Server.observed (Server.getInfoSettles (fun msg => msg) now p info st') r
             = Some (Server.resolveStream (fun msg => msg) info)).
Proof.
  intros evs st'.
  refine (proj2 (proj2 concurrent_requests_share_one_extraction (fun msg => msg)
                   Server.initial (Server.reachable_initial _))
            "dQw4w9WgXcQ"%string evs _ _ _).
  - reflexivity.
  - vm_compute. tauto.
  - vm_compute. discriminate.
Defined.

(** C9: when the resolution for an identifier fails (the extraction is
    rejected, or no audio format has a URL), the stream-URL cache is what it
    was, the pending entry of the identifier is gone, and the promise is
    rejected with the error; the next call of [fetchStreamUrl] for the
    identifier, whenever it comes, calls [ytdl.getInfo] again and hands out
    a new promise that has not settled. *)
Theorem failed_resolution_is_not_cached_and_not_stuck :
  forall stackOf st now p id info error,
    Server.reachable stackOf st ->
    Server.awaitingGetInfo st !! p = Some id ->
    Server.resolveStream stackOf info = Server.Rejected error ->
    let st' := Server.getInfoSettles stackOf now p info st in
    Server.streamUrlCache st' = Server.streamUrlCache st
    /\ Server.streamUrlCache st' !! id = None
    /\ Server.pendingStreamRequests st' !! id = None
    /\ Server.awaitingGetInfo st' !! p = None
    /\ Server.settled st' !! p = Some (Server.Rejected error)
    /\ forall later,
        exists fresh,
          fst (Server.fetchStreamUrl later id st') = Server.Adopts fresh
          /\ fresh <> p
          /\ Server.settled st' !! fresh = None
          /\ Server.awaitingGetInfo (snd (Server.fetchStreamUrl later id st')) !! fresh = Some id
          /\ Server.getInfoCallsFor id (snd (Server.fetchStreamUrl later id st'))
             = S (Server.getInfoCallsFor id st').
Proof.
  intros stackOf st now p id info error Hreach Hawait Hfail st'.
  pose proof (reachable_consistent stackOf st Hreach) as Hst.
  pose proof (getInfoSettles_consistent stackOf now p info st Hst) as Hst'.
  fold st' in Hst'.
  pose proof (Server.awaiting_is_pending st Hst p id Hawait) as Hpending.
  pose proof (Server.pending_not_cached st Hst id p Hpending) as Hcache.
  assert (Server.streamUrlCache st' = Server.streamUrlCache st) as Hsame.
  { subst st'. unfold Server.getInfoSettles. rewrite Hawait, Hfail. reflexivity. }
  assert (Server.pendingStreamRequests st' !! id = None) as Hgone.
  { subst st'. unfold Server.getInfoSettles. rewrite Hawait. simpl. apply lookup_delete_eq. }
  assert (Server.settled st' !! p = Some (Server.Rejected error)) as Hsettled.
  { subst st'. unfold Server.getInfoSettles. rewrite Hawait, Hfail. simpl.
    apply lookup_insert_eq. }
  assert (Server.nextPromise st' = Server.nextPromise st) as Hnext.
  { subst st'. unfold Server.getInfoSettles. now rewrite Hawait. }
  split; [exact Hsame|]. split; [now rewrite Hsame|]. split; [exact Hgone|].
  split.
  { subst st'. unfold Server.getInfoSettles. rewrite Hawait. simpl. apply lookup_delete_eq. }
  split; [exact Hsettled|].
  intros later.
  destruct (fetchStreamUrl_not_cached later id st' Hst') as (fresh & Hfst & Hp & _ & Hcalls).
  { now rewrite Hsame. }
  rewrite Hgone in Hcalls. destruct Hcalls as [-> Hcalls].
  exists (Server.nextPromise st'). split; [exact Hfst|].
  pose proof (Server.settled_are_old st' Hst' p _ Hsettled) as Hold.
  split; [lia|]. split.
  - destruct (Server.settled st' !! Server.nextPromise st') as [o|] eqn:E; [|reflexivity].
    apply (Server.settled_are_old st' Hst') in E. lia.
  - split; [|exact Hcalls].
    apply (Server.pending_is_awaiting _ (fetchStreamUrl_consistent later id st' Hst')).
    exact Hp.
Qed.

(** The theorem at work: the extraction of the one call made so far finds
    no audio format. *)
Lemma failed_resolution_is_not_cached_and_not_stuck_witness :
  let st := snd (Server.exec (fun msg => msg)
                   (Server.CallFetchStreamUrl 0 "dQw4w9WgXcQ") Server.initial) in
  let st' := Server.getInfoSettles (fun msg => msg) 5000 0 (Server.InfoResolved []) st in
  Server.streamUrlCache st' = Server.streamUrlCache st
  /\ Server.streamUrlCache st' !! "dQw4w9WgXcQ"%string = None
  /\ Server.pendingStreamRequests st' !! "dQw4w9WgXcQ"%string = None
  /\ Server.awaitingGetInfo st' !! 0%nat = None
  /\ Server.settled st' !! 0%nat
     = Some (Server.Rejected (Js.mkError "Error" "No audio formats found" "No audio formats found"))
  /\ forall later,
      exists fresh,
        fst (Server.fetchStreamUrl later "dQw4w9WgXcQ" st') = Server.Adopts fresh
        /\ fresh <> 0%nat
        /\ Server.settled st' !! fresh = None
        /\ Server.awaitingGetInfo (snd (Server.fetchStreamUrl later "dQw4w9WgXcQ" st')) !! fresh
           = Some "dQw4w9WgXcQ"%string
        /\ Server.getInfoCallsFor "dQw4w9WgXcQ" (snd (Server.fetchStreamUrl later "dQw4w9WgXcQ" st'))
           = S (Server.getInfoCallsFor "dQw4w9WgXcQ" st').
Proof.
  intros st st'.
  refine (failed_resolution_is_not_cached_and_not_stuck (fun msg => msg) st 5000 0%nat
            "dQw4w9WgXcQ"%string (Server.InfoResolved []) _ _ _ _).
  - apply Server.reachable_exec. apply Server.reachable_initial.
  - vm_compute. reflexivity.
  - vm_compute. reflexivity.
Defined.

(** * Further properties of the code *)

(** ** The caches: sweeps, reads and puts *)

Section SweepFacts.
Import Cache.

Lemma sweepStreams_lookup now (c : gmap string streamEntry) k :
  sweepStreams now c !! k
  = match c !! k with
    | Some e => if STREAM_CACHE_TTL_MS <? now - timestamp e then None else Some e
    | None => None
    end.
Proof.
  unfold sweepStreams.
  destruct (c !! k) as [e|] eqn:Hk.
  - destruct (STREAM_CACHE_TTL_MS <? now - timestamp e) eqn:Hold.
    + apply map_lookup_filter_None. right. intros e' He'. simpl.
      rewrite Hk in He'. injection He' as <-. now rewrite Hold.
    + apply map_lookup_filter_Some. split; [exact Hk|]. simpl. now rewrite Hold.
  - apply map_lookup_filter_None. now left.
Qed.

Lemma sweepInfo_lookup now (c : gmap string infoEntry) k :
  sweepInfo now c !! k
  = match c !! k with
    | Some e => if INFO_CACHE_TTL_MS <? now - infoTimestamp e then None else Some e
    | None => None
    end.
Proof.
  unfold sweepInfo.
  destruct (c !! k) as [e|] eqn:Hk.
  - destruct (INFO_CACHE_TTL_MS <? now - infoTimestamp e) eqn:Hold.
    + apply map_lookup_filter_None. right. intros e' He'. simpl.
      rewrite Hk in He'. injection He' as <-. now rewrite Hold.
    + apply map_lookup_filter_Some. split; [exact Hk|]. simpl. now rewrite Hold.
  - apply map_lookup_filter_None. now left.
Qed.

Lemma sweepStreams_delete now k (c : gmap string streamEntry) :
  sweepStreams now (delete k c) = delete k (sweepStreams now c).
Proof.
  apply map_eq. intros j. rewrite sweepStreams_lookup.
  destruct (decide (j = k)) as [-> | Hne].
  - now rewrite !lookup_delete_eq.
  - rewrite !lookup_delete_ne by congruence. now rewrite sweepStreams_lookup.
Qed.

Lemma sweepInfo_delete now k (c : gmap string infoEntry) :
  sweepInfo now (delete k c) = delete k (sweepInfo now c).
Proof.
  apply map_eq. intros j. rewrite sweepInfo_lookup.
  destruct (decide (j = k)) as [-> | Hne].
  - now rewrite !lookup_delete_eq.
  - rewrite !lookup_delete_ne by congruence. now rewrite sweepInfo_lookup.
Qed.

Lemma delete_absent {A} k (c : gmap string A) : c !! k = None -> delete k c = c.
Proof.
  intros Hk. apply map_eq. intros j. destruct (decide (j = k)) as [-> | Hne].
  - now rewrite lookup_delete_eq.
  - now rewrite lookup_delete_ne by congruence.
Qed.

Lemma sweep_then_getCachedStreamUrl sweptAt now k (c : gmap string streamEntry) :
  sweptAt <= now ->
  getCachedStreamUrl now k (sweepStreams sweptAt c)
  = (fst (getCachedStreamUrl now k c), sweepStreams sweptAt (snd (getCachedStreamUrl now k c))).
Proof.
  intros Hle. unfold getCachedStreamUrl. rewrite sweepStreams_lookup.
  destruct (c !! k) as [e|] eqn:Hk; [|reflexivity].
  destruct (STREAM_CACHE_TTL_MS <? sweptAt - timestamp e) eqn:Hswept.
  - apply Z.ltb_lt in Hswept.
    assert ((STREAM_CACHE_TTL_MS <? now - timestamp e) = true) as -> by (apply Z.ltb_lt; lia).
    simpl. rewrite sweepStreams_delete. rewrite delete_absent; [reflexivity|].
    rewrite sweepStreams_lookup, Hk.
    now apply Z.ltb_lt in Hswept as ->.
  - destruct (STREAM_CACHE_TTL_MS <? now - timestamp e); simpl.
    + now rewrite sweepStreams_delete.
    + reflexivity.
Qed.

Lemma sweep_then_getCachedVideoInfo sweptAt now k (c : gmap string infoEntry) :
  sweptAt <= now ->
  getCachedVideoInfo now k (sweepInfo sweptAt c)
  = (fst (getCachedVideoInfo now k c), sweepInfo sweptAt (snd (getCachedVideoInfo now k c))).
Proof.
  intros Hle. unfold getCachedVideoInfo. rewrite sweepInfo_lookup.
  destruct (c !! k) as [e|] eqn:Hk; [|reflexivity].
  destruct (INFO_CACHE_TTL_MS <? sweptAt - infoTimestamp e) eqn:Hswept.
  - apply Z.ltb_lt in Hswept.
    assert ((INFO_CACHE_TTL_MS <? now - infoTimestamp e) = true) as -> by (apply Z.ltb_lt; lia).
    simpl. rewrite sweepInfo_delete. rewrite delete_absent; [reflexivity|].
    rewrite sweepInfo_lookup, Hk.
    now apply Z.ltb_lt in Hswept as ->.
  - destruct (INFO_CACHE_TTL_MS <? now - infoTimestamp e); simpl.
    + now rewrite sweepInfo_delete.
    + reflexivity.
Qed.

End SweepFacts.

(** The periodic sweep is invisible to the lookups that follow it: in
    either cache, a lookup at the time of the sweep or later returns what
    it would have returned without the sweep, and sweeping before the
    lookup or after it leaves the same cache. *)
Theorem sweep_is_invisible_to_later_lookups :
  forall sweptAt now k,
    sweptAt <= now ->
    (forall c : gmap string Cache.streamEntry,
        fst (Cache.getCachedStreamUrl now k (Cache.sweepStreams sweptAt c))
        = fst (Cache.getCachedStreamUrl now k c)
        /\ snd (Cache.getCachedStreamUrl now k (Cache.sweepStreams sweptAt c))
           = Cache.sweepStreams sweptAt (snd (Cache.getCachedStreamUrl now k c)))
    /\ (forall c : gmap string Cache.infoEntry,
        fst (Cache.getCachedVideoInfo now k (Cache.sweepInfo sweptAt c))
        = fst (Cache.getCachedVideoInfo now k c)
        /\ snd (Cache.getCachedVideoInfo now k (Cache.sweepInfo sweptAt c))
           = Cache.sweepInfo sweptAt (snd (Cache.getCachedVideoInfo now k c))).
Proof.
  intros sweptAt now k Hle. split; intros c.
  - now rewrite sweep_then_getCachedStreamUrl.
  - now rewrite sweep_then_getCachedVideoInfo.
Qed.

(** The theorem at work: an entry put at time 0 and another put two hours
    later, a sweep after three hours and a half, a lookup after four. *)
Lemma sweep_is_invisible_to_later_lookups_witness :
  let c := Cache.setCachedStreamUrl 7200000 "kJQP7kiw5Fk" "https://cdn/b"
             (Cache.setCachedStreamUrl 0 "dQw4w9WgXcQ" "https://cdn/a" ∅) in
  fst (Cache.getCachedStreamUrl 14400000 "kJQP7kiw5Fk" (Cache.sweepStreams 12600000 c))
  = fst (Cache.getCachedStreamUrl 14400000 "kJQP7kiw5Fk" c)
  /\ snd (Cache.getCachedStreamUrl 14400000 "kJQP7kiw5Fk" (Cache.sweepStreams 12600000 c))
     = Cache.sweepStreams 12600000 (snd (Cache.getCachedStreamUrl 14400000 "kJQP7kiw5Fk" c)).
Proof.
  intros c.
  refine (proj1 (sweep_is_invisible_to_later_lookups 12600000 14400000 "kJQP7kiw5Fk" _) c).
  lia.
Defined.

Section ReadFacts.
Import Cache.

Lemma getCachedInfo_subset now id (c : gmap string infoEntry) k e :
  snd (getCachedVideoInfo now id c) !! k = Some e -> c !! k = Some e.
Proof.
  unfold getCachedVideoInfo. destruct (c !! id) as [cached|]; simpl; [|auto].
  destruct (_ <? _); simpl; [|auto].
  intros H. apply lookup_delete_Some in H. tauto.
Qed.

(** Lookups, whatever identifiers they are for and whenever they come, add
    no entry and alter none. *)
Lemma lookups_subset (reads : list (Z * string)) k e :
  forall c : gmap string streamEntry,
    fold_left (fun m r => snd (getCachedStreamUrl (fst r) (snd r) m)) reads c !! k = Some e ->
    c !! k = Some e.
Proof.
  induction reads as [|r reads IH]; intros c; simpl; [auto|].
  intros H. apply IH in H. now apply getCached_subset in H.
Qed.

Lemma infoLookups_subset (reads : list (Z * string)) k e :
  forall c : gmap string infoEntry,
    fold_left (fun m r => snd (getCachedVideoInfo (fst r) (snd r) m)) reads c !! k = Some e ->
    c !! k = Some e.
Proof.
  induction reads as [|r reads IH]; intros c; simpl; [auto|].
  intros H. apply IH in H. now apply getCachedInfo_subset in H.
Qed.

End ReadFacts.

(** Reading an entry does not extend its life.  In either cache, once the
    time-to-live has passed since the put, a lookup misses, whatever
    lookups (of this identifier or of others, hits or misses) were made in
    between. *)
Theorem reads_do_not_extend_the_life_of_an_entry :
  forall putAt now k (reads : list (Z * string)),
    (forall v (c : gmap string Cache.streamEntry),
        Cache.STREAM_CACHE_TTL_MS < now - putAt ->
        fst (Cache.getCachedStreamUrl now k
               (fold_left (fun m r => snd (Cache.getCachedStreamUrl (fst r) (snd r) m)) reads
                  (Cache.setCachedStreamUrl putAt k v c)))
        = None)
    /\ (forall i (c : gmap string Cache.infoEntry),
           Cache.INFO_CACHE_TTL_MS < now - putAt ->
           fst (Cache.getCachedVideoInfo now k
                  (fold_left (fun m r => snd (Cache.getCachedVideoInfo (fst r) (snd r) m)) reads
                     (Cache.setCachedVideoInfo putAt k i c)))
           = None).
Proof.
  intros putAt now k reads. split.
  - intros v c Hold. unfold Cache.getCachedStreamUrl at 1.
    destruct (fold_left _ reads _ !! k) as [e|] eqn:Hk; [|reflexivity].
    apply lookups_subset in Hk. unfold Cache.setCachedStreamUrl in Hk.
    rewrite lookup_insert_eq in Hk. injection Hk as <-. simpl.
    apply Z.ltb_lt in Hold. now rewrite Hold.
  - intros i c Hold. unfold Cache.getCachedVideoInfo at 1.
    destruct (fold_left _ reads _ !! k) as [e|] eqn:Hk; [|reflexivity].
    apply infoLookups_subset in Hk. unfold Cache.setCachedVideoInfo in Hk.
    rewrite lookup_insert_eq in Hk. injection Hk as <-. simpl.
    apply Z.ltb_lt in Hold. now rewrite Hold.
Qed.

(** The theorem at work: a URL put at time 0 and read every hour is gone
    one millisecond after the third hour. *)
Lemma reads_do_not_extend_the_life_of_an_entry_witness :
  fst (Cache.getCachedStreamUrl 10800001 "dQw4w9WgXcQ"
         (fold_left (fun m r => snd (Cache.getCachedStreamUrl (fst r) (snd r) m))
            [(3600000, "dQw4w9WgXcQ"); (7200000, "dQw4w9WgXcQ"); (10800000, "dQw4w9WgXcQ")]%string
            (Cache.setCachedStreamUrl 0 "dQw4w9WgXcQ" "https://cdn/a" ∅)))
  = None.
Proof.
  refine (proj1 (reads_do_not_extend_the_life_of_an_entry 0 10800001 "dQw4w9WgXcQ" _) _ _ _).
  vm_compute. reflexivity.
Defined.

(** ** Stream resolution: the cache and the extractions in flight *)

Section ResolutionFacts.
Import Server.

Lemma withCache_same st : withCache (streamUrlCache st) st = st.
Proof. now destruct st. Qed.

Lemma truthy_nonempty s : Js.truthy s = true <-> s <> ""%string.
Proof.
  unfold Js.truthy. destruct (String.eqb_spec s ""); simpl; split; congruence.
Qed.

(** A call of [fetchStreamUrl] for an identifier whose entry is within its
    time-to-live. *)
Lemma fetchStreamUrl_hit now id e st :
  consistent st ->
  streamUrlCache st !! id = Some e ->
  now - Cache.timestamp e <= Cache.STREAM_CACHE_TTL_MS ->
  fetchStreamUrl now id st = (Fulfilled (Cache.url e), st).
Proof.
  intros Hst Hk Hfresh. unfold fetchStreamUrl, Cache.getCachedStreamUrl.
  rewrite Hk. apply Z.ltb_ge in Hfresh. rewrite Hfresh.
  unfold Js.whenTruthy. rewrite (cached_urls_truthy st Hst id e Hk).
  now rewrite withCache_same.
Qed.

(** A call of [fetchStreamUrl] for an identifier whose entry has
    expired. *)
Lemma fetchStreamUrl_expired now id e st :
  consistent st ->
  streamUrlCache st !! id = Some e ->
  Cache.STREAM_CACHE_TTL_MS < now - Cache.timestamp e ->
  fst (fetchStreamUrl now id st) = Adopts (nextPromise st)
  /\ streamUrlCache (snd (fetchStreamUrl now id st)) = delete id (streamUrlCache st)
  /\ awaitingGetInfo (snd (fetchStreamUrl now id st)) !! nextPromise st = Some id
  /\ getInfoCallsFor id (snd (fetchStreamUrl now id st)) = S (getInfoCallsFor id st).
Proof.
  intros Hst Hk Hold.
  assert (pendingStreamRequests st !! id = None) as Hpending.
  { destruct (pendingStreamRequests st !! id) as [p|] eqn:Hp; [|reflexivity].
    apply (pending_not_cached st Hst) in Hp. congruence. }
  unfold fetchStreamUrl, Cache.getCachedStreamUrl.
  rewrite Hk. apply Z.ltb_lt in Hold. rewrite Hold. simpl. rewrite Hpending. simpl.
  repeat split.
  - apply lookup_insert_eq.
  - unfold getInfoCallsFor. simpl. rewrite count_occ_app. simpl.
    destruct (String.string_dec id id); [lia | contradiction].
Qed.

End ResolutionFacts.

(** A cached stream URL is served without any extraction for three hours,
    and extracted anew after that.  In every state the server reaches, a
    call of [fetchStreamUrl] for an identifier whose entry is no older than
    the time-to-live returns the cached URL and leaves the state as it is:
    [ytdl.getInfo] is not called and nothing becomes pending.  A call after
    the time-to-live deletes the entry, calls [ytdl.getInfo] once and
    returns the promise of that extraction. *)
Theorem cached_url_is_served_then_extracted_anew :
  forall stackOf st now id e,
    Server.reachable stackOf st ->
    Server.streamUrlCache st !! id = Some e ->
    (now - Cache.timestamp e <= Cache.STREAM_CACHE_TTL_MS ->
     Server.fetchStreamUrl now id st = (Server.Fulfilled (Cache.url e), st))
    /\ (Cache.STREAM_CACHE_TTL_MS < now - Cache.timestamp e ->
        exists p,
          fst (Server.fetchStreamUrl now id st) = Server.Adopts p
          /\ Server.settled st !! p = None
          /\ Server.streamUrlCache (snd (Server.fetchStreamUrl now id st)) !! id = None
          /\ Server.awaitingGetInfo (snd (Server.fetchStreamUrl now id st)) !! p = Some id
          /\ Server.getInfoCallsFor id (snd (Server.fetchStreamUrl now id st))
             = S (Server.getInfoCallsFor id st)).
Proof.
  intros stackOf st now id e Hreach Hk.
  pose proof (reachable_consistent stackOf st Hreach) as Hst.
  split.
  - intros Hfresh. now apply fetchStreamUrl_hit.
  - intros Hold.
    destruct (fetchStreamUrl_expired now id e st Hst Hk Hold) as (Hfst & Hcache & Hawait & Hcalls).
    exists (Server.nextPromise st). split; [exact Hfst|]. split.
    { destruct (Server.settled st !! Server.nextPromise st) as [o|] eqn:E; [|reflexivity].
      apply (Server.settled_are_old st Hst) in E. lia. }
    split; [|split; assumption].
    rewrite Hcache. apply lookup_delete_eq.
Qed.

(** When an extraction succeeds, its URL is cached under the identifier with
    the time of the settlement, as one entry more (no entry is replaced and
    none is evicted), the identifier is no longer pending, the promise is
    fulfilled with the URL, which is not empty, and every call of
    [fetchStreamUrl] for the identifier within the time-to-live returns
    that URL without another extraction. *)
Theorem successful_resolution_is_cached_once :
  forall stackOf st now p id info directUrl,
    Server.reachable stackOf st ->
    Server.awaitingGetInfo st !! p = Some id ->
    Server.resolveStream stackOf info = Server.Resolved directUrl ->
    let st' := Server.getInfoSettles stackOf now p info st in
    Server.streamUrlCache st' !! id = Some {| Cache.url := directUrl; Cache.timestamp := now |}
    /\ size (Server.streamUrlCache st') = S (size (Server.streamUrlCache st))
    /\ (forall other, other <> id ->
                      Server.streamUrlCache st' !! other = Server.streamUrlCache st !! other)
    /\ Server.pendingStreamRequests st' !! id = None
    /\ Server.settled st' !! p = Some (Server.Resolved directUrl)
    /\ directUrl <> ""%string
    /\ Server.getInfoCalls st' = Server.getInfoCalls st
    /\ forall later,
        later - now <= Cache.STREAM_CACHE_TTL_MS ->
        Server.fetchStreamUrl later id st' = (Server.Fulfilled directUrl, st').
Proof.
  intros stackOf st now p id info directUrl Hreach Hawait Hok st'.
  pose proof (reachable_consistent stackOf st Hreach) as Hst.
  pose proof (getInfoSettles_consistent stackOf now p info st Hst) as Hst'.
  fold st' in Hst'.
  pose proof (Server.awaiting_is_pending st Hst p id Hawait) as Hpending.
  pose proof (Server.pending_not_cached st Hst id p Hpending) as Habsent.
  assert (Server.streamUrlCache st'
          = Cache.setCachedStreamUrl now id directUrl (Server.streamUrlCache st)) as Hcache.
  { subst st'. unfold Server.getInfoSettles. rewrite Hawait, Hok. reflexivity. }
  assert (Server.streamUrlCache st' !! id
          = Some {| Cache.url := directUrl; Cache.timestamp := now |}) as Hentry.
  { rewrite Hcache. apply lookup_insert_eq. }
  split; [exact Hentry|]. split.
  { rewrite Hcache. now apply setCachedStreamUrl_size_absent. }
  split.
  { intros other Hne. rewrite Hcache. unfold Cache.setCachedStreamUrl.
    apply lookup_insert_ne. congruence. }
  split.
  { subst st'. unfold Server.getInfoSettles. rewrite Hawait. simpl. apply lookup_delete_eq. }
  split.
  { subst st'. unfold Server.getInfoSettles. rewrite Hawait, Hok. simpl.
    apply lookup_insert_eq. }
  split.
  { apply truthy_nonempty. now apply (resolveStream_truthy stackOf info). }
  split.
  { subst st'. unfold Server.getInfoSettles. now rewrite Hawait. }
  intros later Hfresh.
  apply (fetchStreamUrl_hit later id _ st' Hst' Hentry). exact Hfresh.
Qed.

Lemma reachable_run stackOf evs :
  forall st, Server.reachable stackOf st ->
             Server.reachable stackOf (snd (Server.run stackOf evs st)).
Proof.
  induction evs as [|ev evs IH]; intros st Hst; simpl; [exact Hst|].
  pose proof (Server.reachable_exec stackOf ev st Hst) as Hnext.
  destruct (Server.exec stackOf ev st) as [r st1]. simpl in Hnext.
  specialize (IH st1 Hnext).
  destruct (Server.run stackOf evs st1) as [rs st2]. exact IH.
Qed.

(** The theorems at work: one call for an identifier, and its extraction
    settling ten milliseconds later with the one audio format of the
    sample. *)
Lemma cached_url_is_served_then_extracted_anew_witness :
  let st := snd (Server.run (fun msg => msg)
                   [Server.CallFetchStreamUrl 0 "dQw4w9WgXcQ";
                    Server.GetInfoSettles 10 0 (Server.InfoResolved [Samples.webmAt256])]
                   Server.initial) in
  Server.fetchStreamUrl 10800010 "dQw4w9WgXcQ" st
  = (Server.Fulfilled "https://cdn.example/audio.webm", st)
  /\ exists p,
      fst (Server.fetchStreamUrl 10800011 "dQw4w9WgXcQ" st) = Server.Adopts p
      /\ Server.settled st !! p = None
      /\ Server.streamUrlCache (snd (Server.fetchStreamUrl 10800011 "dQw4w9WgXcQ" st))
           !! "dQw4w9WgXcQ"%string = None
      /\ Server.awaitingGetInfo (snd (Server.fetchStreamUrl 10800011 "dQw4w9WgXcQ" st)) !! p
         = Some "dQw4w9WgXcQ"%string
      /\ Server.getInfoCallsFor "dQw4w9WgXcQ"
           (snd (Server.fetchStreamUrl 10800011 "dQw4w9WgXcQ" st))
         = S (Server.getInfoCallsFor "dQw4w9WgXcQ" st).
Proof.
  intros st.
  assert (Server.reachable (fun msg => msg) st) as Hreach
    by (apply reachable_run; apply Server.reachable_initial).
  assert (Server.streamUrlCache st !! "dQw4w9WgXcQ"%string
          = Some {| Cache.url := "https://cdn.example/audio.webm"; Cache.timestamp := 10 |})
    as Hk by (vm_compute; reflexivity).
  split.
  - refine (proj1 (cached_url_is_served_then_extracted_anew _ st 10800010 _ _ Hreach Hk) _).
    vm_compute. discriminate.
  - refine (proj2 (cached_url_is_served_then_extracted_anew _ st 10800011 _ _ Hreach Hk) _).
    vm_compute. reflexivity.
Defined.

Lemma successful_resolution_is_cached_once_witness :
  let st := snd (Server.exec (fun msg => msg)
                   (Server.CallFetchStreamUrl 0 "dQw4w9WgXcQ") Server.initial) in
  let st' := Server.getInfoSettles (fun msg => msg) 10 0
               (Server.InfoResolved [Samples.mp4At128; Samples.webmAt256]) st in
  Server.streamUrlCache st' !! "dQw4w9WgXcQ"%string
  = Some {| Cache.url := "https://cdn.example/audio.webm"; Cache.timestamp := 10 |}
  /\ size (Server.streamUrlCache st') = S (size (Server.streamUrlCache st))
  /\ Server.pendingStreamRequests st' !! "dQw4w9WgXcQ"%string = None
  /\ Server.fetchStreamUrl 10800010 "dQw4w9WgXcQ" st'
     = (Server.Fulfilled "https://cdn.example/audio.webm", st').
Proof.
  intros st st'.
  destruct (successful_resolution_is_cached_once (fun msg => msg) st 10 0 "dQw4w9WgXcQ"
              (Server.InfoResolved [Samples.mp4At128; Samples.webmAt256])
              "https://cdn.example/audio.webm")
    as (Hentry & Hsize & _ & Hpending & _ & _ & _ & Hserved).
  - apply Server.reachable_exec. apply Server.reachable_initial.
  - vm_compute. reflexivity.
  - vm_compute. reflexivity.
  - split; [exact Hentry|]. split; [exact Hsize|]. split; [exact Hpending|].
    apply Hserved. vm_compute. discriminate.
Defined.

(** What the server keeps true of its shared state, whatever the calls,
    settlements, lookups, sweeps and clears that led to it: a cached URL is
    never empty; an identifier is never cached and pending at once; the
    pending entries and the extractions in flight correspond one to one, so
    no pending entry outlives its extraction; and a promise in flight has
    no outcome yet. *)
Theorem cache_and_pending_requests_stay_apart :
  forall stackOf st,
    Server.reachable stackOf st ->
    (forall id e, Server.streamUrlCache st !! id = Some e -> Cache.url e <> ""%string)
    /\ (forall id p, Server.pendingStreamRequests st !! id = Some p ->
                     Server.streamUrlCache st !! id = None)
    /\ (forall id p, Server.pendingStreamRequests st !! id = Some p <->
                     Server.awaitingGetInfo st !! p = Some id)
    /\ (forall id p, Server.pendingStreamRequests st !! id = Some p ->
                     Server.settled st !! p = None).
Proof.
  intros stackOf st Hreach.
  pose proof (reachable_consistent stackOf st Hreach) as Hst.
  split; [|split; [|split]].
  - intros id e Hk. apply truthy_nonempty. now apply (Server.cached_urls_truthy st Hst id).
  - apply (Server.pending_not_cached st Hst).
  - intros id p. split.
    + apply (Server.pending_is_awaiting st Hst).
    + apply (Server.awaiting_is_pending st Hst).
  - intros id p Hp. apply (Server.pending_is_awaiting st Hst) in Hp.
    now destruct (Server.awaiting_not_settled st Hst p id Hp).
Qed.

(** The theorem at work: two identifiers requested, the extraction of the
    first settled, the cache cleared, the first requested again. *)
Lemma cache_and_pending_requests_stay_apart_witness :
  let st := snd (Server.run (fun msg => msg)
                   [Server.CallFetchStreamUrl 0 "dQw4w9WgXcQ";
                    Server.CallFetchStreamUrl 1 "kJQP7kiw5Fk";
                    Server.GetInfoSettles 10 0 (Server.InfoResolved [Samples.webmAt256]);
                    Server.CacheClear;
                    Server.CallFetchStreamUrl 20 "dQw4w9WgXcQ"]
                   Server.initial) in
  Server.pendingStreamRequests st !! "dQw4w9WgXcQ"%string = Some 2%nat
  /\ Server.streamUrlCache st !! "dQw4w9WgXcQ"%string = None
  /\ Server.settled st !! 2%nat = None.
Proof.
  intros st.
  assert (Server.pendingStreamRequests st !! "dQw4w9WgXcQ"%string = Some 2%nat) as Hp
    by (vm_compute; reflexivity).
  destruct (cache_and_pending_requests_stay_apart (fun msg => msg) st) as (_ & Hc & _ & Hs).
  - apply reachable_run. apply Server.reachable_initial.
  - split; [exact Hp|]. split; [exact (Hc _ _ Hp) | exact (Hs _ _ Hp)].
Defined.

Section HeadFacts.
Import Server.

Lemma getInfoCallsFor_withCache id c st :
  getInfoCallsFor id (withCache c st) = getInfoCallsFor id st.
Proof. reflexivity. Qed.

(** A call of [fetchStreamUrl] calls [ytdl.getInfo] at most once, and for
    its own identifier only. *)
Lemma fetchStreamUrl_calls now id st other :
  getInfoCallsFor other (snd (fetchStreamUrl now id st))
  = (getInfoCallsFor other st
     + match Js.whenTruthy (fst (Cache.getCachedStreamUrl now id (streamUrlCache st))),
             pendingStreamRequests st !! id with
       | None, None => if String.eqb id other then 1 else 0
       | _, _ => 0
       end)%nat.
Proof.
  unfold fetchStreamUrl.
  destruct (Cache.getCachedStreamUrl now id (streamUrlCache st)) as [cached cache]. simpl.
  destruct (Js.whenTruthy cached); simpl; [rewrite getInfoCallsFor_withCache; lia|].
  destruct (pendingStreamRequests st !! id); simpl; [rewrite getInfoCallsFor_withCache; lia|].
  unfold getInfoCallsFor. simpl. rewrite count_occ_app. simpl.
  destruct (String.string_dec id other) as [-> | Hne].
  - now rewrite String.eqb_refl.
  - apply String.eqb_neq in Hne. now rewrite Hne.
Qed.

End HeadFacts.

(** What the callback registered with [app.head] does when it is called.
    For an identifier that is not valid it ends the response with status
    400 and touches nothing.  For a valid one it ends the response with
    status 200, [Accept-Ranges: bytes] and the caching directive, whether
    or not the identifier can be resolved; and it calls [ytdl.getInfo]
    once when the identifier is neither cached nor pending, and not at all
    otherwise. *)
Theorem head_callback_answers_at_once_and_extracts_at_most_once :
  forall stackOf now later req st,
    Server.reachable stackOf st ->
    let answer := fst (Server.streamHead now later req st) in
    let st' := snd (Server.streamHead now later req st) in
    match Server.normalizeVideoId (Server.paramsVideoId req) with
    | None =>
        answer = {| Server.status := 400; Server.headers := ∅; Server.body := Server.EndedBody |}
        /\ st' = st
    | Some videoId =>
        Server.status answer = 200
        /\ Server.body answer = Server.EndedBody
        /\ Server.headers answer !! "accept-ranges"%string = Some "bytes"%string
        /\ Server.headers answer !! "cache-control"%string = Some "public, max-age=7200"%string
        /\ (forall other, other <> videoId ->
                          Server.getInfoCallsFor other st' = Server.getInfoCallsFor other st)
        /\ Server.getInfoCallsFor videoId st'
           = (Server.getInfoCallsFor videoId st
              + match fst (Cache.getCachedStreamUrl now videoId (Server.streamUrlCache st)),
                      Server.pendingStreamRequests st !! videoId with
                | None, None => 1
                | _, _ => 0
                end)%nat
    end.
Proof.
  intros stackOf now later req st Hreach answer st'. subst answer st'.
  pose proof (reachable_consistent stackOf st Hreach) as Hst.
  unfold Server.streamHead.
  destruct (Server.normalizeVideoId (Server.paramsVideoId req)) as [videoId|];
    [|split; reflexivity].
  pose proof (getCached_miss now videoId (Server.streamUrlCache st)
                (fun e => Server.cached_urls_truthy st Hst videoId e)) as Hmiss.
  assert (forall u, fst (Cache.getCachedStreamUrl now videoId (Server.streamUrlCache st)) = Some u ->
                    Js.truthy u = true) as Htruthy.
  { intros u. unfold Cache.getCachedStreamUrl.
    destruct (Server.streamUrlCache st !! videoId) as [e|] eqn:Hk; [|discriminate].
    destruct (_ <? _); [discriminate|]. simpl. intros [= <-].
    now apply (Server.cached_urls_truthy st Hst videoId). }
  destruct (Cache.getCachedStreamUrl now videoId (Server.streamUrlCache st)) as [cached cache].
  simpl in Hmiss, Htruthy |- *.
  destruct cached as [u|]; simpl.
  - rewrite (Htruthy u eq_refl). simpl.
    split; [reflexivity|]. split; [reflexivity|].
    split; [vm_compute; reflexivity|]. split; [vm_compute; reflexivity|]. split.
    + intros other _. apply getInfoCallsFor_withCache.
    + rewrite getInfoCallsFor_withCache. lia.
  - specialize (Hmiss eq_refl).
    split; [reflexivity|]. split; [reflexivity|].
    split; [vm_compute; reflexivity|]. split; [vm_compute; reflexivity|]. split.
    + intros other Hne. rewrite fetchStreamUrl_calls, getInfoCallsFor_withCache.
      destruct (Js.whenTruthy _); [lia|].
      destruct (Server.pendingStreamRequests _ !! videoId); [lia|].
      destruct (String.eqb_spec videoId other); [congruence | lia].
    + rewrite fetchStreamUrl_calls, getInfoCallsFor_withCache. simpl.
      unfold Cache.getCachedStreamUrl. rewrite Hmiss. simpl.
      destruct (Server.pendingStreamRequests st !! videoId); [lia|].
      now rewrite String.eqb_refl.
Qed.

(** The theorem at work: the callback called twice for one identifier, an
    invalid identifier in between: one extraction in all. *)
Lemma head_callback_answers_at_once_and_extracts_at_most_once_witness :
  let req := {| Server.paramsVideoId := "dQw4w9WgXcQ"; Server.headersRange := None |} in
  let st1 := snd (Server.streamHead 0 0 req Server.initial) in
  let st2 := snd (Server.streamHead 5 5 req st1) in
  Server.status (fst (Server.streamHead 0 0 req Server.initial)) = 200
  /\ Server.getInfoCallsFor "dQw4w9WgXcQ" st1 = 1%nat
  /\ Server.getInfoCallsFor "dQw4w9WgXcQ" st2 = 1%nat.
Proof.
  intros req st1 st2.
  pose proof (head_callback_answers_at_once_and_extracts_at_most_once (fun msg => msg)
                0 0 req Server.initial (Server.reachable_initial _)) as H1.
  pose proof (head_callback_answers_at_once_and_extracts_at_most_once (fun msg => msg)
                5 5 req st1
                (Server.reachable_exec _ (Server.CallFetchStreamUrl 0 "dQw4w9WgXcQ")
                   Server.initial (Server.reachable_initial _))) as H2.
  cbv zeta in H1, H2.
  change (Server.normalizeVideoId (Server.paramsVideoId req))
    with (Some "dQw4w9WgXcQ"%string) in H1, H2.
  destruct H1 as (Hstatus & _ & _ & _ & _ & Hcalls1).
  destruct H2 as (_ & _ & _ & _ & _ & Hcalls2).
  split; [exact Hstatus|]. split.
  - exact Hcalls1.
  - subst st2 st1. rewrite Hcalls2, Hcalls1. vm_compute. reflexivity.
Defined.

(** ** The stream endpoint: what is relayed, fetched and answered *)

Section StreamFacts.
Import Server.

Lemma relayHeaders_other upstream name :
  ~ In name ["cache-control"; "accept-ranges"; "content-type";
             "content-length"; "content-range"]%string ->
  relayHeaders upstream !! name = None.
Proof.
  intros Hname. unfold relayHeaders, setHeader. cbv zeta.
  change (Chars.lower (list_ascii_of_string "Cache-Control")) with "cache-control"%string.
  change (Chars.lower (list_ascii_of_string "Accept-Ranges")) with "accept-ranges"%string.
  change (Chars.lower (list_ascii_of_string "Content-Type")) with "content-type"%string.
  change (Chars.lower (list_ascii_of_string "Content-Length")) with "content-length"%string.
  change (Chars.lower (list_ascii_of_string "Content-Range")) with "content-range"%string.
  simpl in Hname.
  destruct (Js.whenTruthy (upstreamHeaders upstream !! "content-length"%string)) as [cl|];
    destruct (Js.whenTruthy (upstreamHeaders upstream !! "content-range"%string)) as [cr|];
    repeat (rewrite lookup_insert_ne by (intros <-; tauto));
    apply lookup_empty.
Qed.

Lemma relayHeaders_cache_control upstream :
  relayHeaders upstream !! "cache-control"%string = Some "public, max-age=7200"%string.
Proof.
  unfold relayHeaders, setHeader. cbv zeta.
  change (Chars.lower (list_ascii_of_string "Cache-Control")) with "cache-control"%string.
  change (Chars.lower (list_ascii_of_string "Accept-Ranges")) with "accept-ranges"%string.
  change (Chars.lower (list_ascii_of_string "Content-Type")) with "content-type"%string.
  change (Chars.lower (list_ascii_of_string "Content-Length")) with "content-length"%string.
  change (Chars.lower (list_ascii_of_string "Content-Range")) with "content-range"%string.
  destruct (Js.whenTruthy (upstreamHeaders upstream !! "content-length"%string)) as [cl|];
    destruct (Js.whenTruthy (upstreamHeaders upstream !! "content-range"%string)) as [cr|];
    repeat (rewrite lookup_insert_ne by discriminate);
    apply lookup_insert_eq.
Qed.

Lemma streamGet_fetch_failed nodeEnv req videoId directUrl error :
  normalizeVideoId (paramsVideoId req) = Some videoId ->
  interact (streamGet nodeEnv req) (Resolved directUrl) (FetchRejected error)
  = ([CalledFetchStreamUrl videoId; CalledFetch directUrl (upstreamRequestHeaders req)],
     streamFailed nodeEnv false videoId error).
Proof. intros Hid. unfold streamGet. rewrite Hid. reflexivity. Qed.

End StreamFacts.

(** The relayed response carries no header of the upstream response other
    than the four of the allow-list: whatever else upstream sends (cookies,
    its own caching directives) is dropped, and [Cache-Control] is always
    [public, max-age=7200].  The body is piped when upstream has one, and
    the response is ended without a body otherwise. *)
Theorem relay_drops_every_other_upstream_header :
  forall upstream,
    let relayed := Server.headers (Server.relay upstream) in
    relayed !! "cache-control"%string = Some "public, max-age=7200"%string
    /\ (forall name,
           ~ In name ["cache-control"; "accept-ranges"; "content-type";
                      "content-length"; "content-range"]%string ->
           relayed !! name = None)
    /\ Server.body (Server.relay upstream)
       = (if Server.upstreamHasBody upstream then Server.PipedBody else Server.EndedBody).
Proof.
  intros upstream relayed. subst relayed.
  change (Server.headers (Server.relay upstream)) with (Server.relayHeaders upstream).
  split; [apply relayHeaders_cache_control|]. split; [|reflexivity].
  intros name Hname. now apply relayHeaders_other.
Qed.

(** The theorem at work: upstream sets a cookie and forbids caching. *)
Lemma relay_drops_every_other_upstream_header_witness :
  let upstream :=
    {| Server.upstreamStatus := 200;
       Server.upstreamHeaders := {[ "set-cookie"%string := "session=1"%string;
                                    "cache-control"%string := "no-store"%string;
                                    "content-type"%string := "audio/webm"%string ]};
       Server.upstreamHasBody := true |} in
  Server.headers (Server.relay upstream) !! "set-cookie"%string = None
  /\ Server.headers (Server.relay upstream) !! "cache-control"%string
     = Some "public, max-age=7200"%string.
Proof.
  intros upstream.
  destruct (relay_drops_every_other_upstream_header upstream) as (Hcache & Hother & _).
  split; [|exact Hcache].
  apply Hother. simpl. intros [H | [H | [H | [H | [H | []]]]]]; discriminate.
Defined.

(** The GET handler fetches nothing but the URL that [fetchStreamUrl]
    resolved to: a fetch is made only for a valid identifier, only after a
    successful resolution, only once, with the resolved URL as its target
    and with the headers of the upstream request. *)
Theorem stream_handler_fetches_only_the_resolved_url :
  forall nodeEnv req resolution fetched,
    let calls := fst (Server.interact (Server.streamGet nodeEnv req) resolution fetched) in
    (Server.normalizeVideoId (Server.paramsVideoId req) = None -> calls = [])
    /\ (forall videoId,
           Server.normalizeVideoId (Server.paramsVideoId req) = Some videoId ->
           match resolution with
           | Server.Rejected _ => calls = [Server.CalledFetchStreamUrl videoId]
           | Server.Resolved directUrl =>
               calls = [Server.CalledFetchStreamUrl videoId;
                        Server.CalledFetch directUrl (Server.upstreamRequestHeaders req)]
           end)
    /\ (forall target requestHeaders,
           In (Server.CalledFetch target requestHeaders) calls ->
           resolution = Server.Resolved target).
Proof.
  intros nodeEnv req resolution fetched calls. subst calls.
  unfold Server.streamGet.
  destruct (Server.normalizeVideoId (Server.paramsVideoId req)) as [videoId|].
  - split; [discriminate|]. split.
    + intros ? [= <-]. destruct resolution as [directUrl | error]; simpl.
      * destruct fetched; reflexivity.
      * reflexivity.
    + intros target requestHeaders. destruct resolution as [directUrl | error]; simpl.
      * destruct fetched; simpl; intros [H | [H | []]]; congruence.
      * intros [H | []]. discriminate.
  - split; [reflexivity|]. split; [discriminate|]. intros ? ? [].
Qed.

Lemma stream_handler_fetches_only_the_resolved_url_witness :
  fst (Server.interact
         (Server.streamGet None
            {| Server.paramsVideoId := "https://youtu.be/dQw4w9WgXcQ";
               Server.headersRange := None |})
         (Server.Resolved "https://cdn.example/audio.webm")
         (Server.FetchRejected (Js.mkError "TypeError" "fetch failed" "")))
  = [Server.CalledFetchStreamUrl "dQw4w9WgXcQ";
     Server.CalledFetch "https://cdn.example/audio.webm"
       (Server.upstreamRequestHeaders
          {| Server.paramsVideoId := "https://youtu.be/dQw4w9WgXcQ";
             Server.headersRange := None |})].
Proof.
  refine (proj1 (proj2 (stream_handler_fetches_only_the_resolved_url None
            {| Server.paramsVideoId := "https://youtu.be/dQw4w9WgXcQ";
               Server.headersRange := None |}
            (Server.Resolved "https://cdn.example/audio.webm")
            (Server.FetchRejected (Js.mkError "TypeError" "fetch failed" ""))))
            "dQw4w9WgXcQ"%string _).
  vm_compute. reflexivity.
Defined.

(** A failure of the upstream fetch is answered as a failure of the
    resolution is: the handler sends the response of its [catch] block for
    the error, whichever of the two [await]s threw it.  So the fetch being
    aborted (the client went away) gets no response, and any other fetch
    error gets the JSON error with status 404 when its message includes
    "unavailable" and 500 otherwise. *)
Theorem fetch_failure_is_answered_like_a_resolution_failure :
  forall nodeEnv req videoId directUrl error fetched,
    Server.normalizeVideoId (Server.paramsVideoId req) = Some videoId ->
    snd (Server.interact (Server.streamGet nodeEnv req)
           (Server.Resolved directUrl) (Server.FetchRejected error))
    = snd (Server.interact (Server.streamGet nodeEnv req) (Server.Rejected error) fetched)
    /\ (Js.name error = "AbortError"%string ->
        snd (Server.interact (Server.streamGet nodeEnv req)
               (Server.Resolved directUrl) (Server.FetchRejected error))
        = None)
    /\ (Js.name error <> "AbortError"%string ->
        exists fields,
          snd (Server.interact (Server.streamGet nodeEnv req)
                 (Server.Resolved directUrl) (Server.FetchRejected error))
          = Some {| Server.status :=
                      if Js.includes "unavailable"
                           (Js.orDefault (Some (Js.message error)) "Failed to stream audio")
                      then 404 else 500;
                    Server.headers := ∅;
                    Server.body := Server.JsonBody fields |}
          /\ In ("videoId"%string, videoId) fields).
Proof.
  intros nodeEnv req videoId directUrl error fetched Hid.
  rewrite (streamGet_fetch_failed nodeEnv req videoId directUrl error Hid).
  rewrite (streamGet_resolution_failed nodeEnv req videoId error fetched Hid).
  split; [reflexivity|]. split.
  - intros Hname. simpl. now apply streamFailed_abort.
  - intros Hname. simpl.
    pose proof (streamFailed_json nodeEnv videoId error Hname) as Hjson.
    cbv zeta in Hjson. rewrite Hjson. eexists. split; [reflexivity|].
    right. now left.
Qed.

Lemma fetch_failure_is_answered_like_a_resolution_failure_witness :
  exists fields,
    snd (Server.interact
           (Server.streamGet (Some "production"%string)
              {| Server.paramsVideoId := "dQw4w9WgXcQ"; Server.headersRange := None |})
           (Server.Resolved "https://cdn.example/audio.webm")
           (Server.FetchRejected (Js.mkError "TypeError" "fetch failed" "")))
    = Some {| Server.status := 500;
              Server.headers := ∅;
              Server.body := Server.JsonBody fields |}
    /\ In ("videoId"%string, "dQw4w9WgXcQ"%string) fields.
Proof.
  refine (proj2 (proj2 (fetch_failure_is_answered_like_a_resolution_failure
            (Some "production"%string)
            {| Server.paramsVideoId := "dQw4w9WgXcQ"; Server.headersRange := None |}
            "dQw4w9WgXcQ"%string "https://cdn.example/audio.webm"
            (Js.mkError "TypeError" "fetch failed" "")
            (Server.FetchRejected (Js.mkError "TypeError" "fetch failed" "")) _)) _).
  - vm_compute. reflexivity.
  - discriminate.
Defined.

(** ** The identifier normalizer: what it returns, and on which inputs *)

Section NormalizerResults.
Import Chars Server.

Lemma validCandidate_inv x v :
  validCandidate x = Some v ->
  exists l, x = Some l /\ isVideoId l = true /\ v = string_of_list_ascii l.
Proof.
  unfold validCandidate. destruct x as [[|c l]|]; try discriminate.
  destruct (isVideoId (c :: l)) eqn:Hid; [|discriminate].
  intros [= <-]. now exists (c :: l).
Qed.

Lemma normalizeVideoId_inv input id :
  normalizeVideoId input = Some id ->
  exists l, isVideoId l = true /\ id = string_of_list_ascii l.
Proof.
  unfold normalizeVideoId.
  destruct (negb (Js.truthy input)); [discriminate|].
  destruct (isVideoId (trim (list_ascii_of_string input))) eqn:Hid.
  { intros [= <-]. now exists (trim (list_ascii_of_string input)). }
  destruct (Url.parse (trim (list_ascii_of_string input))) as [url|]; [|discriminate].
  destruct (validCandidate (Url.searchParamsGet "v" url)) as [v|] eqn:Hv.
  { intros [= <-]. apply validCandidate_inv in Hv as (l & _ & Hl & ->). now exists l. }
  intros Hc. apply validCandidate_inv in Hc as (l & _ & Hl & ->). now exists l.
Qed.

Lemma dropWhile_idempotent p l : dropWhile p (dropWhile p l) = dropWhile p l.
Proof.
  induction l as [|c l IH]; simpl; [reflexivity|].
  destruct (p c) eqn:Hc; [exact IH|]. simpl. now rewrite Hc.
Qed.

Lemma dropWhile_app_last p l c :
  p c = false -> dropWhile p (l ++ [c]) = dropWhile p l ++ [c].
Proof.
  intros Hc. induction l as [|x l IH]; simpl.
  - now rewrite Hc.
  - destruct (p x); [exact IH | reflexivity].
Qed.

(** What is left of a list whose first character stays, once its end is
    stripped, still starts with that character. *)
Lemma strip_end_keeps_head p l :
  dropWhile p l = l ->
  dropWhile p (rev (dropWhile p (rev l))) = rev (dropWhile p (rev l)).
Proof.
  destruct l as [|c l]; [reflexivity|]. simpl.
  destruct (p c) eqn:Hc.
  - intros H. exfalso.
    assert (length (dropWhile p l) <= length l)%nat as Hlen.
    { clear. induction l as [|x l IH]; simpl; [lia|]. destruct (p x); simpl; lia. }
    rewrite H in Hlen. simpl in Hlen. lia.
  - intros _. rewrite dropWhile_app_last by exact Hc.
    rewrite rev_app_distr. simpl. now rewrite Hc.
Qed.

Lemma strip_idempotent p l : strip p (strip p l) = strip p l.
Proof.
  unfold strip.
  rewrite (strip_end_keeps_head p (dropWhile p l)) by apply dropWhile_idempotent.
  now rewrite rev_involutive, dropWhile_idempotent.
Qed.

Lemma chars_empty (s : string) : list_ascii_of_string s = [] -> s = ""%string.
Proof. destruct s; [reflexivity | discriminate]. Qed.

Lemma truthy_chars (s : string) :
  Js.truthy s = match list_ascii_of_string s with [] => false | _ :: _ => true end.
Proof. destruct s; reflexivity. Qed.

End NormalizerResults.

(** Whatever [normalizeVideoId] returns is an identifier: eleven characters
    among letters, digits, [_] and [-]; and the normalizer returns its own
    result unchanged, so normalizing twice is normalizing once. *)
Theorem normalizeVideoId_returns_identifiers_only :
  forall input id,
    Server.normalizeVideoId input = Some id ->
    Server.isVideoId (list_ascii_of_string id) = true
    /\ String.length id = 11%nat
    /\ Server.normalizeVideoId id = Some id.
Proof.
  intros input id H. apply normalizeVideoId_inv in H as (l & Hl & ->).
  rewrite list_ascii_of_string_of_list_ascii.
  split; [exact Hl|]. split.
  - rewrite string_of_chars_length. now destruct (isVideoId_inv l Hl).
  - apply normalize_identifier. now rewrite list_ascii_of_string_of_list_ascii.
Qed.

(** The theorem at work on a watch URL with a time offset. *)
Lemma normalizeVideoId_returns_identifiers_only_witness :
  Server.isVideoId (list_ascii_of_string "dQw4w9WgXcQ") = true
  /\ String.length "dQw4w9WgXcQ" = 11%nat
  /\ Server.normalizeVideoId "dQw4w9WgXcQ" = Some "dQw4w9WgXcQ"%string.
Proof.
  apply (normalizeVideoId_returns_identifiers_only
           "https://www.youtube.com/watch?v=dQw4w9WgXcQ&t=42s" "dQw4w9WgXcQ").
  vm_compute. reflexivity.
Defined.

(** White space around the input does not count: the normalizer returns on
    an input what it returns on the input trimmed. *)
Theorem normalizeVideoId_ignores_surrounding_white_space :
  forall input,
    Server.normalizeVideoId input
    = Server.normalizeVideoId
        (string_of_list_ascii (Chars.trim (list_ascii_of_string input))).
Proof.
  intros input.
  assert (Chars.trim (list_ascii_of_string
                        (string_of_list_ascii (Chars.trim (list_ascii_of_string input))))
          = Chars.trim (list_ascii_of_string input)) as Htrim.
  { rewrite list_ascii_of_string_of_list_ascii. apply strip_idempotent. }
  unfold Server.normalizeVideoId. rewrite Htrim.
  rewrite (truthy_chars input), (truthy_chars (string_of_list_ascii _)).
  rewrite list_ascii_of_string_of_list_ascii.
  destruct (list_ascii_of_string input) as [|c l]; [reflexivity|].
  destruct (Chars.trim (c :: l)) as [|c' l']; reflexivity.
Qed.

(** The theorem at work: an identifier pasted with a space before it and a
    line break after it. *)
Lemma normalizeVideoId_ignores_surrounding_white_space_witness :
  Server.normalizeVideoId (String " " ("dQw4w9WgXcQ" +:+ String (ascii_of_nat 10) ""))
  = Server.normalizeVideoId "dQw4w9WgXcQ".
Proof.
  exact (normalizeVideoId_ignores_surrounding_white_space
           (String " " ("dQw4w9WgXcQ" +:+ String (ascii_of_nat 10) ""))).
Defined.

Section PlainUrls.
Import Chars Server Shapes.

Ltac by_all_chars :=
  let c := fresh "c" in
  intros c; destruct c as [[] [] [] [] [] [] [] []];
  vm_compute; solve [reflexivity | discriminate | intros; discriminate].

Lemma urlChar_not_whitespace : forall c, isUrlChar c = true -> isWhiteSpace c = false.
Proof. by_all_chars. Qed.
Lemma urlChar_not_c0_or_space : forall c, isUrlChar c = true -> (code c <=? 32)%nat = false.
Proof. by_all_chars. Qed.
Lemma urlChar_not_tab_or_newline : forall c, isUrlChar c = true -> Url.isTabOrNewline c = false.
Proof. by_all_chars. Qed.
Lemma urlChar_not_fragment : forall c, isUrlChar c = true -> Ascii.eqb c "#" = false.
Proof. by_all_chars. Qed.
Lemma hostChar_urlChar : forall c, isHostChar c = true -> isUrlChar c = true.
Proof. by_all_chars. Qed.
Lemma idChar_urlChar : forall c, isIdChar c = true -> isUrlChar c = true.
Proof. by_all_chars. Qed.
Lemma paramChar_urlChar : forall c, isParamChar c = true -> isUrlChar c = true.
Proof. by_all_chars. Qed.
Lemma hostChar_not_delimiter : forall c, isHostChar c = true -> oneOf "/\?#" c = false.
Proof. by_all_chars. Qed.
Lemma hostChar_not_any_slash : forall c, isHostChar c = true -> Url.isAnySlash c = false.
Proof. by_all_chars. Qed.
Lemma hostChar_not_at : forall c, isHostChar c = true -> Ascii.eqb c "@" = false.
Proof. by_all_chars. Qed.
Lemma hostChar_not_forbidden : forall c, isHostChar c = true -> Url.isForbiddenHost c = false.
Proof. by_all_chars. Qed.
Lemma hostChar_plain :
  forall c, isHostChar c = true ->
            Ascii.eqb c ":" = false /\ Ascii.eqb c "[" = false /\ Ascii.eqb c "]" = false.
Proof.
  intros c; destruct c as [[] [] [] [] [] [] [] []]; vm_compute;
    solve [intros; discriminate | intros; repeat split; reflexivity].
Qed.
Lemma idChar_lower_not_dot_or_percent :
  forall c, isIdChar c = true ->
            Ascii.eqb (toLower c) "." = false /\ Ascii.eqb (toLower c) "%" = false.
Proof.
  intros c; destruct c as [[] [] [] [] [] [] [] []]; vm_compute;
    solve [intros; discriminate | intros; repeat split; reflexivity].
Qed.
Lemma paramChar_not_ampersand : forall c, isParamChar c = true -> Ascii.eqb c "&" = false.
Proof. by_all_chars. Qed.
Lemma paramChar_not_fragment : forall c, isParamChar c = true -> Ascii.eqb c "#" = false.
Proof. by_all_chars. Qed.

Lemma noneOf_of (q p : ascii -> bool) l :
  (forall c, q c = true -> p c = false) -> forallb q l = true -> noneOf p l = true.
Proof.
  intros Hqp. unfold noneOf. induction l as [|c l IH]; simpl; [reflexivity|].
  intros [Hc Hl]%andb_true_iff. now rewrite (Hqp c Hc), IH.
Qed.

Lemma forallb_weaken (q r : ascii -> bool) l :
  (forall c, q c = true -> r c = true) -> forallb q l = true -> forallb r l = true.
Proof.
  intros Hqr. induction l as [|c l IH]; simpl; [reflexivity|].
  intros [Hc Hl]%andb_true_iff. now rewrite (Hqr c Hc), IH.
Qed.

Lemma pathOf_urlChars segs :
  forallb plainSegment segs = true -> forallb isUrlChar (pathOf segs) = true.
Proof.
  unfold pathOf. induction segs as [|seg segs IH]; simpl; [reflexivity|].
  intros [Hseg Hsegs]%andb_true_iff.
  apply andb_true_iff in Hseg as [_ Hseg].
  rewrite forallb_app, (forallb_weaken _ _ _ idChar_urlChar Hseg). now apply IH.
Qed.

Lemma queryOf_urlChars params :
  forallb plainParam params = true -> forallb isUrlChar (queryOf params) = true.
Proof.
  induction params as [|param params IH]; [reflexivity|].
  intros Hall. simpl in Hall. apply andb_true_iff in Hall as [Hparam Hparams].
  pose proof (forallb_weaken _ _ _ paramChar_urlChar Hparam) as Hp.
  destruct params as [|next more]; [exact Hp|].
  change (queryOf (param :: next :: more)) with (param ++ "&"%char :: queryOf (next :: more)).
  rewrite forallb_app, Hp. simpl. now apply IH.
Qed.

Lemma dropWhile_head p c l : p c = false -> dropWhile p (c :: l) = c :: l.
Proof. intros Hc. simpl. now rewrite Hc. Qed.

(** A stretch without a stop character, then nothing or a stop character. *)
Lemma break_stretch stop a b :
  noneOf stop a = true ->
  match b with [] => True | c :: _ => stop c = true end ->
  break stop (a ++ b) = (a, b).
Proof.
  intros Ha Hb. induction a as [|x a IH]; simpl.
  - destruct b as [|c b]; [reflexivity|]. simpl. now rewrite Hb.
  - simpl in Ha. apply andb_true_iff in Ha as [Hx Ha].
    apply negb_true_iff in Hx. now rewrite Hx, IH.
Qed.

Lemma plainHost_inv host :
  plainHost host = true ->
  exists c rest, host = c :: rest /\ isHostChar c = true /\ forallb isHostChar host = true.
Proof.
  unfold plainHost. intros [[[Hlen Hall]%andb_true_iff _]%andb_true_iff _]%andb_true_iff.
  destruct host as [|c rest]; [discriminate|].
  exists c, rest. split; [reflexivity|]. split; [|exact Hall].
  simpl in Hall. now apply andb_true_iff in Hall as [Hc _].
Qed.

Lemma hostPort_plain host :
  forallb isHostChar host = true -> Url.hostPort false host = (host, None).
Proof.
  induction host as [|c host IH]; simpl; [reflexivity|].
  intros [Hc Hhost]%andb_true_iff.
  destruct (hostChar_plain c Hc) as (Hcolon & Hopen & Hclose).
  rewrite Hcolon, Hopen, Hclose. simpl. now rewrite IH.
Qed.

Lemma validAuthority_plain host :
  plainHost host = true -> Url.validAuthority true host = true.
Proof.
  intros Hhost. destruct (plainHost_inv host Hhost) as (c & rest & -> & Hc & Hall).
  unfold Url.validAuthority, Url.afterCredentials.
  rewrite split_noneOf by (apply (noneOf_of isHostChar); [apply hostChar_not_at | exact Hall]).
  simpl List.last. cbv iota beta.
  rewrite hostPort_plain by exact Hall.
  unfold Url.validHost, Url.validPort.
  destruct (hostChar_plain c Hc) as (_ & Hopen & _). rewrite Hopen.
  rewrite andb_true_r. apply negb_true_iff.
  pose proof (noneOf_of isHostChar Url.isForbiddenHost (c :: rest) hostChar_not_forbidden Hall)
    as Hnone.
  unfold noneOf in Hnone. clear - Hnone.
  induction (c :: rest) as [|x l IH]; simpl in *; [reflexivity|].
  apply andb_true_iff in Hnone as [Hx Hl]. apply negb_true_iff in Hx.
  now rewrite Hx, IH.
Qed.

Lemma plainSegment_inv seg :
  plainSegment seg = true ->
  exists c rest, seg = c :: rest /\ isIdChar c = true /\ forallb isIdChar seg = true.
Proof.
  unfold plainSegment. intros [Hlen Hall]%andb_true_iff.
  destruct seg as [|c rest]; [discriminate|].
  exists c, rest. split; [reflexivity|]. split; [|exact Hall].
  simpl in Hall. now apply andb_true_iff in Hall as [Hc _].
Qed.

Lemma plainSegment_not_dots seg :
  plainSegment seg = true -> Url.isSingleDot seg = false /\ Url.isDoubleDot seg = false.
Proof.
  intros Hseg. destruct (plainSegment_inv seg Hseg) as (c & rest & -> & Hc & _).
  destruct (idChar_lower_not_dot_or_percent c Hc) as [Hdot Hpercent].
  unfold Url.isSingleDot, Url.isDoubleDot, lower. simpl.
  rewrite Hdot, Hpercent. split; reflexivity.
Qed.

(** The segments of a path are what stands between its slashes. *)
Lemma split_segments sep seg segs :
  sep "/"%char = true ->
  noneOf sep seg = true ->
  forallb (noneOf sep) segs = true ->
  split sep (seg ++ pathOf segs) = seg :: segs.
Proof.
  intros Hsep. revert seg. induction segs as [|next segs IH]; intros seg Hseg Hsegs.
  - unfold pathOf. simpl. rewrite app_nil_r. now apply split_noneOf.
  - simpl in Hsegs. apply andb_true_iff in Hsegs as [Hnext Hsegs].
    change (pathOf (next :: segs)) with ("/"%char :: next ++ pathOf segs).
    rewrite split_piece by assumption. f_equal. now apply IH.
Qed.

Lemma pathSegments_plain segs :
  forall acc, forallb plainSegment segs = true -> Url.pathSegments acc segs = acc ++ segs.
Proof.
  induction segs as [|seg segs IH]; intros acc Hsegs; simpl.
  - now rewrite app_nil_r.
  - simpl in Hsegs. apply andb_true_iff in Hsegs as [Hseg Hsegs].
    destruct (plainSegment_not_dots seg Hseg) as [-> ->].
    rewrite IH by exact Hsegs. now rewrite <- app_assoc.
Qed.

Lemma plainSegments_noneOf sep segs :
  rejectsIdChars sep ->
  forallb plainSegment segs = true -> forallb (noneOf sep) segs = true.
Proof.
  intros Hsep. induction segs as [|seg segs IH]; simpl; [reflexivity|].
  intros [Hseg Hsegs]%andb_true_iff.
  apply andb_true_iff in Hseg as [_ Hseg].
  now rewrite (noneOf_id sep seg Hsep Hseg), IH.
Qed.

(** The pathname the parser stores for a path of plain segments. *)
Lemma parsePath_plain segs :
  forallb plainSegment segs = true ->
  Url.parsePath Url.isAnySlash (pathOf segs)
  = match segs with [] => ["/"%char] | _ :: _ => pathOf segs end.
Proof.
  intros Hsegs. destruct segs as [|seg segs]; [reflexivity|].
  unfold Url.parsePath.
  change (pathOf (seg :: segs)) with ("/"%char :: seg ++ pathOf segs) at 1.
  cbv iota beta. change (Url.isAnySlash "/") with true. cbv iota.
  pose proof (plainSegments_noneOf Url.isAnySlash _ idchar_not_any_slash Hsegs) as Hnone.
  simpl in Hnone. apply andb_true_iff in Hnone as [Hseg' Hsegs'].
  rewrite split_segments by (reflexivity || assumption).
  now rewrite pathSegments_plain.
Qed.

(** The parts [normalizeVideoId] reads off such a pathname. *)
Lemma pathParts_plain segs q :
  forallb plainSegment segs = true ->
  Url.pathParts {| Url.pathname := match segs with [] => ["/"%char] | _ :: _ => pathOf segs end;
                   Url.search := q |}
  = segs.
Proof.
  intros Hsegs. unfold Url.pathParts. cbn [Url.pathname].
  destruct segs as [|seg segs]; [reflexivity|].
  change (pathOf (seg :: segs)) with ([] ++ "/"%char :: seg ++ pathOf segs).
  rewrite split_piece by reflexivity.
  pose proof (plainSegments_noneOf Url.isSlash _ idchar_not_slash Hsegs) as Hnone.
  simpl in Hnone. apply andb_true_iff in Hnone as [Hseg' Hsegs'].
  rewrite split_segments by (reflexivity || assumption).
  simpl. clear Hseg' Hsegs'.
  assert (forall l, forallb plainSegment l = true ->
                    List.filter (fun piece => negb (length piece =? 0)%nat) l = l) as Hkeep.
  { induction l as [|x l IH]; simpl; [reflexivity|].
    intros [Hx Hl]%andb_true_iff. unfold plainSegment in Hx.
    apply andb_true_iff in Hx as [Hx _]. rewrite Hx. f_equal. now apply IH. }
  apply (Hkeep (seg :: segs) Hsegs).
Qed.

Lemma pathOf_noneOf p segs :
  rejectsIdChars p -> p "/"%char = false ->
  forallb plainSegment segs = true -> noneOf p (pathOf segs) = true.
Proof.
  intros Hp Hslash. unfold pathOf. induction segs as [|seg segs IH]; simpl; [reflexivity|].
  intros [Hseg Hsegs]%andb_true_iff. apply andb_true_iff in Hseg as [_ Hseg].
  rewrite Hslash. simpl. rewrite noneOf_app, (noneOf_id p seg Hp Hseg). now apply IH.
Qed.

(** The characters of the URL text after [https://]. *)
Lemma plain_url_chars host segs params :
  plainHost host = true ->
  forallb plainSegment segs = true ->
  forallb plainParam params = true ->
  forallb isUrlChar
    (host ++ pathOf segs ++ match params with [] => [] | _ :: _ => "?"%char :: queryOf params end)
  = true.
Proof.
  intros Hhost Hsegs Hparams.
  destruct (plainHost_inv host Hhost) as (_ & _ & _ & _ & Hall).
  rewrite !forallb_app, (forallb_weaken _ _ _ hostChar_urlChar Hall), (pathOf_urlChars segs Hsegs).
  destruct params as [|param params]; [reflexivity|].
  cbn [forallb]. now rewrite (queryOf_urlChars _ Hparams).
Qed.

Lemma queryOf_no_fragment params :
  forallb plainParam params = true ->
  noneOf (fun x => Ascii.eqb x "#") (queryOf params) = true.
Proof.
  intros Hparams. apply (noneOf_of isUrlChar); [apply urlChar_not_fragment|].
  now apply queryOf_urlChars.
Qed.

(** What [new URL] makes of [https://<host><path>?<query>]. *)
Lemma parse_plain_url host segs params :
  plainHost host = true ->
  forallb plainSegment segs = true ->
  forallb plainParam params = true ->
  Url.parse (list_ascii_of_string (httpsUrl host segs params))
  = Some {| Url.pathname := match segs with [] => ["/"%char] | _ :: _ => pathOf segs end;
            Url.search := queryOf params |}.
Proof.
  intros Hhost Hsegs Hparams.
  pose proof (plain_url_chars host segs params Hhost Hsegs Hparams) as Hchars.
  unfold httpsUrl. rewrite list_ascii_of_string_of_list_ascii.
  set (qpart := match params with [] => [] | _ :: _ => "?"%char :: queryOf params end) in *.
  set (rest := host ++ pathOf segs ++ qpart) in *.
  unfold Url.parse.
  rewrite strip_noneOf
    by (rewrite noneOf_app, (noneOf_of isUrlChar _ rest urlChar_not_c0_or_space Hchars);
        reflexivity).
  rewrite (filter_noneOf Url.isTabOrNewline)
    by (rewrite noneOf_app, (noneOf_of isUrlChar _ rest urlChar_not_tab_or_newline Hchars);
        reflexivity).
  change (Url.parseScheme (list_ascii_of_string "https://" ++ rest))
    with (Some (list_ascii_of_string "https", list_ascii_of_string "//" ++ rest)).
  cbv iota beta.
  change (Url.isSpecial (list_ascii_of_string "https")) with true. cbv iota.
  change (dropWhile Url.isAnySlash (list_ascii_of_string "//" ++ rest))
    with (dropWhile Url.isAnySlash rest).
  destruct (plainHost_inv host Hhost) as (c & hrest & Hc0 & Hc & Hall).
  assert (dropWhile Url.isAnySlash rest = rest) as ->.
  { subst rest. rewrite Hc0. simpl app. apply dropWhile_head. now apply hostChar_not_any_slash. }
  subst rest.
  rewrite break_stretch.
  - cbv iota beta. rewrite (validAuthority_plain host Hhost).
    unfold Url.pathAndQuery.
    rewrite break_stretch.
    + cbv iota beta. f_equal. f_equal.
      * now apply parsePath_plain.
      * subst qpart. destruct params as [|param params]; [reflexivity|].
        change (Ascii.eqb "?" "?") with true. cbv iota.
        rewrite break_noneOf; [reflexivity|]. now apply queryOf_no_fragment.
    + apply pathOf_noneOf; [apply idchar_not_query_or_fragment | reflexivity | exact Hsegs].
    + subst qpart. destruct params; [exact I | reflexivity].
  - apply (noneOf_of isHostChar); [apply hostChar_not_delimiter | exact Hall].
  - destruct segs as [|seg segs]; [|reflexivity].
    subst qpart. destruct params; [exact I | reflexivity].
Qed.

Lemma paramChar_plusToSpace : forall c, isParamChar c = true -> Url.plusToSpace c = c.
Proof.
  intros c; destruct c as [[] [] [] [] [] [] [] []]; vm_compute;
    solve [reflexivity | discriminate | intros; discriminate].
Qed.
Lemma paramChar_not_percent : forall c, isParamChar c = true -> Ascii.eqb c "%" = false.
Proof. by_all_chars. Qed.

Lemma decodeComponent_plain l : forallb isParamChar l = true -> Url.decodeComponent l = l.
Proof.
  intros Hl. unfold Url.decodeComponent.
  assert (map Url.plusToSpace l = l) as ->.
  { induction l as [|c l IH]; simpl; [reflexivity|].
    simpl in Hl. apply andb_true_iff in Hl as [Hc Hl].
    now rewrite paramChar_plusToSpace, IH. }
  apply percentDecode_noneOf.
  apply (noneOf_of isParamChar); [apply paramChar_not_percent | exact Hl].
Qed.

Lemma break_forallb q stop l :
  forallb q l = true -> forallb q (fst (break stop l)) = true.
Proof.
  induction l as [|c l IH]; simpl; [reflexivity|].
  intros [Hc Hl]%andb_true_iff. destruct (stop c); [reflexivity|].
  specialize (IH Hl). destruct (break stop l) as [a b]. simpl in *. now rewrite Hc.
Qed.

(** The parameters of a query are what stands between its ampersands. *)
Lemma split_params param params :
  forallb plainParam (param :: params) = true ->
  split (fun c => Ascii.eqb c "&") (queryOf (param :: params)) = param :: params.
Proof.
  revert param. induction params as [|next params IH]; intros param Hall.
  - simpl in Hall. apply andb_true_iff in Hall as [Hparam _].
    apply split_noneOf. apply (noneOf_of isParamChar); [apply paramChar_not_ampersand | exact Hparam].
  - simpl in Hall. apply andb_true_iff in Hall as [Hparam Hrest].
    change (queryOf (param :: next :: params)) with (param ++ "&"%char :: queryOf (next :: params)).
    rewrite split_piece.
    + f_equal. now apply IH.
    + apply (noneOf_of isParamChar); [apply paramChar_not_ampersand | exact Hparam].
    + reflexivity.
Qed.

(** The pairs [URLSearchParams] reads off such a query. *)
Lemma searchParams_plain path params :
  forallb plainParam params = true ->
  List.filter (fun nv => String.eqb (string_of_list_ascii (fst nv)) "v")
    (Url.searchParams {| Url.pathname := path; Url.search := queryOf params |})
  = map (fun param =>
           (fst (break (fun c => Ascii.eqb c "=") param),
            Url.decodeComponent (tl (snd (break (fun c => Ascii.eqb c "=") param)))))
        (List.filter (named "v") params).
Proof.
  intros Hparams. unfold Url.searchParams. cbn [Url.search].
  assert (forall l, forallb plainParam l = true ->
            List.filter (fun nv => String.eqb (string_of_list_ascii (fst nv)) "v")
              (map (fun piece =>
                      let (n, v) := break (fun c => Ascii.eqb c "=") piece in
                      (Url.decodeComponent n, Url.decodeComponent (tl v)))
                 (List.filter (fun piece => negb (length piece =? 0)%nat) l))
            = map (fun param =>
                     (fst (break (fun c => Ascii.eqb c "=") param),
                      Url.decodeComponent (tl (snd (break (fun c => Ascii.eqb c "=") param)))))
                (List.filter (named "v") l)) as Hgen.
  { induction l as [|param l IH]; [reflexivity|].
    intros Hall. simpl in Hall. apply andb_true_iff in Hall as [Hparam Hl].
    specialize (IH Hl). cbn [List.filter].
    pose proof (break_forallb isParamChar (fun c => Ascii.eqb c "=") param Hparam) as Hname.
    unfold named, paramName in *.
    destruct param as [|c param].
    - simpl. exact IH.
    - change (negb (length (c :: param) =? 0)%nat) with true. cbv iota. cbn [map List.filter].
      destruct (break (fun c0 => Ascii.eqb c0 "=") (c :: param)) as [n v] eqn:Hbreak.
      cbn [fst snd] in *. rewrite (decodeComponent_plain n Hname).
      destruct (String.eqb (string_of_list_ascii n) "v"); cbn [map].
      + rewrite Hbreak. cbn [fst snd]. now rewrite IH.
      + exact IH. }
  destruct params as [|param params].
  - reflexivity.
  - rewrite split_params by exact Hparams. now apply Hgen.
Qed.

Lemma searchParamsGet_no_v path params :
  forallb plainParam params = true ->
  forallb (fun param => negb (named "v" param)) params = true ->
  Url.searchParamsGet "v" {| Url.pathname := path; Url.search := queryOf params |} = None.
Proof.
  intros Hparams Hnone. unfold Url.searchParamsGet.
  rewrite searchParams_plain by exact Hparams.
  assert (List.filter (named "v") params = []) as ->; [|reflexivity].
  induction params as [|param params IH]; [reflexivity|].
  simpl in Hparams, Hnone |- *.
  apply andb_true_iff in Hparams as [_ Hparams]. apply andb_true_iff in Hnone as [Hp Hnone].
  apply negb_true_iff in Hp. rewrite Hp. now apply IH.
Qed.

Lemma searchParamsGet_first_v path before id after :
  forallb plainParam (before ++ (list_ascii_of_string "v=" ++ id) :: after) = true ->
  forallb (fun param => negb (named "v" param)) before = true ->
  forallb isIdChar id = true ->
  Url.searchParamsGet "v"
    {| Url.pathname := path;
       Url.search := queryOf (before ++ (list_ascii_of_string "v=" ++ id) :: after) |}
  = Some id.
Proof.
  intros Hparams Hbefore Hid. unfold Url.searchParamsGet.
  rewrite searchParams_plain by exact Hparams.
  rewrite List.filter_app.
  assert (List.filter (named "v") before = []) as ->.
  { clear Hparams. induction before as [|param before IH]; [reflexivity|].
    simpl in Hbefore |- *. apply andb_true_iff in Hbefore as [Hp Hbefore].
    apply negb_true_iff in Hp. rewrite Hp. now apply IH. }
  cbn [app List.filter].
  change (named "v" (list_ascii_of_string "v=" ++ id)) with true. cbv iota. cbn [map].
  change (snd (break (fun c => Ascii.eqb c "=") (list_ascii_of_string "v=" ++ id)))
    with ("="%char :: id).
  cbn [tl snd]. now rewrite decodeComponent_id.
Qed.

Lemma url_text_not_identifier rest :
  isVideoId (list_ascii_of_string "https://" ++ rest) = false.
Proof. unfold isVideoId. apply andb_false_iff. right. reflexivity. Qed.

Lemma plain_url_trim host segs params :
  plainHost host = true ->
  forallb plainSegment segs = true ->
  forallb plainParam params = true ->
  trim (list_ascii_of_string (httpsUrl host segs params))
  = list_ascii_of_string (httpsUrl host segs params).
Proof.
  intros Hhost Hsegs Hparams.
  pose proof (plain_url_chars host segs params Hhost Hsegs Hparams) as Hchars.
  unfold httpsUrl. rewrite list_ascii_of_string_of_list_ascii.
  apply strip_noneOf. rewrite noneOf_app.
  now rewrite (noneOf_of isUrlChar _ _ urlChar_not_whitespace Hchars).
Qed.

(** The normalizer on such a URL, by what [searchParams.get("v")] gives. *)
Lemma normalize_plain_url host segs params :
  plainHost host = true ->
  forallb plainSegment segs = true ->
  forallb plainParam params = true ->
  normalizeVideoId (httpsUrl host segs params)
  = match validCandidate
            (Url.searchParamsGet "v"
               {| Url.pathname := match segs with [] => ["/"%char] | _ :: _ => pathOf segs end;
                  Url.search := queryOf params |}) with
    | Some v => Some v
    | None =>
        match segs with
        | [] => None
        | first :: _ =>
            if String.eqb (string_of_list_ascii first) "watch" then None
            else if isVideoId (List.last segs [])
                 then Some (string_of_list_ascii (List.last segs []))
                 else None
        end
    end.
Proof.
  intros Hhost Hsegs Hparams. unfold normalizeVideoId.
  assert (Js.truthy (httpsUrl host segs params) = true) as -> by reflexivity.
  cbn [negb]. cbv iota.
  rewrite plain_url_trim by assumption.
  rewrite parse_plain_url by assumption.
  assert (isVideoId (list_ascii_of_string (httpsUrl host segs params)) = false) as ->.
  { unfold httpsUrl. rewrite list_ascii_of_string_of_list_ascii. apply url_text_not_identifier. }
  cbv iota.
  destruct (validCandidate _) as [v|]; [reflexivity|].
  rewrite pathParts_plain by exact Hsegs.
  destruct segs as [|first segs]; [reflexivity|].
  destruct (String.eqb (string_of_list_ascii first) "watch"); [reflexivity|].
  assert (plainSegment (List.last (first :: segs) []) = true) as Hlast.
  { apply forallb_forall with (x := List.last (first :: segs) []) in Hsegs; [exact Hsegs|].
    clear. revert first. induction segs as [|s segs IH]; intros first; [now left|].
    right. apply (IH s). }
  destruct (plainSegment_inv _ Hlast) as (c & r & -> & _ & _).
  reflexivity.
Qed.

End PlainUrls.

(** The normalizer on the URLs of the common shapes: [https], a host name,
    a path of plain segments and a query of plain parameters.  When no
    parameter is named [v], the result is read off the path: nothing when
    the path is empty or starts with [watch], and otherwise the last
    segment when it is an identifier.  When a parameter is named [v] and
    the first such has an identifier as its value, the result is that
    identifier, whatever the path. *)
Theorem normalizeVideoId_on_plain_urls :
  forall host segs params,
    Shapes.plainHost host = true ->
    forallb Shapes.plainSegment segs = true ->
    forallb Shapes.plainParam params = true ->
    (forallb (fun param => negb (Shapes.named "v" param)) params = true ->
     Server.normalizeVideoId (Shapes.httpsUrl host segs params)
     = match segs with
       | [] => None
       | first :: _ =>
           if String.eqb (string_of_list_ascii first) "watch" then None
           else if Server.isVideoId (List.last segs [])
                then Some (string_of_list_ascii (List.last segs []))
                else None
       end)
    /\ (forall before id after,
           params = before ++ (list_ascii_of_string "v=" ++ id) :: after ->
           forallb (fun param => negb (Shapes.named "v" param)) before = true ->
           Server.isVideoId id = true ->
           Server.normalizeVideoId (Shapes.httpsUrl host segs params)
           = Some (string_of_list_ascii id)).
Proof.
  intros host segs params Hhost Hsegs Hparams. split.
  - intros Hnone. rewrite normalize_plain_url by assumption.
    now rewrite searchParamsGet_no_v.
  - intros before id after -> Hbefore Hid.
    rewrite normalize_plain_url by assumption.
    destruct (isVideoId_inv id Hid) as [_ Hall].
    rewrite searchParamsGet_first_v by assumption.
    now rewrite validCandidate_id.
Qed.

(** The theorem at work: a share link, a path under [watch], and a watch
    URL whose [v] parameter is not the first. *)
Lemma normalizeVideoId_on_plain_urls_witness :
  Server.normalizeVideoId "https://youtu.be/dQw4w9WgXcQ?si=AbC123" = Some "dQw4w9WgXcQ"%string
  /\ Server.normalizeVideoId "https://www.youtube.com/watch/dQw4w9WgXcQ" = None
  /\ Server.normalizeVideoId "https://music.youtube.com/watch?list=PL1&v=dQw4w9WgXcQ&t=42s"
     = Some "dQw4w9WgXcQ"%string.
Proof.
  split; [|split].
  - refine (proj1 (normalizeVideoId_on_plain_urls
              (list_ascii_of_string "youtu.be") [list_ascii_of_string "dQw4w9WgXcQ"]
              [list_ascii_of_string "si=AbC123"] _ _ _) _); vm_compute; reflexivity.
  - refine (proj1 (normalizeVideoId_on_plain_urls
              (list_ascii_of_string "www.youtube.com")
              [list_ascii_of_string "watch"; list_ascii_of_string "dQw4w9WgXcQ"]
              [] _ _ _) _); vm_compute; reflexivity.
  - refine (proj2 (normalizeVideoId_on_plain_urls
              (list_ascii_of_string "music.youtube.com") [list_ascii_of_string "watch"]
              [list_ascii_of_string "list=PL1"; list_ascii_of_string "v=dQw4w9WgXcQ";
               list_ascii_of_string "t=42s"] _ _ _)
              [list_ascii_of_string "list=PL1"] (list_ascii_of_string "dQw4w9WgXcQ")
              [list_ascii_of_string "t=42s"] _ _ _); vm_compute; reflexivity.
Defined.

(** ** The metadata endpoint *)

Section IncludesFacts.

Lemma prefix_drop (a b h : string) :
  String.prefix (a +:+ b) h = true -> Js.includes b h = true.
Proof.
  revert h. induction a as [|c a IH]; intros h.
  - change (""%string +:+ b) with b.
    intros H. destruct h; cbn [Js.includes]; rewrite H; reflexivity.
  - change (String c a +:+ b) with (String c (a +:+ b)).
    destruct h as [|d h]; [discriminate|]. cbn [String.prefix Js.includes].
    destruct (Ascii.ascii_dec c d); [|discriminate].
    intros H. rewrite (IH h H). apply orb_true_r.
Qed.

(** A text that includes a string includes every end of that string. *)
Lemma includes_end (a b h : string) :
  Js.includes (a +:+ b) h = true -> Js.includes b h = true.
Proof.
  induction h as [|d h IH]; cbn [Js.includes].
  - rewrite orb_false_r. intros H. apply prefix_drop in H. exact H.
  - intros [H | H]%orb_true_iff.
    + apply prefix_drop in H. exact H.
    + change (Js.includes b (String d h))
        with (String.prefix b (String d h) || Js.includes b h).
      rewrite (IH H). apply orb_true_r.
Qed.

End IncludesFacts.

(** The metadata endpoint.  An identifier that is not valid gets status 400
    with an error string and the identifier as received, and
    [fetchVideoInfo] is not called.  Otherwise [fetchVideoInfo] is awaited
    for the normalized identifier: its metadata is sent as it is with
    status 200, and its failure gets a JSON body with the error message
    (or "Failed to fetch video info" when the message is empty) and the
    identifier, with status 404 when the message includes "Video
    unavailable" and 500 otherwise, whatever the name of the error; the
    stack trace is in the body exactly when [NODE_ENV] is [development],
    and there is no [suggestion]. *)
Theorem info_endpoint_responses :
  forall nodeEnv paramsVideoId,
    match Api.infoGet nodeEnv paramsVideoId with
    | Api.InfoReturn sent =>
        Server.normalizeVideoId paramsVideoId = None
        /\ sent = {| Api.infoStatus := 400;
                     Api.infoSent :=
                       Api.InfoErrorJson [("error", "Invalid video ID");
                                          ("videoId", paramsVideoId)]%string |}
    | Api.AwaitFetchVideoInfo videoId k =>
        Server.normalizeVideoId paramsVideoId = Some videoId
        /\ (forall info,
               k (Server.InfoFulfilled info)
               = {| Api.infoStatus := 200; Api.infoSent := Api.InfoJson info |})
        /\ (forall error,
               exists fields,
                 let errorMessage :=
                   Js.orDefault (Some (Js.message error)) "Failed to fetch video info" in
                 k (Server.InfoFailed error)
                 = {| Api.infoStatus :=
                        if Js.includes "Video unavailable" errorMessage then 404 else 500;
                      Api.infoSent := Api.InfoErrorJson fields |}
                 /\ In ("error"%string, errorMessage) fields
                 /\ In ("videoId"%string, videoId) fields
                 /\ (forall text, ~ In ("suggestion"%string, text) fields)
                 /\ (forall detail,
                        In ("details"%string, detail) fields <->
                        nodeEnv = Some "development"%string /\ detail = Js.stack error))
    end.
Proof.
  intros nodeEnv paramsVideoId. unfold Api.infoGet.
  destruct (Server.normalizeVideoId paramsVideoId) as [videoId|]; [|split; reflexivity].
  split; [reflexivity|]. split; [reflexivity|].
  intros error. eexists. cbv zeta. unfold Api.infoFailed. cbv zeta.
  split; [reflexivity|]. split; [now left|]. split; [right; now left|]. split.
  - intros text Hin. apply in_app_iff in Hin as [Hin | Hin].
    + simpl in Hin. destruct Hin as [[=] | [[=] | []]].
    + destruct nodeEnv as [env|]; [|destruct Hin].
      destruct (String.eqb env "development"); [|destruct Hin].
      destruct Hin as [[=] | []].
  - intros detail. rewrite in_app_iff. split.
    + intros [Hfixed | Hdetails].
      * simpl in Hfixed. destruct Hfixed as [[=] | [[=] | []]].
      * destruct nodeEnv as [env|]; [|destruct Hdetails].
        destruct (String.eqb_spec env "development") as [-> | Hne]; [|destruct Hdetails].
        destruct Hdetails as [[= <-] | []]. now split.
    + intros [-> ->]. right. simpl. now left.
Qed.

(** The two endpoints do not classify a failure alike.  An error that the
    metadata endpoint answers with 404 is answered with 404 by the stream
    endpoint too, unless it is an [AbortError], which the stream endpoint
    does not answer; but an error with the message "This video is
    unavailable" is answered with 404 by the stream endpoint and with 500
    by the metadata endpoint, which looks for "Video unavailable" with a
    capital letter. *)
Theorem endpoints_classify_failures_differently :
  (forall nodeEnv videoId error,
      Api.infoStatus (Api.infoFailed nodeEnv videoId error) = 404 ->
      (Js.name error = "AbortError"%string ->
       Server.streamFailed nodeEnv false videoId error = None)
      /\ (Js.name error <> "AbortError"%string ->
          exists answer,
            Server.streamFailed nodeEnv false videoId error = Some answer
            /\ Server.status answer = 404))
  /\ (forall nodeEnv videoId name stack,
         let error := Js.mkError name "This video is unavailable" stack in
         Api.infoStatus (Api.infoFailed nodeEnv videoId error) = 500
         /\ (name <> "AbortError"%string ->
             exists answer,
               Server.streamFailed nodeEnv false videoId error = Some answer
               /\ Server.status answer = 404)).
Proof.
  split.
  - intros nodeEnv videoId error Hinfo. split.
    + intros Hname. now apply streamFailed_abort.
    + intros Hname.
      pose proof (streamFailed_json nodeEnv videoId error Hname) as Hjson.
      cbv zeta in Hjson. rewrite Hjson. eexists. split; [reflexivity|]. simpl.
      unfold Api.infoFailed in Hinfo. cbv zeta in Hinfo. simpl in Hinfo.
      unfold Js.orDefault in *.
      destruct (Js.truthy (Js.message error)).
      * destruct (Js.includes "Video unavailable" (Js.message error)) eqn:Hinc;
          [|discriminate].
        change "Video unavailable"%string with ("Video " +:+ "unavailable")%string in Hinc.
        apply includes_end in Hinc. now rewrite Hinc.
      * discriminate.
  - intros nodeEnv videoId name stack error. split; [reflexivity|].
    intros Hname.
    pose proof (streamFailed_json nodeEnv videoId error Hname) as Hjson.
    cbv zeta in Hjson. rewrite Hjson. eexists. split; reflexivity.
Qed.

(** The theorem at work on the error ytdl-core raises for a video that is
    gone. *)
Lemma endpoints_classify_failures_differently_witness :
  exists answer,
    Server.streamFailed None false "dQw4w9WgXcQ"
      (Js.mkError "Error" "Video unavailable" "Error: Video unavailable")
    = Some answer
    /\ Server.status answer = 404.
Proof.
  refine (proj2 (proj1 endpoints_classify_failures_differently None "dQw4w9WgXcQ"%string
                   (Js.mkError "Error" "Video unavailable" "Error: Video unavailable") _) _).
  - vm_compute. reflexivity.
  - discriminate.
Defined.

(** ** The search endpoint *)

Section SearchFacts.
Import Api.

Lemma mapItems_all (videos : list video) :
  mapItems (map Some videos) = Some (map toItem videos).
Proof. induction videos as [|v videos IH]; simpl; [reflexivity | now rewrite IH]. Qed.

Lemma mapItems_null (videos : list (option video)) :
  In None videos -> mapItems videos = None.
Proof.
  induction videos as [|v videos IH]; simpl; [contradiction|].
  intros [-> | Hin]; [reflexivity|].
  destruct v as [v|]; [|reflexivity]. now rewrite IH.
Qed.

Lemma firstn_map_Some (n : nat) (videos : list video) :
  firstn n (map Some videos) = map Some (firstn n videos).
Proof. apply firstn_map. Qed.

Lemma firstn_subset {A} (n : nat) (l : list A) x : In x (firstn n l) -> In x l.
Proof.
  revert l. induction n as [|n IH]; intros [|y l]; simpl; try contradiction.
  intros [-> | H]; [now left | right; now apply IH].
Qed.

Lemma searchQuery_trimmed q :
  Chars.trim (list_ascii_of_string (searchQuery q)) = list_ascii_of_string (searchQuery q).
Proof.
  unfold searchQuery. rewrite list_ascii_of_string_of_list_ascii.
  apply strip_idempotent.
Qed.

Lemma truthy_false_empty s : Js.truthy s = false -> s = ""%string.
Proof. unfold Js.truthy. destruct (String.eqb_spec s ""); [auto | discriminate]. Qed.

Lemma toItem_title v : itemTitle (toItem v) <> ""%string.
Proof.
  unfold toItem, Js.orDefault. simpl.
  destruct (title v) as [t|]; [|discriminate].
  destruct (Js.truthy t) eqn:Ht; [|discriminate]. now apply truthy_nonempty.
Qed.

Lemma toItem_channel v s : itemChannelName (toItem v) = ChannelName s -> s <> ""%string.
Proof.
  unfold toItem, channelOf, Js.orDefault, Js.whenTruthy. simpl.
  destruct (videoAuthor v) as [[name | text]|].
  - destruct name as [n|]; [|discriminate].
    destruct (Js.truthy n) eqn:Hn; [|discriminate].
    intros [= <-]. now apply truthy_nonempty.
  - destruct (Js.truthy text) eqn:Ht; intros [= <-]; [now apply truthy_nonempty | discriminate].
  - intros [= <-]. discriminate.
Qed.

End SearchFacts.

(** The search endpoint.  The query is the text of the [q] parameter,
    trimmed.  When it is empty (no parameter, or white space only), the
    reply is an empty list and yt-search is not called.  Otherwise
    yt-search is called with the trimmed query; a rejection gets status
    500 with an error string and the query; a result without an array of
    videos gets an empty list; and a result with videos gets the items of
    its first ten videos at most, in their order, each with a title that
    is not empty.  A [null] among the first ten videos makes the reply the
    500 error. *)
Theorem search_endpoint_results :
  forall q,
    let query := Api.searchQuery q in
    Chars.trim (list_ascii_of_string query) = list_ascii_of_string query
    /\ match Api.searchGet q with
       | Api.SearchReturn sent =>
           query = ""%string
           /\ sent = {| Api.searchStatus := 200; Api.searchSent := Api.SearchItems [] |}
       | Api.AwaitYts asked k =>
           asked = query /\ query <> ""%string
           /\ (forall e, k (Api.YtsRejected e) = Api.searchFailed query)
           /\ k (Api.YtsResolved None)
              = {| Api.searchStatus := 200; Api.searchSent := Api.SearchItems [] |}
           /\ (forall videos : list Api.video,
                  k (Api.YtsResolved (Some (map Some videos)))
                  = {| Api.searchStatus := 200;
                       Api.searchSent := Api.SearchItems (map Api.toItem (firstn 10 videos)) |}
                  /\ length (map Api.toItem (firstn 10 videos)) = Nat.min 10 (length videos)
                  /\ forall item, In item (map Api.toItem (firstn 10 videos)) ->
                                  Api.itemTitle item <> ""%string)
           /\ (forall found,
                  In None (firstn 10 found) ->
                  k (Api.YtsResolved (Some found)) = Api.searchFailed query)
       end.
Proof.
  intros q query. split; [apply searchQuery_trimmed|].
  unfold Api.searchGet. fold query.
  destruct (Js.truthy query) eqn:Hq; simpl.
  - split; [reflexivity|]. split; [now apply truthy_nonempty|].
    split; [reflexivity|]. split; [reflexivity|]. split.
    + intros videos. rewrite firstn_map_Some, mapItems_all.
      split; [reflexivity|]. split.
      * now rewrite length_map, length_firstn.
      * intros item Hin. apply in_map_iff in Hin as (v & <- & _). apply toItem_title.
    + intros found Hnull. now rewrite mapItems_null.
  - split; [now apply truthy_false_empty | reflexivity].
Qed.

(** The theorem at work: a query with spaces around it, and a result of
    twelve videos without a title. *)
Lemma search_endpoint_results_witness :
  let untitled := {| Api.videoId := Some "dQw4w9WgXcQ"%string; Api.title := None;
                     Api.thumbnail := None; Api.videoAuthor := None; Api.seconds := None |} in
  match Api.searchGet (Some (Api.QString "  never gonna  ")) with
  | Api.SearchReturn _ => False
  | Api.AwaitYts asked k =>
      asked = "never gonna"%string
      /\ exists items,
          k (Api.YtsResolved (Some (map Some (repeat untitled 12))))
          = {| Api.searchStatus := 200; Api.searchSent := Api.SearchItems items |}
          /\ length items = 10%nat
  end.
Proof.
  intros untitled.
  pose proof (search_endpoint_results (Some (Api.QString "  never gonna  "))) as H.
  cbv zeta in H. destruct H as [_ H].
  destruct (Api.searchGet (Some (Api.QString "  never gonna  "))) as [sent | asked k].
  - destruct H as [H _]. vm_compute in H. discriminate.
  - destruct H as (Hasked & _ & _ & _ & Hvideos & _).
    split; [rewrite Hasked; vm_compute; reflexivity|].
    destruct (Hvideos (repeat untitled 12)) as (Hsent & Hlen & _).
    eexists. split; [exact Hsent | exact Hlen].
Defined.

(** The search endpoint of the serverless variant differs in one thing: it
    drops the videos without an identifier ([null] entries included)
    before it takes the first ten.  So a result that yt-search resolves to
    never gets the 500 error, and every item of the reply has an
    identifier that is not empty; the items are those of the first ten
    videos with an identifier, in their order. *)
Theorem serverless_search_skips_videos_without_identifier :
  forall q found,
    match ApiPath.searchGet q with
    | Api.SearchReturn sent =>
        Api.searchQuery q = ""%string
        /\ sent = {| Api.searchStatus := 200; Api.searchSent := Api.SearchItems [] |}
    | Api.AwaitYts asked k =>
        asked = Api.searchQuery q
        /\ (forall e, k (Api.YtsRejected e) = Api.searchFailed (Api.searchQuery q))
        /\ exists items,
            k (Api.YtsResolved found)
            = {| Api.searchStatus := 200; Api.searchSent := Api.SearchItems items |}
            /\ items
               = map Api.toItem
                   (firstn 10
                      (omap (fun v => v)
                         (List.filter ApiPath.hasVideoId
                            (match found with Some l => l | None => [] end))))
            /\ (length items <= 10)%nat
            /\ forall item, In item items ->
                            exists id, Api.itemVideoId item = Some id /\ id <> ""%string
    end.
Proof.
  intros q found. unfold ApiPath.searchGet.
  destruct (Js.truthy (Api.searchQuery q)) eqn:Hq; simpl.
  2: { split; [now apply truthy_false_empty | reflexivity]. }
  split; [reflexivity|]. split; [reflexivity|].
  set (videos := match found with Some l => l | None => [] end).
  assert (exists kept : list Api.video,
             List.filter ApiPath.hasVideoId videos = map Some kept
             /\ omap (fun v => v) (List.filter ApiPath.hasVideoId videos) = kept
             /\ forall v, In v kept ->
                          exists id, Api.videoId v = Some id /\ id <> ""%string)
    as (kept & Hkept & Homap & Hids).
  { clearbody videos. induction videos as [|v videos IH]; [exists []; repeat split; intros ? []|].
    destruct IH as (kept & Hkept & Homap & Hids). cbn [List.filter].
    destruct (ApiPath.hasVideoId v) eqn:Hv; [|now exists kept].
    destruct v as [v|]; [|discriminate].
    exists (v :: kept). split; [simpl; now rewrite Hkept|]. split.
    - cbn [omap]. simpl. f_equal. exact Homap.
    - intros w [<- | Hw]; [|now apply Hids].
      unfold ApiPath.hasVideoId, Js.whenTruthy in Hv.
      destruct (Api.videoId v) as [id|]; [|discriminate].
      destruct (Js.truthy id) eqn:Hid; [|discriminate].
      exists id. split; [reflexivity | now apply truthy_nonempty]. }
  rewrite Homap, Hkept, firstn_map_Some, mapItems_all.
  eexists. split; [reflexivity|]. split; [reflexivity|]. split.
  - rewrite length_map, length_firstn. lia.
  - intros item Hin. apply in_map_iff in Hin as (v & <- & Hv).
    apply Hids. eapply firstn_subset. exact Hv.
Qed.

(** ** Clearing the caches *)

(** Clearing the caches drops every entry of both caches and reports how
    many there were of each, and it leaves the extractions in flight alone:
    the pending requests stay.  So after a clear no call of
    [fetchStreamUrl] is served from the cache; a call for an identifier
    whose extraction is in flight joins it, and a call for any other
    identifier starts one; and an extraction that was in flight when the
    caches were cleared still caches its URL when it succeeds. *)
Theorem cache_clear_keeps_extractions_in_flight :
  forall stackOf st infoSt,
    Server.reachable stackOf st ->
    let counts := fst (fst (Api.cacheClear st infoSt)) in
    let st' := snd (fst (Api.cacheClear st infoSt)) in
    let infoSt' := snd (Api.cacheClear st infoSt) in
    Api.clearedStreamUrls counts = size (Server.streamUrlCache st)
    /\ Api.clearedVideoInfo counts = size (Server.videoInfoCache infoSt)
    /\ Server.streamUrlCache st' = ∅
    /\ Server.videoInfoCache infoSt' = ∅
    /\ Server.pendingStreamRequests st' = Server.pendingStreamRequests st
    /\ Server.pendingInfoRequests infoSt' = Server.pendingInfoRequests infoSt
    /\ Server.reachable stackOf st'
    /\ (forall now id,
           exists p,
             fst (Server.fetchStreamUrl now id st') = Server.Adopts p
             /\ match Server.pendingStreamRequests st !! id with
                | Some inFlight =>
                    p = inFlight
                    /\ Server.getInfoCallsFor id (snd (Server.fetchStreamUrl now id st'))
                       = Server.getInfoCallsFor id st
                | None =>
                    Server.getInfoCallsFor id (snd (Server.fetchStreamUrl now id st'))
                    = S (Server.getInfoCallsFor id st)
                end)
    /\ (forall now p id info directUrl,
           Server.awaitingGetInfo st !! p = Some id ->
           Server.resolveStream stackOf info = Server.Resolved directUrl ->
           Server.streamUrlCache (Server.getInfoSettles stackOf now p info st')
           = {[ id := {| Cache.url := directUrl; Cache.timestamp := now |} ]}).
Proof.
  intros stackOf st infoSt Hreach counts st' infoSt'.
  assert (Server.reachable stackOf st') as Hreach'
    by exact (Server.reachable_exec stackOf Server.CacheClear st Hreach).
  pose proof (reachable_consistent stackOf st' Hreach') as Hst'.
  repeat (split; [reflexivity|]).
  split; [exact Hreach'|]. split.
  - intros now id.
    destruct (fetchStreamUrl_not_cached now id st' Hst') as (p & Hfst & _ & _ & Hcalls).
    { apply lookup_empty. }
    exists p. split; [exact Hfst|].
    change (Server.pendingStreamRequests st') with (Server.pendingStreamRequests st) in Hcalls.
    change (Server.getInfoCallsFor id st') with (Server.getInfoCallsFor id st) in Hcalls.
    destruct (Server.pendingStreamRequests st !! id); [exact Hcalls | now destruct Hcalls].
  - intros now p id info directUrl Hawait Hok.
    unfold Server.getInfoSettles.
    change (Server.awaitingGetInfo st') with (Server.awaitingGetInfo st).
    rewrite Hawait, Hok. simpl. unfold Cache.setCachedStreamUrl.
    apply insert_empty.
Qed.

(** The theorem at work: one URL cached, another extraction in flight, then
    the clear. *)
Lemma cache_clear_keeps_extractions_in_flight_witness :
  let st := snd (Server.run (fun msg => msg)
                   [Server.CallFetchStreamUrl 0 "dQw4w9WgXcQ";
                    Server.GetInfoSettles 10 0 (Server.InfoResolved [Samples.webmAt256]);
                    Server.CallFetchStreamUrl 20 "kJQP7kiw5Fk"]
                   Server.initial) in
  let st' := snd (fst (Api.cacheClear st Server.initialInfo)) in
  Api.clearedStreamUrls (fst (fst (Api.cacheClear st Server.initialInfo))) = 1%nat
  /\ Server.streamUrlCache st' = ∅
  /\ Server.streamUrlCache
       (Server.getInfoSettles (fun msg => msg) 30 1
          (Server.InfoResolved [Samples.mp4At128]) st')
     = {[ "kJQP7kiw5Fk"%string :=
            {| Cache.url := "https://cdn.example/audio.mp4"; Cache.timestamp := 30 |} ]}.
Proof.
  intros st st'.
  destruct (cache_clear_keeps_extractions_in_flight (fun msg => msg) st Server.initialInfo)
    as (Hcount & _ & Hempty & _ & _ & _ & _ & _ & Hsettle).
  - apply reachable_run. apply Server.reachable_initial.
  - split; [rewrite Hcount; vm_compute; reflexivity|]. split; [exact Hempty|].
    apply Hsettle; vm_compute; reflexivity.
Defined.

(** ** Metadata resolution *)

Section MetadataFacts.
Import Server.

Lemma orDefault_truthy x d : d <> ""%string -> Js.orDefault x d <> ""%string.
Proof.
  intros Hd. unfold Js.orDefault. destruct x as [s|]; [|exact Hd].
  destruct (Js.truthy s) eqn:Hs; [now apply truthy_nonempty | exact Hd].
Qed.

Lemma orDefault_falsy x d :
  x = None \/ x = Some ""%string -> Js.orDefault x d = d.
Proof. now intros [-> | ->]. Qed.

Lemma last_snoc {A} (l : list A) x d : List.last (l ++ [x]) d = x.
Proof. apply last_last. Qed.

Lemma getCachedInfo_miss now id (c : gmap string Cache.infoEntry) :
  fst (Cache.getCachedVideoInfo now id c) = None ->
  snd (Cache.getCachedVideoInfo now id c) !! id = None.
Proof.
  unfold Cache.getCachedVideoInfo.
  destruct (c !! id) as [cached|] eqn:Hc; simpl; [|auto].
  destruct (_ <? _); simpl; [intros _; apply lookup_delete_eq | discriminate].
Qed.

Lemma pendingInfoNotCached_subset c st :
  Api.pendingInfoNotCached st ->
  (forall k e, c !! k = Some e -> videoInfoCache st !! k = Some e) ->
  Api.pendingInfoNotCached (withInfoCache c st).
Proof.
  intros Hst Hsub id p Hp. simpl in *.
  destruct (c !! id) as [e|] eqn:E; [|reflexivity].
  apply Hsub in E. rewrite (Hst id p Hp) in E. discriminate.
Qed.

Lemma reachableInfo_pendingInfoNotCached st :
  reachableInfo st -> Api.pendingInfoNotCached st.
Proof.
  induction 1 as [|ev st Hreach IH].
  - intros id p. unfold initialInfo. simpl. rewrite lookup_empty. discriminate.
  - pose proof (reachableInfo_consistent st Hreach) as Hst.
    destruct ev as [now id | now p r | | now]; simpl.
    + unfold fetchVideoInfo.
      pose proof (getCachedInfo_miss now id (videoInfoCache st)) as Hmiss.
      pose proof (fun k e => getCachedInfo_subset now id (videoInfoCache st) k e) as Hsub.
      destruct (Cache.getCachedVideoInfo now id (videoInfoCache st)) as [cached cache].
      simpl in Hmiss, Hsub.
      destruct cached as [i|]; simpl; [now apply pendingInfoNotCached_subset|].
      destruct (pendingInfoRequests st !! id) as [p|] eqn:Hpending; simpl;
        [now apply pendingInfoNotCached_subset|].
      intros k q Hk. simpl in *.
      apply lookup_insert_Some in Hk as [[<- <-] | [Hne Hk]]; [now apply Hmiss|].
      destruct (cache !! k) as [e|] eqn:E; [|reflexivity].
      apply Hsub in E. rewrite (IH k q Hk) in E. discriminate.
    + unfold basicInfoSettles.
      destruct (awaitingBasicInfo st !! p) as [id|] eqn:Hawait; [|exact IH].
      intros k q Hk. simpl in *.
      apply lookup_delete_Some in Hk as [Hne Hk].
      destruct (resolveInfo id r); [|now apply (IH k q)].
      unfold Cache.setCachedVideoInfo. rewrite lookup_insert_ne by exact Hne.
      now apply (IH k q).
    + apply pendingInfoNotCached_subset; [exact IH|].
      intros k e. rewrite lookup_empty. discriminate.
    + apply pendingInfoNotCached_subset; [exact IH|].
      intros k e Hk. rewrite sweepInfo_lookup in Hk.
      destruct (videoInfoCache st !! k) as [e'|]; [|discriminate].
      destruct (_ <? _); [discriminate | exact Hk].
Qed.

Lemma withInfoCache_same st : withInfoCache (videoInfoCache st) st = st.
Proof. now destruct st. Qed.

End MetadataFacts.

(** The metadata [fetchVideoInfo] builds never lacks a title or a channel
    name.  The identifier is the one asked for; the title is the video's,
    or "Unknown Title" when that is missing or empty; the channel name is
    the author's name, else the owner channel name, else "Unknown
    Channel"; the thumbnail is the last one listed, or empty when none is
    listed; the duration is the number of seconds, or 0 when it is not a
    number. *)
Theorem metadata_fields_have_defaults :
  forall videoId details,
    exists info,
      Server.resolveInfo videoId (Server.BasicInfoResolved details) = Server.InfoFulfilled info
      /\ Cache.videoId info = videoId
      /\ Cache.title info <> ""%string
      /\ Cache.channelName info <> ""%string
      /\ (forall t, Server.detailsTitle details = Some t -> t <> ""%string ->
                    Cache.title info = t)
      /\ (Server.detailsTitle details = None \/ Server.detailsTitle details = Some ""%string ->
          Cache.title info = "Unknown Title"%string)
      /\ (forall n, Server.authorName details = Some n -> n <> ""%string ->
                    Cache.channelName info = n)
      /\ (Server.authorName details = None \/ Server.authorName details = Some ""%string ->
          (forall o, Server.ownerChannelName details = Some o -> o <> ""%string ->
                     Cache.channelName info = o)
          /\ (Server.ownerChannelName details = None
              \/ Server.ownerChannelName details = Some ""%string ->
              Cache.channelName info = "Unknown Channel"%string))
      /\ (Server.thumbnails details = [] -> Cache.thumbnail info = ""%string)
      /\ (forall earlier u, Server.thumbnails details = earlier ++ [Some u] ->
                            Cache.thumbnail info = u)
      /\ Cache.duration info = Js.numOrZero (Server.lengthSeconds details).
Proof.
  intros videoId details. eexists. split; [reflexivity|]. simpl.
  split; [reflexivity|].
  split; [apply orDefault_truthy; discriminate|].
  split; [apply orDefault_truthy; apply orDefault_truthy; discriminate|].
  split; [intros t -> Ht; now apply orDefault_nonempty|].
  split; [apply orDefault_falsy|].
  split; [intros n -> Hn; now apply orDefault_nonempty|].
  split.
  { intros Hauthor. rewrite (orDefault_falsy _ _ Hauthor). split.
    - intros o -> Ho. now apply orDefault_nonempty.
    - apply orDefault_falsy. }
  split; [now intros ->|].
  split; [|reflexivity].
  intros earlier u ->. rewrite last_snoc.
  unfold Js.orDefault. destruct (Js.truthy u) eqn:Hu; [reflexivity|].
  symmetry. now apply truthy_false_empty.
Qed.

(** The theorem at work: a video without an author, with two thumbnails. *)
Lemma metadata_fields_have_defaults_witness :
  exists info,
    Server.resolveInfo "dQw4w9WgXcQ"
      (Server.BasicInfoResolved
         {| Server.detailsTitle := Some "Never Gonna Give You Up"%string;
            Server.authorName := None;
            Server.ownerChannelName := Some "Rick Astley"%string;
            Server.thumbnails := [Some "https://i/small.jpg"%string;
                                  Some "https://i/large.jpg"%string];
            Server.lengthSeconds := Some 212 |})
    = Server.InfoFulfilled info
    /\ Cache.title info = "Never Gonna Give You Up"%string
    /\ Cache.channelName info = "Rick Astley"%string
    /\ Cache.thumbnail info = "https://i/large.jpg"%string.
Proof.
  destruct (metadata_fields_have_defaults "dQw4w9WgXcQ"
              {| Server.detailsTitle := Some "Never Gonna Give You Up"%string;
                 Server.authorName := None;
                 Server.ownerChannelName := Some "Rick Astley"%string;
                 Server.thumbnails := [Some "https://i/small.jpg"%string;
                                       Some "https://i/large.jpg"%string];
                 Server.lengthSeconds := Some 212 |})
    as (info & Hinfo & _ & _ & _ & Htitle & _ & _ & Hchannel & _ & Hthumb & _).
  exists info. split; [exact Hinfo|]. split; [|split].
  - apply Htitle; [reflexivity | discriminate].
  - apply (proj1 (Hchannel (or_introl eq_refl))); [reflexivity | discriminate].
  - apply (Hthumb [Some "https://i/small.jpg"%string]). reflexivity.
Defined.

(** Metadata is cached for a day, and a failure is not cached.  When the
    call of [ytdl.getBasicInfo] made for an identifier settles, the
    identifier is no longer pending.  If the call was rejected, the cache
    is what it was, the promise is rejected with the same error, and the
    next call of [fetchVideoInfo] for the identifier calls
    [ytdl.getBasicInfo] again.  If it was fulfilled, the metadata is
    cached with the time of the settlement, and every call of
    [fetchVideoInfo] for the identifier within 24 hours of it returns that
    metadata and leaves the state as it is. *)
Theorem metadata_is_cached_and_failures_are_not :
  forall st now p id r,
    Server.reachableInfo st ->
    Server.awaitingBasicInfo st !! p = Some id ->
    let st' := Server.basicInfoSettles now p r st in
    Server.pendingInfoRequests st' !! id = None
    /\ Server.settledInfo st' !! p = Some (Server.resolveInfo id r)
    /\ match r with
       | Server.BasicInfoRejected e =>
           Server.resolveInfo id r = Server.InfoFailed e
           /\ Server.videoInfoCache st' = Server.videoInfoCache st
           /\ forall later,
               exists fresh,
                 fst (Server.fetchVideoInfo later id st') = Server.AdoptsInfo fresh
                 /\ fresh <> p
                 /\ Server.awaitingBasicInfo (snd (Server.fetchVideoInfo later id st')) !! fresh
                    = Some id
                 /\ Server.getBasicInfoCalls (snd (Server.fetchVideoInfo later id st'))
                    = Server.getBasicInfoCalls st ++ [id]
       | Server.BasicInfoResolved _ =>
           exists info,
             Server.resolveInfo id r = Server.InfoFulfilled info
             /\ Cache.videoId info = id
             /\ Server.videoInfoCache st' !! id
                = Some {| Cache.info := info; Cache.infoTimestamp := now |}
             /\ forall later,
                 later - now <= Cache.INFO_CACHE_TTL_MS ->
                 Server.fetchVideoInfo later id st' = (Server.CachedInfo info, st')
       end.
Proof.
  intros st now p id r Hreach Hawait st'.
  pose proof (reachableInfo_consistent st Hreach) as Hst.
  pose proof (reachableInfo_pendingInfoNotCached st Hreach) as Hapart.
  pose proof (Server.awaitingInfo_is_pending st Hst p id Hawait) as Hpending.
  pose proof (Hapart id p Hpending) as Habsent.
  pose proof (Server.awaitingInfo_is_old st Hst p id Hawait) as Hold.
  assert (Server.pendingInfoRequests st' !! id = None) as Hgone.
  { subst st'. unfold Server.basicInfoSettles. rewrite Hawait. simpl. apply lookup_delete_eq. }
  split; [exact Hgone|]. split.
  { subst st'. unfold Server.basicInfoSettles. rewrite Hawait. simpl. apply lookup_insert_eq. }
  destruct r as [e | details].
  - split; [reflexivity|].
    assert (Server.videoInfoCache st' = Server.videoInfoCache st) as Hsame.
    { subst st'. unfold Server.basicInfoSettles. now rewrite Hawait. }
    split; [exact Hsame|].
    intros later. exists (Server.nextInfoPromise st).
    unfold Server.fetchVideoInfo, Cache.getCachedVideoInfo.
    rewrite Hsame, Habsent, Hgone. simpl.
    assert (Server.nextInfoPromise st' = Server.nextInfoPromise st) as ->.
    { subst st'. unfold Server.basicInfoSettles. now rewrite Hawait. }
    split; [reflexivity|]. split; [lia|]. split; [apply lookup_insert_eq|].
    subst st'. unfold Server.basicInfoSettles. now rewrite Hawait.
  - eexists. split; [reflexivity|]. split; [reflexivity|].
    assert (Server.videoInfoCache st' !! id
            = Some {| Cache.info :=
                        {| Cache.videoId := id;
                           Cache.title :=
                             Js.orDefault (Server.detailsTitle details) "Unknown Title";
                           Cache.channelName :=
                             Js.orDefault (Server.authorName details)
                               (Js.orDefault (Server.ownerChannelName details)
                                  "Unknown Channel");
                           Cache.thumbnail :=
                             Js.orDefault (List.last (Server.thumbnails details) None) "";
                           Cache.duration := Js.numOrZero (Server.lengthSeconds details) |};
                      Cache.infoTimestamp := now |}) as Hentry.
    { subst st'. unfold Server.basicInfoSettles. rewrite Hawait. simpl.
      apply lookup_insert_eq. }
    split; [exact Hentry|].
    intros later Hfresh. unfold Server.fetchVideoInfo, Cache.getCachedVideoInfo.
    rewrite Hentry. simpl. apply Z.ltb_ge in Hfresh. rewrite Hfresh.
    now rewrite withInfoCache_same.
Qed.

(** The theorem at work: the one call made so far is rejected. *)
Lemma metadata_is_cached_and_failures_are_not_witness :
  let st := Server.execInfo (Server.CallFetchVideoInfo 0 "dQw4w9WgXcQ") Server.initialInfo in
  let st' := Server.basicInfoSettles 10 0
               (Server.BasicInfoRejected (Js.mkError "Error" "Video unavailable" "")) st in
  Server.pendingInfoRequests st' !! "dQw4w9WgXcQ"%string = None
  /\ Server.videoInfoCache st' = Server.videoInfoCache st
  /\ exists fresh,
      fst (Server.fetchVideoInfo 20 "dQw4w9WgXcQ" st') = Server.AdoptsInfo fresh
      /\ fresh <> 0%nat.
Proof.
  intros st st'.
  destruct (metadata_is_cached_and_failures_are_not st 10 0 "dQw4w9WgXcQ"
              (Server.BasicInfoRejected (Js.mkError "Error" "Video unavailable" "")))
    as (Hgone & _ & _ & Hsame & Hnext).
  - apply Server.reachableInfo_exec. apply Server.reachableInfo_initial.
  - vm_compute. reflexivity.
  - split; [exact Hgone|]. split; [exact Hsame|].
    destruct (Hnext 20) as (fresh & Hfst & Hne & _).
    exists fresh. split; [exact Hfst | exact Hne].
Defined.

(** ** The format selection of the yt-dlp variant: when the container decides *)

Section ContainerFacts.
Import History.

(** [format.abr] as a summand of the score. *)
Local Abbreviation rate f := (match abr f with Some r => r | None => 0%Q end).

(** The selection returns a format that scores no less than any
    candidate. *)
Lemma selectFastestAudioFormat_some formats f :
  In f formats -> isAudioCandidate f = true ->
  exists best,
    selectFastestAudioFormat formats = Some best /\ (score f <= score best)%Q.
Proof.
  intros Hin Hf.
  assert (In f (List.filter isAudioCandidate formats)) as Hcand by now apply filter_In.
  pose proof (selectFastestAudioFormat_first_of_highest formats) as Hsel.
  destruct (List.filter isAudioCandidate formats) as [|first rest]; [contradiction|].
  destruct Hsel as (earlier & best & later & Hsplit & Hbest & Hbefore & Hafter).
  exists best. split; [exact Hbest|].
  rewrite Hsplit in Hcand. apply in_app_iff in Hcand as [Hc | [<- | Hc]].
  - apply Qlt_le_weak. now apply Hbefore.
  - apply Qle_refl.
  - now apply Hafter.
Qed.

(** Two integers, no more than 901 apart, between which the two bit rates
    lie. *)
Lemma rates_apart (rf rg : Q) :
  (inject_Z (- 2 ^ 52) <= rf)%Q -> (inject_Z (- 2 ^ 52) <= rg)%Q ->
  (rg <= inject_Z (2 ^ 52))%Q -> (rg - rf <= 900)%Q ->
  exists lo hi,
    - 2 ^ 52 <= lo /\ hi <= 2 ^ 52 /\ hi - 901 <= lo
    /\ (inject_Z lo <= rf)%Q /\ (rg <= inject_Z hi)%Q.
Proof.
  intros Hf Hg1 Hg2 Hdiff.
  pose proof (Qle_ceiling rg) as Hceil. pose proof (Qceiling_lt rg) as Hnear.
  assert (Qceiling rg <= 2 ^ 52) as Hhi.
  { apply Qceiling_resp_le in Hg2. now rewrite Qceiling_Z in Hg2. }
  exists (Z.max (Qceiling rg - 901) (- 2 ^ 52)), (Qceiling rg).
  split; [lia|]. split; [exact Hhi|]. split; [lia|]. split; [|exact Hceil].
  destruct (Z.max_spec (Qceiling rg - 901) (- 2 ^ 52)) as [[_ ->] | [_ ->]]; [exact Hf|].
  assert (inject_Z (Qceiling rg - 901) == inject_Z (Qceiling rg - 1) - 900)%Q as ->.
  { unfold Qeq, Qminus, Qplus, Qopp, inject_Z. simpl. lia. }
  lra.
Qed.

End ContainerFacts.

(** In the selection of the yt-dlp variant the container decides unless the
    bit rates are far apart.  Take two candidates of positive size that are
    both DASH or both not, with bit rates of magnitude 2^52 at most.  The
    one whose container has the higher priority has the higher score
    whenever the bit rate of the other exceeds its own by no more than 900;
    so the selection, which then returns some format, does not return the
    other one.  The scores are the double-precision sums of the source;
    without the bound on the magnitude the bit rates would absorb the
    priorities. *)
Theorem container_outranks_bitrate_within_900 :
  forall formats f g sizeF sizeG,
    In f formats ->
    History.isAudioCandidate f = true ->
    History.isAudioCandidate g = true ->
    History.filesize f = Some sizeF -> 0 < sizeF ->
    History.filesize g = Some sizeG -> 0 < sizeG ->
    History.isString (History.protocol f) "http_dash_segments"
    = History.isString (History.protocol g) "http_dash_segments" ->
    History.priorityOf (History.containerOf g) < History.priorityOf (History.containerOf f) ->
    (inject_Z (- 2 ^ 52) <= match History.abr f with Some r => r | None => 0 end)%Q ->
    (match History.abr f with Some r => r | None => 0 end <= inject_Z (2 ^ 52))%Q ->
    (inject_Z (- 2 ^ 52) <= match History.abr g with Some r => r | None => 0 end)%Q ->
    (match History.abr g with Some r => r | None => 0 end <= inject_Z (2 ^ 52))%Q ->
    (match History.abr g with Some r => r | None => 0 end
     - match History.abr f with Some r => r | None => 0 end <= 900)%Q ->
    (History.score g < History.score f)%Q
    /\ exists best,
        History.selectFastestAudioFormat formats = Some best
        /\ (History.score g < History.score best)%Q.
Proof.
  intros formats f g sizeF sizeG Hin Hf Hg HsizeF HposF HsizeG HposG Hdash Hpriority
         HlowF HhighF HlowG HhighG Hrate.
  destruct (isAudioCandidate_size f Hf) as (sf & Hsf & _ & Hltf).
  destruct (isAudioCandidate_size g Hg) as (sg & Hsg & _ & Hltg).
  rewrite HsizeF in Hsf. injection Hsf as <-. rewrite HsizeG in Hsg. injection Hsg as <-.
  destruct (rates_apart _ _ HlowF HlowG HhighG Hrate)
    as (lo & hi & Hlo & Hhi & Hnear & Hflo & Hghi).
  destruct (score_between f sizeF lo (2 ^ 52) HsizeF (conj HposF Hltf))
    as [Hscoref _]; [exact Hlo | lia | exact Hflo | exact HhighF |].
  destruct (score_between g sizeG (- 2 ^ 52) hi HsizeG (conj HposG Hltg))
    as [_ Hscoreg]; [lia | exact Hhi | exact HlowG | exact Hghi |].
  cbv zeta in Hscoref, Hscoreg. rewrite Hdash in Hscoref.
  assert (History.score g < History.score f)%Q as Hless.
  { eapply Qle_lt_trans; [exact Hscoreg|].
    eapply Qlt_le_trans; [|exact Hscoref].
    rewrite <- Zlt_Qlt. lia. }
  split; [exact Hless|].
  destruct (selectFastestAudioFormat_some formats f Hin Hf) as (best & Hbest & Hle).
  exists best. split; [exact Hbest|].
  eapply Qlt_le_trans; [exact Hless | exact Hle].
Qed.

(** The theorem at work on two files of 3 and 6 MB: the [mp4] candidate at
    128 outranks the [webm] candidate at 256. *)
Lemma container_outranks_bitrate_within_900_witness :
  (History.score (Samples.ytDlpWebmAt256 6867028)
   < History.score (Samples.ytDlpMp4At128 3433514))%Q
  /\ exists best,
      History.selectFastestAudioFormat
        [Samples.ytDlpWebmAt256 6867028; Samples.ytDlpMp4At128 3433514]
      = Some best
      /\ (History.score (Samples.ytDlpWebmAt256 6867028) < History.score best)%Q.
Proof.
  apply (container_outranks_bitrate_within_900
           [Samples.ytDlpWebmAt256 6867028; Samples.ytDlpMp4At128 3433514]
           (Samples.ytDlpMp4At128 3433514) (Samples.ytDlpWebmAt256 6867028)
           3433514 6867028).
  - right. now left.
  - vm_compute. reflexivity.
  - vm_compute. reflexivity.
  - reflexivity.
  - lia.
  - reflexivity.
  - lia.
  - reflexivity.
  - vm_compute. reflexivity.
  - vm_compute. discriminate.
  - vm_compute. discriminate.
  - vm_compute. discriminate.
  - vm_compute. discriminate.
  - vm_compute. discriminate.
Defined.

(** The sums are those of double precision: at a bit rate of 2^70 the
    priorities are absorbed, an [m4a] and an [mp4] candidate score the same,
    and the selection returns the one listed first. *)
Example large_bit_rates_absorb_the_priority :
  let at70 ext :=
    {| History.vcodec := Some "none"%string;
       History.acodec := Some "mp4a.40.2"%string;
       History.filesize := Some 3433514;
       History.container := None;
       History.ext := Some ext;
       History.abr := Some (inject_Z (2 ^ 70));
       History.protocol := Some "https"%string;
       History.url := Some "https://cdn.example/audio"%string |} in
  (History.score (at70 "m4a"%string) == inject_Z (2 ^ 70))%Q
  /\ (History.score (at70 "mp4"%string) == inject_Z (2 ^ 70))%Q
  /\ History.selectFastestAudioFormat [at70 "mp4"%string; at70 "m4a"%string]
     = Some (at70 "mp4"%string).
Proof. intros at70. repeat split; vm_compute; reflexivity. Qed.

(** ** The yt-dlp variant: thumbnails *)

Section ThumbnailFacts.
Import Snapshot.

Lemma wider_cases acc t :
  (wider acc t = t /\ widthOf acc < widthOf t)
  \/ (wider acc t = acc /\ widthOf t <= widthOf acc).
Proof.
  unfold wider. destruct (Z.ltb_spec (widthOf acc) (widthOf t)); [left | right];
    split; (reflexivity || lia).
Qed.

(** The reduction returns the first of the widest: an element of the list
    (or the initial one), at least as wide as the initial one and as every
    element, and strictly wider than those that come before it. *)
Lemma widest_first l :
  forall first,
    let best := fold_left wider l first in
    widthOf first <= widthOf best
    /\ (forall t, In t l -> widthOf t <= widthOf best)
    /\ ((best = first /\ forall t, In t l -> widthOf t <= widthOf first)
        \/ exists earlier later,
            l = earlier ++ best :: later
            /\ widthOf first < widthOf best
            /\ forall t, In t earlier -> widthOf t < widthOf best).
Proof.
  induction l as [|x l IH]; intros first; simpl.
  - split; [lia|]. split; [intros t []|]. left. split; [reflexivity | intros t []].
  - specialize (IH (wider first x)). cbv zeta in IH.
    destruct IH as (Hfirst & Hall & Hcases).
    destruct (wider_cases first x) as [[Heq Hlt] | [Heq Hle]]; rewrite Heq in *.
    + split; [lia|]. split.
      * intros t [<- | Ht]; [exact Hfirst | now apply Hall].
      * right. destruct Hcases as [[Hbest Hrest] | (earlier & later & Hsplit & Hgt & Hbefore)].
        -- exists [], l. rewrite Hbest. split; [reflexivity|]. split; [exact Hlt|]. intros t [].
        -- exists (x :: earlier), later. split; [simpl; f_equal; exact Hsplit|].
           split; [lia|].
           intros t [<- | Ht]; [exact Hgt | now apply Hbefore].
    + split; [exact Hfirst|]. split.
      * intros t [<- | Ht]; [lia | now apply Hall].
      * destruct Hcases as [[Hbest Hrest] | (earlier & later & Hsplit & Hgt & Hbefore)].
        -- left. split; [exact Hbest|]. intros t [<- | Ht]; [exact Hle | now apply Hrest].
        -- right. exists (x :: earlier), later. split; [simpl; f_equal; exact Hsplit|].
           split; [exact Hgt|].
           intros t [<- | Ht]; [lia | now apply Hbefore].
Qed.

End ThumbnailFacts.

(** The thumbnail of the yt-dlp variant.  A [thumbnail] string that is not
    empty is returned as it is.  Otherwise the result is the URL of the
    first of the widest entries of [thumbnails] (an entry without a width,
    or a [null] entry, counts as of width 0), or the empty string when that
    entry has no URL, even if a narrower one has; and it is the empty
    string when there are no thumbnails. *)
Theorem widest_thumbnail_is_picked :
  forall thumbnail thumbnails,
    (forall s, thumbnail = Some s -> s <> ""%string ->
               Snapshot.pickBestThumbnailFromYtDlpJson thumbnail thumbnails = s)
    /\ (thumbnail = None \/ thumbnail = Some ""%string ->
        (thumbnails = None \/ thumbnails = Some [] ->
         Snapshot.pickBestThumbnailFromYtDlpJson thumbnail thumbnails = ""%string)
        /\ (forall first rest,
               thumbnails = Some (first :: rest) ->
               exists earlier best later,
                 first :: rest = earlier ++ best :: later
                 /\ (forall t, In t (first :: rest) ->
                               Snapshot.widthOf t <= Snapshot.widthOf best)
                 /\ (forall t, In t earlier -> Snapshot.widthOf t < Snapshot.widthOf best)
                 /\ Snapshot.pickBestThumbnailFromYtDlpJson thumbnail thumbnails
                    = Js.orDefault
                        match best with
                        | Some b => Snapshot.thumbUrl b
                        | None => None
                        end
                        "")).
Proof.
  intros thumbnail thumbnails. split.
  - intros s -> Hs. unfold Snapshot.pickBestThumbnailFromYtDlpJson.
    now rewrite whenTruthy_nonempty.
  - intros Hthumbnail.
    assert (Js.whenTruthy thumbnail = None) as Hnone by now destruct Hthumbnail as [-> | ->].
    unfold Snapshot.pickBestThumbnailFromYtDlpJson. rewrite Hnone. split.
    + now intros [-> | ->].
    + intros first rest ->.
      pose proof (widest_first (first :: rest) first) as H. cbv zeta in H.
      destruct H as (_ & Hall & Hcases).
      destruct Hcases as [[Hbest Hrest] | (earlier & later & Hsplit & _ & Hbefore)].
      * exists [], first, rest. rewrite Hbest. split; [reflexivity|].
        split; [exact Hrest|]. split; [intros t []|reflexivity].
      * exists earlier, (fold_left Snapshot.wider (first :: rest) first), later.
        split; [exact Hsplit|]. split; [exact Hall|]. split; [exact Hbefore | reflexivity].
Qed.

(** The theorem at work: three entries, the two widest of the same width,
    the first of them without a URL. *)
Lemma widest_thumbnail_is_picked_witness :
  Snapshot.pickBestThumbnailFromYtDlpJson (Some "https://i/top.jpg"%string) None
  = "https://i/top.jpg"%string
  /\ exists earlier best later,
      [Some {| Snapshot.width := Some 120; Snapshot.thumbUrl := Some "https://i/s.jpg"%string |};
       Some {| Snapshot.width := Some 640; Snapshot.thumbUrl := None |};
       Some {| Snapshot.width := Some 640; Snapshot.thumbUrl := Some "https://i/l.jpg"%string |}]
      = earlier ++ best :: later
      /\ Snapshot.pickBestThumbnailFromYtDlpJson None
           (Some
              [Some {| Snapshot.width := Some 120;
                       Snapshot.thumbUrl := Some "https://i/s.jpg"%string |};
               Some {| Snapshot.width := Some 640; Snapshot.thumbUrl := None |};
               Some {| Snapshot.width := Some 640;
                       Snapshot.thumbUrl := Some "https://i/l.jpg"%string |}])
         = Js.orDefault match best with
                        | Some b => Snapshot.thumbUrl b
                        | None => None
                        end "".
Proof.
  split.
  - apply (proj1 (widest_thumbnail_is_picked (Some "https://i/top.jpg"%string) None));
      [reflexivity | discriminate].
  - destruct (proj2 (proj2 (widest_thumbnail_is_picked None
                (Some
                   [Some {| Snapshot.width := Some 120;
                            Snapshot.thumbUrl := Some "https://i/s.jpg"%string |};
                    Some {| Snapshot.width := Some 640; Snapshot.thumbUrl := None |};
                    Some {| Snapshot.width := Some 640;
                            Snapshot.thumbUrl := Some "https://i/l.jpg"%string |}]))
                (or_introl eq_refl)) _ _ eq_refl)
      as (earlier & best & later & Hsplit & _ & _ & Hpick).
    exists earlier, best, later. split; [exact Hsplit | exact Hpick].
Defined.

(** ** The yt-dlp variant: deduplication of stream resolutions *)

Section SnapshotDedup.
Import Snapshot.

Lemma snapshot_consistent_initial : consistent initial.
Proof.
  split; unfold initial, inFlight, waitersFor; simpl.
  - intros videoId H. now apply elem_of_empty in H.
  - intros p id [H | H]; rewrite lookup_empty in H; discriminate.
  - intros p1 p2 id [H | H]; rewrite lookup_empty in H; discriminate.
  - intros p id1 id2 [H | H]; rewrite lookup_empty in H; discriminate.
  - intros p id [H | H]; rewrite lookup_empty in H; discriminate.
  - intros id w. rewrite lookup_empty. intros [].
  - intros id w id'. rewrite lookup_empty. intros [].
  - intros id1 id2 w. rewrite lookup_empty. intros [].
  - intros p o. rewrite lookup_empty. discriminate.
Qed.

(** The waiters under an identifier after one more has registered. *)
Lemma waitersFor_insert id ws id' (m : gmap string (list nat)) :
  match <[id := ws]> m !! id' with Some l => l | None => [] end
  = if decide (id = id') then ws else match m !! id' with Some l => l | None => [] end.
Proof.
  destruct (decide (id = id')) as [-> | Hne].
  - now rewrite lookup_insert_eq.
  - now rewrite lookup_insert_ne.
Qed.

Lemma getStreamUrl_consistent cached id st :
  consistent st -> consistent (snd (getStreamUrl cached id st)).
Proof.
  intros Hst. unfold getStreamUrl.
  destruct (Js.whenTruthy cached) as [u|]; [exact Hst|].
  destruct Hst as [Ha Hb Hc Hd He Hf Hg Hh Hi].
  assert (Hfresh : settled st !! nextPromise st = None).
  { destruct (settled st !! nextPromise st) as [o|] eqn:E; [|reflexivity].
    apply Hi in E. lia. }
  assert (Hnew : forall id', ~ inFlight st (nextPromise st) id').
  { intros id' H. apply He in H. lia. }
  destruct (decide (id ∈ pendingRequests st)) as [Hpending | Hnot]; simpl.
  - split; unfold inFlight, waitersFor in *; simpl in *.
    + exact Ha.
    + exact Hb.
    + exact Hc.
    + exact Hd.
    + intros p k H. destruct (He p k H). split; [lia | assumption].
    + intros k w. rewrite waitersFor_insert.
      destruct (decide (id = k)) as [<- | Hne].
      * intros [Hw | [<- | []]]%in_app_iff.
        -- destruct (Hf id w Hw) as (H1 & H2 & H3). repeat split; [assumption | lia | assumption].
        -- repeat split; [assumption | lia | assumption].
      * intros Hw. destruct (Hf k w Hw) as (H1 & H2 & H3).
        repeat split; [assumption | lia | assumption].
    + intros k w k'. rewrite waitersFor_insert.
      destruct (decide (id = k)) as [<- | Hne].
      * intros [Hw | [<- | []]]%in_app_iff; [now apply (Hg id) | apply Hnew].
      * apply Hg.
    + intros k1 k2 w. rewrite !waitersFor_insert.
      assert (Hold : forall k, In (nextPromise st)
                                  (match waiters st !! k with Some l => l | None => [] end) ->
                               False).
      { intros k Hw. destruct (Hf k _ Hw) as (_ & H & _). lia. }
      destruct (decide (id = k1)) as [<- | Hne1]; destruct (decide (id = k2)) as [<- | Hne2];
        try reflexivity.
      * intros [Hw | [<- | []]]%in_app_iff Hw2; [now apply (Hh id k2 w) | now apply Hold in Hw2].
      * intros Hw1 [Hw | [<- | []]]%in_app_iff; [now apply (Hh k1 id w) | now apply Hold in Hw1].
      * apply Hh.
    + intros p o H. apply Hi in H. lia.
  - split; unfold inFlight, waitersFor in *; simpl in *.
    + intros k Hk. destruct (decide (k = id)) as [-> | Hne].
      * exists (nextPromise st). left. apply lookup_insert_eq.
      * assert (k ∈ pendingRequests st) as Hk'.
        { apply elem_of_union in Hk as [Hk | Hk]; [|exact Hk].
          apply elem_of_singleton in Hk. contradiction. }
        destruct (Ha k Hk') as (p & Hp). exists p.
        destruct Hp as [Hp | Hp]; [left | right; exact Hp].
        rewrite lookup_insert_ne; [exact Hp|].
        intros <-. apply (Hnew k). now left.
    + intros p k [Hp | Hp].
      * apply lookup_insert_Some in Hp as [[<- <-] | [Hne Hp]].
        -- apply elem_of_union. left. now apply elem_of_singleton.
        -- apply elem_of_union. right. apply (Hb p). now left.
      * apply elem_of_union. right. apply (Hb p). now right.
    + intros p1 p2 k H1 H2.
      assert (Hcase : forall p, (<[nextPromise st := id]> (awaitingFormats st) !! p = Some k
                                 \/ awaitingFallback st !! p = Some k) ->
                                (p = nextPromise st /\ k = id)
                                \/ (awaitingFormats st !! p = Some k
                                    \/ awaitingFallback st !! p = Some k)).
      { intros p [Hp | Hp]; [|right; now right].
        apply lookup_insert_Some in Hp as [[<- <-] | [Hne Hp]]; [now left | right; now left]. }
      apply Hcase in H1, H2.
      destruct H1 as [[-> ->] | H1]; destruct H2 as [[-> Hk] | H2]; try reflexivity.
      * exfalso. apply Hnot. now apply (Hb p2).
      * exfalso. subst k. apply Hnot. now apply (Hb p1).
      * now apply (Hc p1 p2 k).
    + intros p k1 k2 H1 H2.
      destruct (decide (p = nextPromise st)) as [-> | Hne].
      * destruct H1 as [H1 | H1]; [|exfalso; apply (Hnew k1); now right].
        destruct H2 as [H2 | H2]; [|exfalso; apply (Hnew k2); now right].
        rewrite lookup_insert_eq in H1, H2. congruence.
      * rewrite lookup_insert_ne in H1, H2 by congruence. now apply (Hd p).
    + intros p k [Hp | Hp].
      * apply lookup_insert_Some in Hp as [[<- <-] | [Hne Hp]]; [split; [lia | assumption]|].
        destruct (He p k (or_introl Hp)). split; [lia | assumption].
      * destruct (He p k (or_intror Hp)). split; [lia | assumption].
    + intros k w Hw. destruct (Hf k w Hw) as (H1 & H2 & H3).
      repeat split; [apply elem_of_union; now right | lia | assumption].
    + intros k w k' Hw [Hp | Hp].
      * apply lookup_insert_Some in Hp as [[<- <-] | [Hne Hp]].
        -- destruct (Hf k _ Hw) as (_ & H & _). lia.
        -- apply (Hg k w k' Hw). now left.
      * apply (Hg k w k' Hw). now right.
    + exact Hh.
    + intros p o H. apply Hi in H. lia.
Qed.

(** The listeners of an emitted event all settle their promises. *)
Lemma settle_all_lookup (ws : list nat) o (m : gmap nat Server.outcome) p :
  fold_right (fun w acc => <[w := o]> acc) m ws !! p
  = if in_dec Nat.eq_dec p ws then Some o else m !! p.
Proof.
  induction ws as [|w ws IH]; simpl; [reflexivity|].
  destruct (Nat.eq_dec w p) as [-> | Hne].
  - apply lookup_insert_eq.
  - rewrite lookup_insert_ne by exact Hne. rewrite IH.
    destruct (in_dec Nat.eq_dec p ws); reflexivity.
Qed.

Lemma finish_consistent p id o st :
  consistent st -> inFlight st p id -> consistent (finish p id o st).
Proof.
  intros Hst Hp.
  assert (Hflight : forall p' id',
             inFlight (finish p id o st) p' id' <-> (p' <> p /\ inFlight st p' id')).
  { intros p' id'. unfold finish, inFlight. simpl. split.
    - intros [H | H]; apply lookup_delete_Some in H as [Hne H]; split; auto.
    - intros [Hne [H | H]]; [left | right]; rewrite lookup_delete_ne; auto. }
  assert (Hwaiters : forall id', waitersFor id' (finish p id o st)
                                 = if decide (id' = id) then [] else waitersFor id' st).
  { intros id'. unfold waitersFor, finish. simpl.
    destruct (decide (id' = id)) as [-> | Hne].
    - now rewrite lookup_delete_eq.
    - now rewrite lookup_delete_ne by congruence. }
  assert (Hpending : forall id', id' ∈ pendingRequests (finish p id o st)
                                 <-> id' ∈ pendingRequests st /\ id' <> id).
  { intros id'. unfold finish. simpl. rewrite elem_of_difference, elem_of_singleton. tauto. }
  assert (Hsettled : forall q, settled (finish p id o st) !! q
                               = if decide (q = p) then Some o
                                 else if in_dec Nat.eq_dec q (waitersFor id st) then Some o
                                      else settled st !! q).
  { intros q. unfold finish. simpl. destruct (decide (q = p)) as [-> | Hne].
    - apply lookup_insert_eq.
    - rewrite lookup_insert_ne by congruence. apply settle_all_lookup. }
  assert (nextPromise (finish p id o st) = nextPromise st) as Hnext by reflexivity.
  destruct Hst as [Ha Hb Hc Hd He Hf Hg Hh Hi]. split.
  - intros k Hk. apply Hpending in Hk as [Hk Hne].
    destruct (Ha k Hk) as (q & Hq). exists q. apply Hflight. split; [|exact Hq].
    intros ->. apply Hne. now apply (Hd p k id).
  - intros q k Hq. apply Hflight in Hq as [Hne Hq]. apply Hpending.
    split; [now apply (Hb q)|]. intros ->. apply Hne. now apply (Hc q p id).
  - intros p1 p2 k H1 H2. apply Hflight in H1 as [_ H1]. apply Hflight in H2 as [_ H2].
    now apply (Hc p1 p2 k).
  - intros q k1 k2 H1 H2. apply Hflight in H1 as [_ H1]. apply Hflight in H2 as [_ H2].
    now apply (Hd q k1 k2).
  - intros q k Hq. apply Hflight in Hq as [Hne Hq]. rewrite Hnext, Hsettled.
    destruct (He q k Hq) as [Hlt Hnone]. split; [exact Hlt|].
    destruct (decide (q = p)); [contradiction|].
    destruct (in_dec Nat.eq_dec q (waitersFor id st)) as [Hw | _]; [|exact Hnone].
    exfalso. now apply (Hg id q k Hw).
  - intros k w. rewrite Hwaiters. destruct (decide (k = id)) as [-> | Hne]; [intros []|].
    intros Hw. destruct (Hf k w Hw) as (H1 & H2 & H3).
    split; [apply Hpending; now split|]. split; [now rewrite Hnext|].
    rewrite Hsettled.
    destruct (decide (w = p)) as [-> | _]; [exfalso; now apply (Hg k p id Hw)|].
    destruct (in_dec Nat.eq_dec w (waitersFor id st)) as [Hw' | _]; [|exact H3].
    exfalso. apply Hne. now apply (Hh k id w).
  - intros k w k'. rewrite Hwaiters. destruct (decide (k = id)); [intros []|].
    intros Hw Hq. apply Hflight in Hq as [_ Hq]. now apply (Hg k w k').
  - intros k1 k2 w. rewrite !Hwaiters.
    destruct (decide (k1 = id)); [intros []|]. destruct (decide (k2 = id)); [intros _ []|].
    apply Hh.
  - intros q o'. rewrite Hsettled, Hnext.
    destruct (decide (q = p)) as [-> | _]; [intros _; now destruct (He p id Hp)|].
    destruct (in_dec Nat.eq_dec q (waitersFor id st)) as [Hw | _]; [|apply Hi].
    intros _. now destruct (Hf id q Hw) as (_ & H & _).
Qed.

Variable stackOf : string -> string.

Lemma formatsSettle_consistent p formats st :
  consistent st -> consistent (formatsSettle p formats st).
Proof.
  intros Hst. unfold formatsSettle.
  destruct (awaitingFormats st !! p) as [id|] eqn:Hp; [|exact Hst].
  destruct (firstMethod formats) as [directUrl|].
  { apply finish_consistent; [exact Hst | now left]. }
  set (st' := {| pendingRequests := pendingRequests st; waiters := waiters st;
                 awaitingFormats := delete p (awaitingFormats st);
                 awaitingFallback := <[p := id]> (awaitingFallback st);
                 settled := settled st; cacheSets := cacheSets st;
                 getAllFormatsCalls := getAllFormatsCalls st;
                 nextPromise := nextPromise st |}).
  assert (Hflight : forall q k, inFlight st' q k <-> inFlight st q k).
  { intros q k. unfold inFlight, st'. simpl. split.
    - intros [H | H].
      + apply lookup_delete_Some in H as [_ H]. now left.
      + apply lookup_insert_Some in H as [[<- <-] | [_ H]]; [now left | now right].
    - intros H. destruct (decide (q = p)) as [-> | Hne].
      + right. rewrite lookup_insert_eq. f_equal.
        apply (in_flight_one_id st Hst p id k); [now left | exact H].
      + destruct H as [H | H]; [left | right].
        * now rewrite lookup_delete_ne by congruence.
        * now rewrite lookup_insert_ne by congruence. }
  destruct Hst as [Ha Hb Hc Hd He Hf Hg Hh Hi]. split.
  - intros k Hk. destruct (Ha k Hk) as (q & Hq). exists q. now apply Hflight.
  - intros q k Hq. apply Hflight in Hq. now apply (Hb q).
  - intros p1 p2 k H1 H2. apply Hflight in H1, H2. now apply (Hc p1 p2 k).
  - intros q k1 k2 H1 H2. apply Hflight in H1, H2. now apply (Hd q k1 k2).
  - intros q k Hq. apply Hflight in Hq. now apply (He q k).
  - exact Hf.
  - intros k w k' Hw Hq. apply Hflight in Hq. now apply (Hg k w k').
  - exact Hh.
  - exact Hi.
Qed.

Lemma fallbackSettles_consistent p r st :
  consistent st -> consistent (fallbackSettles stackOf p r st).
Proof.
  intros Hst. unfold fallbackSettles.
  destruct (awaitingFallback st !! p) as [id|] eqn:Hp; [|exact Hst].
  apply finish_consistent; [exact Hst | now right].
Qed.

Lemma snapshot_exec_consistent ev st :
  consistent st -> consistent (snd (exec stackOf ev st)).
Proof.
  intros Hst. destruct ev as [cached id | p formats | p r]; simpl.
  - pose proof (getStreamUrl_consistent cached id st Hst) as H.
    now destruct (getStreamUrl cached id st).
  - now apply formatsSettle_consistent.
  - now apply fallbackSettles_consistent.
Qed.

Lemma snapshot_reachable_consistent st : reachable stackOf st -> consistent st.
Proof.
  induction 1 as [|ev st _ IH];
    [apply snapshot_consistent_initial | now apply snapshot_exec_consistent].
Qed.

(** What the end of an extraction settles. *)
Lemma finish_settled p id o st q :
  settled (finish p id o st) !! q
  = if decide (q = p) then Some o
    else if in_dec Nat.eq_dec q (waitersFor id st) then Some o
         else settled st !! q.
Proof.
  unfold finish. simpl. destruct (decide (q = p)) as [-> | Hne].
  - apply lookup_insert_eq.
  - rewrite lookup_insert_ne by congruence. apply settle_all_lookup.
Qed.

(** The end of the extraction for another identifier leaves what
    concerns this one. *)
Lemma finish_other p id' o st id :
  consistent st -> inFlight st p id' -> id' <> id ->
  (forall w, In w (waitersFor id st) -> In w (waitersFor id (finish p id' o st)))
  /\ (forall q, inFlight st q id -> inFlight (finish p id' o st) q id)
  /\ (id ∈ pendingRequests st -> id ∈ pendingRequests (finish p id' o st))
  /\ getAllFormatsCallsFor id (finish p id' o st) = getAllFormatsCallsFor id st.
Proof.
  intros Hst Hp Hne. split; [|split; [|split]].
  - intros w. unfold waitersFor, finish. simpl. now rewrite lookup_delete_ne.
  - intros q Hq.
    assert (q <> p) as Hqp.
    { intros ->. apply Hne. now apply (in_flight_one_id st Hst p id' id). }
    unfold inFlight, finish in *. simpl.
    destruct Hq as [Hq | Hq]; [left | right]; now rewrite lookup_delete_ne by congruence.
  - intros Hid. unfold finish. simpl. apply elem_of_difference. split; [exact Hid|].
    intros H. apply elem_of_singleton in H. congruence.
  - reflexivity.
Qed.

(** One event of a run in which the calls for [id] are concurrent. *)
Lemma snapshot_exec_concurrent id ev st :
  consistent st ->
  match ev with
  | CallGetStreamUrl cached id' => id' = id -> Js.whenTruthy cached = None
  | FormatsSettle promise formats =>
      awaitingFormats st !! promise = Some id -> firstMethod formats = None
  | FallbackSettles promise _ => awaitingFallback st !! promise <> Some id
  end ->
  let st1 := snd (exec stackOf ev st) in
  (forall w, In w (waitersFor id st) -> In w (waitersFor id st1))
  /\ (forall q, inFlight st q id -> inFlight st1 q id)
  /\ (id ∈ pendingRequests st -> id ∈ pendingRequests st1)
  /\ match resultsFor id [ev] [fst (exec stackOf ev st)] with
     | [] =>
         getAllFormatsCallsFor id st1 = getAllFormatsCallsFor id st
         /\ (id ∈ pendingRequests st1 -> id ∈ pendingRequests st)
     | r :: _ =>
         resultsFor id [ev] [fst (exec stackOf ev st)] = [r]
         /\ id ∈ pendingRequests st1
         /\ (exists q, r = Server.Adopts q
                       /\ (inFlight st1 q id \/ In q (waitersFor id st1)))
         /\ getAllFormatsCallsFor id st1
            = (getAllFormatsCallsFor id st
               + if decide (id ∈ pendingRequests st) then 0 else 1)%nat
     end.
Proof.
  intros Hst Hquiet st1. subst st1.
  destruct ev as [cached id' | p formats | p r]; simpl.
  - unfold getStreamUrl.
    destruct (String.eqb_spec id' id) as [-> | Hne].
    + rewrite (Hquiet eq_refl).
      destruct (decide (id ∈ pendingRequests st)) as [Hpending | Hnot]; simpl.
      * assert (waitersFor id
                  {| pendingRequests := pendingRequests st;
                     waiters := <[id := waitersFor id st ++ [nextPromise st]]> (waiters st);
                     awaitingFormats := awaitingFormats st;
                     awaitingFallback := awaitingFallback st;
                     settled := settled st; cacheSets := cacheSets st;
                     getAllFormatsCalls := getAllFormatsCalls st;
                     nextPromise := S (nextPromise st) |}
                = waitersFor id st ++ [nextPromise st]) as Hws.
        { unfold waitersFor at 1. simpl. now rewrite lookup_insert_eq. }
        split; [intros w Hw; rewrite Hws; apply in_app_iff; now left|].
        split; [auto|]. split; [auto|].
        split; [reflexivity|]. split; [exact Hpending|]. split.
        -- exists (nextPromise st). split; [reflexivity|]. right.
           rewrite Hws. apply in_app_iff. right. now left.
        -- unfold getAllFormatsCallsFor. simpl. lia.
      * split; [auto|]. split.
        { intros q Hq. unfold inFlight in *. simpl.
          destruct Hq as [Hq | Hq]; [left | now right].
          rewrite lookup_insert_ne; [exact Hq|].
          intros <-. destruct (in_flight_not_settled st Hst (nextPromise st) id (or_introl Hq)).
          lia. }
        split; [intros H; contradiction|].
        split; [reflexivity|]. split; [apply elem_of_union; left; now apply elem_of_singleton|].
        split.
        -- exists (nextPromise st). split; [reflexivity|]. left. left. simpl.
           apply lookup_insert_eq.
        -- unfold getAllFormatsCallsFor. simpl. rewrite count_occ_app. simpl.
           destruct (String.string_dec id id); [lia | contradiction].
    + destruct (Js.whenTruthy cached) as [u|]; simpl.
      { repeat split; auto. }
      destruct (decide (id' ∈ pendingRequests st)) as [Hpending | Hnot]; simpl.
      * split.
        { intros w. unfold waitersFor. simpl. now rewrite lookup_insert_ne. }
        repeat split; auto.
      * split; [auto|]. split.
        { intros q Hq. unfold inFlight in *. simpl.
          destruct Hq as [Hq | Hq]; [left | now right].
          rewrite lookup_insert_ne; [exact Hq|].
          intros <-. destruct (in_flight_not_settled st Hst (nextPromise st) id (or_introl Hq)).
          lia. }
        split; [intros H; apply elem_of_union; now right|]. split.
        -- unfold getAllFormatsCallsFor. simpl. rewrite count_occ_app. simpl.
           destruct (String.string_dec id' id); [contradiction | lia].
        -- intros H. apply elem_of_union in H as [H | H]; [|exact H].
           apply elem_of_singleton in H. congruence.
  - unfold formatsSettle.
    destruct (awaitingFormats st !! p) as [id'|] eqn:Hp; [|repeat split; auto].
    destruct (firstMethod formats) as [directUrl|] eqn:Hfirst.
    + assert (id' <> id) as Hne.
      { intros ->. specialize (Hquiet eq_refl). congruence. }
      destruct (finish_other p id' (Server.Resolved directUrl) st id Hst (or_introl Hp) Hne)
        as (H1 & H2 & H3 & H4).
      repeat split; try assumption.
      unfold finish. simpl. intros H. now apply elem_of_difference in H as [H _].
    + split; [auto|]. split; [|repeat split; auto].
      intros q Hq. unfold inFlight in *. simpl.
      destruct (decide (q = p)) as [-> | Hqp].
      * right. rewrite lookup_insert_eq. f_equal.
        apply (in_flight_one_id st Hst p id' id); [now left | exact Hq].
      * destruct Hq as [Hq | Hq]; [left | right].
        -- now rewrite lookup_delete_ne by congruence.
        -- now rewrite lookup_insert_ne by congruence.
  - unfold fallbackSettles.
    destruct (awaitingFallback st !! p) as [id'|] eqn:Hp; [|repeat split; auto].
    assert (id' <> id) as Hne by congruence.
    destruct (finish_other p id' (secondMethod stackOf r) st id Hst (or_intror Hp) Hne)
      as (H1 & H2 & H3 & H4).
    repeat split; try assumption.
    unfold finish. simpl. intros H. now apply elem_of_difference in H as [H _].
Qed.

Lemma snapshot_resultsFor_cons id ev r evs rs :
  resultsFor id (ev :: evs) (r :: rs) = resultsFor id [ev] [r] ++ resultsFor id evs rs.
Proof.
  destruct ev as [cached id' | |]; try reflexivity.
  destruct r as [r|]; [|reflexivity]. simpl.
  destruct (String.eqb id' id); reflexivity.
Qed.

(** A run in which the calls for [id] are concurrent. *)
Lemma snapshot_run_concurrent id evs : forall st,
  consistent st ->
  concurrentFor stackOf id evs st ->
  let results := resultsFor id evs (fst (run stackOf evs st)) in
  let st' := snd (run stackOf evs st) in
  consistent st'
  /\ (forall w, In w (waitersFor id st) -> In w (waitersFor id st'))
  /\ (forall q, inFlight st q id -> inFlight st' q id)
  /\ (id ∈ pendingRequests st -> id ∈ pendingRequests st')
  /\ (forall r, In r results ->
                 id ∈ pendingRequests st'
                 /\ exists q, r = Server.Adopts q
                              /\ (inFlight st' q id \/ In q (waitersFor id st')))
  /\ getAllFormatsCallsFor id st'
     = (getAllFormatsCallsFor id st
        + match results with
          | [] => 0
          | _ :: _ => if decide (id ∈ pendingRequests st) then 0 else 1
          end)%nat.
Proof.
  induction evs as [|ev evs IH]; intros st Hst Hquiet results st'.
  - subst results st'. simpl.
    split; [exact Hst|]. split; [auto|]. split; [auto|]. split; [auto|].
    split; [intros r []|lia].
  - destruct Hquiet as [Hev Hrest].
    pose proof (snapshot_exec_consistent ev st Hst) as Hst1.
    pose proof (snapshot_exec_concurrent id ev st Hst Hev) as Hstep. cbv zeta in Hstep.
    specialize (IH (snd (exec stackOf ev st)) Hst1 Hrest). cbv zeta in IH.
    subst results st'. cbn [run].
    destruct (exec stackOf ev st) as [r st1] eqn:Hexec. cbn [fst snd] in *.
    destruct (run stackOf evs st1) as [rs st2] eqn:Hrun. cbn [fst snd] in *.
    rewrite snapshot_resultsFor_cons.
    destruct IH as (Hst2 & Hw2 & Hf2 & Hp2 & Hres2 & Hcalls2).
    destruct Hstep as (Hw1 & Hf1 & Hp1 & Hres1).
    split; [exact Hst2|]. split; [auto|]. split; [auto|]. split; [auto|].
    destruct (resultsFor id [ev] [r]) as [|r1 more] eqn:Hfirst.
    + destruct Hres1 as [Hcalls1 Hback]. simpl. split; [exact Hres2|].
      rewrite Hcalls2, Hcalls1.
      destruct (resultsFor id evs rs); [reflexivity|].
      destruct (decide (id ∈ pendingRequests st)) as [Hin | Hnin];
        destruct (decide (id ∈ pendingRequests st1)) as [Hin1 | Hnin1]; try reflexivity.
      * exfalso. apply Hnin1. now apply Hp1.
      * exfalso. apply Hnin. now apply Hback.
    + destruct Hres1 as (Hone & Hpending1 & (q & Hr1 & Hq) & Hcalls1).
      injection Hone as Hmore. subst more. split.
      * intros r' [<- | Hr'].
        -- split; [now apply Hp2|]. exists q. split; [exact Hr1|].
           destruct Hq as [Hq | Hq]; [left; now apply Hf2 | right; now apply Hw2].
        -- now apply Hres2.
      * rewrite Hcalls2, Hcalls1. simpl.
        destruct (resultsFor id evs rs); [lia|].
        destruct (decide (id ∈ pendingRequests st1)); [lia | contradiction].
Qed.

End SnapshotDedup.

(** In the yt-dlp variant too, in every state the server reaches, no two
    extractions for one identifier are in flight.  And let calls of
    [getStreamUrl] for an identifier be concurrent and find nothing cached:
    at least one call in a run of events, none of which ends the extraction
    for the identifier (the first method may fail during the run and leave
    it to the second).  Then over the run [getAllFormats] is called for the
    identifier once, or not at all when an extraction for it was already in
    flight; one extraction for it is in flight after the run; no caller has
    an outcome yet; and however that extraction ends (by the first method,
    by the second method when the first has failed during the run, or by
    the first method failing after the run and the second settling then),
    every caller of the run observes its outcome: the same URL or the same
    error for all. *)
Theorem snapshot_requests_share_one_extraction :
  forall stackOf st,
    Snapshot.reachable stackOf st ->
    (forall p1 p2 id,
        Snapshot.inFlight st p1 id -> Snapshot.inFlight st p2 id -> p1 = p2)
    /\ (forall id evs,
           Snapshot.concurrentFor stackOf id evs st ->
           let results :=
             Snapshot.resultsFor id evs (fst (Snapshot.run stackOf evs st)) in
           let st' := snd (Snapshot.run stackOf evs st) in
           results <> [] ->
           Snapshot.getAllFormatsCallsFor id st'
           = (Snapshot.getAllFormatsCallsFor id st
              + if decide (id ∈ Snapshot.pendingRequests st) then 0 else 1)%nat
           /\ exists p,
               Snapshot.inFlight st' p id
               /\ (forall r, In r results -> Snapshot.observed st' r = None)
               /\ (forall formats directUrl r,
                      In r results ->
                      Snapshot.awaitingFormats st' !! p = Some id ->
                      Snapshot.firstMethod formats = Some directUrl ->
                      Snapshot.observed (Snapshot.formatsSettle p formats st') r
                      = Some (Server.Resolved directUrl))
               /\ (forall answer r,
                      In r results ->
                      Snapshot.awaitingFallback st' !! p = Some id ->
                      Snapshot.observed (Snapshot.fallbackSettles stackOf p answer st') r
                      = Some (Snapshot.secondMethod stackOf answer))
               /\ (forall formats answer r,
                      In r results ->
                      Snapshot.awaitingFormats st' !! p = Some id ->
                      Snapshot.firstMethod formats = None ->
                      Snapshot.observed (Snapshot.formatsSettle p formats st') r = None
                      /\ Snapshot.observed
                           (Snapshot.fallbackSettles stackOf p answer
                              (Snapshot.formatsSettle p formats st')) r
                         = Some (Snapshot.secondMethod stackOf answer))).
Proof.
  intros stackOf st Hreach.
  pose proof (snapshot_reachable_consistent stackOf st Hreach) as Hst.
  split; [apply (Snapshot.in_flight_once st Hst)|].
  intros id evs Hquiet results st' Hsome.
  destruct (snapshot_run_concurrent stackOf id evs st Hst Hquiet)
    as (Hst' & _ & _ & _ & Hres & Hcalls).
  fold results in Hres, Hcalls. fold st' in Hst', Hres, Hcalls.
  destruct results as [|first others] eqn:Hresults; [contradiction|].
  split; [exact Hcalls|].
  destruct (Hres first (or_introl eq_refl)) as [Hpending _].
  destruct (Snapshot.pending_in_flight st' Hst' id Hpending) as (p & Hp).
  exists p. split; [exact Hp|].
  assert (Hjoined : forall r, In r (first :: others) ->
                              exists q, r = Server.Adopts q
                                        /\ (q = p \/ In q (Snapshot.waitersFor id st'))).
  { intros r Hr. destruct (Hres r Hr) as [_ (q & -> & Hq)]. exists q.
    split; [reflexivity|]. destruct Hq as [Hq | Hq]; [left | now right].
    now apply (Snapshot.in_flight_once st' Hst' q p id). }
  assert (Hafter : forall o r, In r (first :: others) ->
                               Snapshot.observed (Snapshot.finish p id o st') r = Some o).
  { intros o r Hr. destruct (Hjoined r Hr) as (q & -> & Hq). unfold Snapshot.observed.
    rewrite finish_settled. destruct (decide (q = p)) as [_ | Hne]; [reflexivity|].
    destruct (in_dec Nat.eq_dec q (Snapshot.waitersFor id st')) as [_ | Hnot]; [reflexivity|].
    destruct Hq as [Hq | Hq]; contradiction. }
  assert (Hbefore : forall r, In r (first :: others) -> Snapshot.observed st' r = None).
  { intros r Hr. destruct (Hres r Hr) as [_ (q & -> & [Hq | Hq])]; simpl.
    - now destruct (Snapshot.in_flight_not_settled st' Hst' q id Hq).
    - now destruct (Snapshot.waiters_pending st' Hst' id q Hq) as (_ & _ & H). }
  split; [exact Hbefore|]. split; [|split].
  - intros formats directUrl r Hr Hawait Hfirst.
    unfold Snapshot.formatsSettle. rewrite Hawait, Hfirst. now apply Hafter.
  - intros answer r Hr Hawait.
    unfold Snapshot.fallbackSettles. rewrite Hawait. now apply Hafter.
  - intros formats answer r Hr Hawait Hfirst.
    unfold Snapshot.formatsSettle. rewrite Hawait, Hfirst.
    split; [exact (Hbefore r Hr)|].
    unfold Snapshot.fallbackSettles. cbn [Snapshot.awaitingFallback].
    rewrite lookup_insert_eq.
    destruct (Hjoined r Hr) as (q & -> & Hq). unfold Snapshot.observed.
    rewrite finish_settled. destruct (decide (q = p)) as [_ | Hne]; [reflexivity|].
    change (Snapshot.waitersFor id _) with (Snapshot.waitersFor id st').
    destruct (in_dec Nat.eq_dec q (Snapshot.waitersFor id st')) as [_ | Hnot]; [reflexivity|].
    destruct Hq as [Hq | Hq]; contradiction.
Qed.

Lemma snapshot_reachable_run stackOf evs :
  forall st, Snapshot.reachable stackOf st ->
             Snapshot.reachable stackOf (snd (Snapshot.run stackOf evs st)).
Proof.
  induction evs as [|ev evs IH]; intros st Hst; simpl; [exact Hst|].
  pose proof (Snapshot.reachable_exec stackOf ev st Hst) as Hnext.
  destruct (Snapshot.exec stackOf ev st) as [r st1]. simpl in Hnext.
  specialize (IH st1 Hnext).
  destruct (Snapshot.run stackOf evs st1) as [rs st2]. exact IH.
Qed.

(** The theorem at work: three calls for one identifier from the initial
    state, with a call for another identifier between them and the first
    method failing for the identifier itself; when the second method then
    prints a URL, the three callers observe it. *)
Lemma snapshot_requests_share_one_extraction_witness :
  let evs := [Snapshot.CallGetStreamUrl None "dQw4w9WgXcQ";
              Snapshot.CallGetStreamUrl None "kJQP7kiw5Fk";
              Snapshot.CallGetStreamUrl None "dQw4w9WgXcQ";
              Snapshot.FormatsSettle 0 [];
              Snapshot.CallGetStreamUrl None "dQw4w9WgXcQ"] in
  let results := Snapshot.resultsFor "dQw4w9WgXcQ" evs
                   (fst (Snapshot.run (fun msg => msg) evs Snapshot.initial)) in
  let st' := snd (Snapshot.run (fun msg => msg) evs Snapshot.initial) in
  Snapshot.getAllFormatsCallsFor "dQw4w9WgXcQ" st' = 1%nat
  /\ length results = 3%nat
  /\ Forall (fun r => Snapshot.observed st' r = None) results
  /\ Forall (fun r =>
               Snapshot.observed
                 (Snapshot.fallbackSettles (fun msg => msg) 0
                    (Snapshot.YtDlpStdout "https://cdn.example/audio.m4a") st') r
               = Some (Server.Resolved "https://cdn.example/audio.m4a")) results.
Proof.
  intros evs results st'.
  pose proof (snapshot_requests_share_one_extraction (fun msg => msg) Snapshot.initial
                (Snapshot.reachable_initial _)) as [_ Hshare].
  destruct (Hshare "dQw4w9WgXcQ"%string evs)
    as (Hcalls & p & Hp & Hnone & _ & Hsecond & _).
  - vm_compute. repeat split; congruence.
  - vm_compute. discriminate.
  - assert (p = 0%nat) as ->.
    { pose proof (snapshot_requests_share_one_extraction (fun msg => msg) st'
                    (snapshot_reachable_run _ evs _ (Snapshot.reachable_initial _)))
        as [Honce _].
      apply (Honce p 0%nat "dQw4w9WgXcQ"%string Hp). right. vm_compute. reflexivity. }
    split; [exact Hcalls|]. split; [vm_compute; reflexivity|].
    split; apply Forall_forall; intros r Hr; apply list_elem_of_In in Hr.
    + exact (Hnone r Hr).
    + refine (Hsecond (Snapshot.YtDlpStdout "https://cdn.example/audio.m4a") r Hr _).
      vm_compute. reflexivity.
Defined.

(** ** The yt-dlp variant: the second method *)

Section SecondMethodFacts.
Import Chars Snapshot.






End SecondMethodFacts.



(** ** The yt-dlp variant: the stream endpoint *)

Section ProxyFacts.
Import Snapshot.

Lemma copyHeaders_lookup upstream hs name :
  In name ["content-type"; "content-length"; "content-range"; "accept-ranges"]%string ->
  copyHeaders upstream hs !! name
  = match Js.whenTruthy (Server.upstreamHeaders upstream !! name) with
    | Some value => Some value
    | None => hs !! name
    end.
Proof.
  intros Hname. unfold copyHeaders, Server.setHeader. cbn [fold_left].
  change (Chars.lower (list_ascii_of_string "content-type")) with "content-type"%string.
  change (Chars.lower (list_ascii_of_string "content-length")) with "content-length"%string.
  change (Chars.lower (list_ascii_of_string "content-range")) with "content-range"%string.
  change (Chars.lower (list_ascii_of_string "accept-ranges")) with "accept-ranges"%string.
  simpl in Hname.
  destruct Hname as [<- | [<- | [<- | [<- | []]]]];
    destruct (Js.whenTruthy (Server.upstreamHeaders upstream !! "content-type"%string));
    destruct (Js.whenTruthy (Server.upstreamHeaders upstream !! "content-length"%string));
    destruct (Js.whenTruthy (Server.upstreamHeaders upstream !! "content-range"%string));
    destruct (Js.whenTruthy (Server.upstreamHeaders upstream !! "accept-ranges"%string));
    repeat (first [ rewrite lookup_insert_eq | rewrite lookup_insert_ne by discriminate ]);
    reflexivity.
Qed.

End ProxyFacts.

(** The stream endpoint of the yt-dlp variant does not relay the status of
    upstream.  An identifier that is not valid gets status 400 with an
    error string.  A failure of the resolution gets status 500 (never 404)
    with the message of the error, and the response carries the caching
    directive that was set before the resolution was awaited.  Once a URL
    is known, cached or resolved, the proxy answers: for every upstream
    status from 200 to 299, with status 200 (a partial response, 206,
    included) and the headers of the allow-list that upstream sends with a
    value; for any other upstream status and for a failure of the fetch,
    with status 500 and the error "Stream proxy failed", or not at all when
    the request was aborted. *)
Theorem snapshot_proxy_does_not_relay_the_status :
  (forall cachedUrl aborted req resolution fetched,
      let sent :=
        Snapshot.answer (Snapshot.streamGet cachedUrl aborted req) resolution fetched in
      match Server.normalizeVideoId (Server.paramsVideoId req) with
      | None =>
          sent = Some {| Server.status := 400;
                         Server.headers := ∅;
                         Server.body :=
                           Server.JsonBody [("error", "Invalid video ID")]%string |}
      | Some videoId =>
          match Js.whenTruthy cachedUrl, resolution with
          | Some _, _ => sent = Snapshot.proxyStream aborted videoId ∅ fetched
          | None, Server.Resolved _ =>
              sent = Snapshot.proxyStream aborted videoId Snapshot.optimisticHeaders fetched
          | None, Server.Rejected error =>
              sent = Some {| Server.status := 500;
                             Server.headers := Snapshot.optimisticHeaders;
                             Server.body :=
                               Server.JsonBody
                                 [("error", "Stream failed"); ("videoId", videoId);
                                  ("message", Js.message error)]%string |}
              /\ Snapshot.optimisticHeaders !! "cache-control"%string
                 = Some "public, max-age=7200"%string
          end
      end)
  /\ (forall aborted videoId alreadySet upstream,
         Snapshot.ok upstream = true ->
         exists answer,
           Snapshot.proxyStream aborted videoId alreadySet (Server.FetchResponded upstream)
           = Some answer
           /\ Server.status answer = 200
           /\ (forall name value,
                  In name ["content-type"; "content-length"; "content-range";
                           "accept-ranges"]%string ->
                  Server.upstreamHeaders upstream !! name = Some value ->
                  value <> ""%string ->
                  Server.headers answer !! name = Some value)
           /\ Server.headers answer !! "cache-control"%string
              = Some "public, max-age=7200"%string
           /\ Server.headers answer !! "access-control-allow-origin"%string
              = Some "*"%string)
  /\ (forall aborted videoId alreadySet fetched,
         match fetched with
         | Server.FetchResponded upstream => Snapshot.ok upstream = false
         | Server.FetchRejected _ => True
         end ->
         Snapshot.proxyStream aborted videoId alreadySet fetched
         = if aborted then None
           else Some {| Server.status := 500;
                        Server.headers := alreadySet;
                        Server.body :=
                          Server.JsonBody [("error", "Stream proxy failed");
                                           ("videoId", videoId)]%string |}).
Proof.
  split; [|split].
  - intros cachedUrl aborted req resolution fetched sent. subst sent.
    unfold Snapshot.streamGet.
    destruct (Server.normalizeVideoId (Server.paramsVideoId req)) as [videoId|];
      [|reflexivity].
    cbv zeta. destruct (Js.whenTruthy cachedUrl) as [directUrl|]; [reflexivity|].
    destruct resolution as [streamUrl | error]; [reflexivity|].
    split; [reflexivity | vm_compute; reflexivity].
  - intros aborted videoId alreadySet upstream Hok.
    unfold Snapshot.proxyStream. rewrite Hok. eexists. split; [reflexivity|].
    split; [reflexivity|]. cbn [Server.headers]. unfold Server.setHeader.
    change (Chars.lower (list_ascii_of_string "Access-Control-Allow-Origin"))
      with "access-control-allow-origin"%string.
    change (Chars.lower (list_ascii_of_string "Cache-Control")) with "cache-control"%string.
    split; [|split].
    + intros name value Hname Hsent Hvalue.
      assert (name <> "access-control-allow-origin"%string /\ name <> "cache-control"%string)
        as [Hn1 Hn2].
      { simpl in Hname. destruct Hname as [<- | [<- | [<- | [<- | []]]]]; split; discriminate. }
      rewrite !lookup_insert_ne by congruence.
      rewrite copyHeaders_lookup by exact Hname.
      now rewrite Hsent, whenTruthy_nonempty.
    + rewrite lookup_insert_ne by discriminate. apply lookup_insert_eq.
    + apply lookup_insert_eq.
  - intros aborted videoId alreadySet fetched Hfailed.
    unfold Snapshot.proxyStream. destruct fetched as [e | upstream]; [reflexivity|].
    now rewrite Hfailed.
Qed.

(** The theorem at work: a range request for a cached URL that upstream
    answers with 206. *)
Lemma snapshot_proxy_does_not_relay_the_status_witness :
  let upstream :=
    {| Server.upstreamStatus := 206;
       Server.upstreamHeaders := {[ "content-range"%string := "bytes 100-199/1000"%string ]};
       Server.upstreamHasBody := true |} in
  exists answer,
    Snapshot.proxyStream false "dQw4w9WgXcQ" ∅ (Server.FetchResponded upstream) = Some answer
    /\ Server.status answer = 200
    /\ Server.headers answer !! "content-range"%string = Some "bytes 100-199/1000"%string.
Proof.
  intros upstream.
  destruct (proj1 (proj2 snapshot_proxy_does_not_relay_the_status)
              false "dQw4w9WgXcQ"%string ∅ upstream)
    as (answer & Hsent & Hstatus & Hcopied & _).
  - vm_compute. reflexivity.
  - exists answer. split; [exact Hsent|]. split; [exact Hstatus|].
    apply Hcopied.
    + simpl. tauto.
    + vm_compute. reflexivity.
    + discriminate.
Defined.

(** ** The search endpoint of the yt-dlp variant: the limit *)

Section LimitFacts.
Import Js Chars Api Snapshot.

Lemma digit_not_white_space c : isDigit c = true -> isWhiteSpace c = false.
Proof.
  unfold isDigit, isWhiteSpace, inRange.
  destruct (48 <=? code c)%nat eqn:H1; [|discriminate].
  destruct (code c <=? 57)%nat eqn:H2; [|discriminate]. intros _.
  apply Nat.leb_le in H1, H2.
  destruct (9 <=? code c)%nat eqn:H3, (code c <=? 13)%nat eqn:H4,
           (code c =? 32)%nat eqn:H5, (code c =? 160)%nat eqn:H6;
    try reflexivity;
    repeat match goal with
           | H : (_ <=? _)%nat = true |- _ => apply Nat.leb_le in H
           | H : (_ =? _)%nat = true |- _ => apply Nat.eqb_eq in H
           end; lia.
Qed.

Lemma dropWhile_white_space spaces l :
  forallb isWhiteSpace spaces = true ->
  dropWhile isWhiteSpace (spaces ++ l) = dropWhile isWhiteSpace l.
Proof.
  induction spaces as [|c spaces IH]; simpl; [reflexivity|].
  intros [Hc Hspaces]%andb_true_iff. rewrite Hc. now apply IH.
Qed.

Lemma digitOf_digit radix c :
  isDigit c = true -> digitOf radix c = Some (Z.of_nat (code c) - 48).
Proof. intros H. unfold digitOf. now rewrite H. Qed.

Lemma digitOf_other c : isDigit c = false -> digitOf 10 c = None.
Proof. intros H. unfold digitOf. now rewrite H. Qed.

(** Reading on through decimal digits. *)
Lemma digitsPrefix_digits digits : forall rest n,
  forallb isDigit digits = true ->
  match rest with c :: _ => isDigit c = false | [] => True end ->
  digitsPrefix 10 (digits ++ rest) (Some n)
  = Some (fold_left (fun n c => n * 10 + (Z.of_nat (code c) - 48)) digits n).
Proof.
  induction digits as [|c digits IH]; intros rest n Hdigits Hrest.
  - simpl. destruct rest as [|c rest]; [reflexivity|].
    simpl. now rewrite digitOf_other.
  - simpl in Hdigits. apply andb_true_iff in Hdigits as [Hc Hdigits].
    simpl. rewrite (digitOf_digit 10 c Hc). now apply IH.
Qed.

Lemma digitsPrefix_numeral digits rest :
  digits <> [] ->
  forallb isDigit digits = true ->
  match rest with c :: _ => isDigit c = false | [] => True end ->
  digitsPrefix 10 (digits ++ rest) None = Some (numeral digits).
Proof.
  intros Hsome Hdigits Hrest. destruct digits as [|c digits]; [contradiction|].
  simpl in Hdigits. apply andb_true_iff in Hdigits as [Hc Hdigits].
  simpl. rewrite (digitOf_digit 10 c Hc).
  rewrite digitsPrefix_digits by assumption. reflexivity.
Qed.

(** A decimal numeral is not taken for a sign or for the prefix of radix
    16. *)
Lemma signOf_digit c l : isDigit c = true -> signOf (c :: l) = (false, c :: l).
Proof.
  intros Hc. unfold isDigit, inRange in Hc. apply andb_true_iff in Hc as [Hlo _].
  apply Nat.leb_le in Hlo. unfold signOf.
  destruct (Nat.eqb_spec (code c) 45); [lia|].
  destruct (Nat.eqb_spec (code c) 43); [lia | reflexivity].
Qed.

Lemma radixOf_numeral digits rest :
  digits <> [] ->
  forallb isDigit digits = true ->
  match rest with
  | c :: _ => isDigit c = false /\ code c <> 120%nat /\ code c <> 88%nat
  | [] => True
  end ->
  radixOf (digits ++ rest) = (10, digits ++ rest).
Proof.
  intros Hsome Hdigits Hrest. destruct digits as [|c digits]; [contradiction|].
  simpl in Hdigits. apply andb_true_iff in Hdigits as [Hc Hdigits].
  assert (forall d, (isDigit d = true \/ (code d <> 120 /\ code d <> 88)%nat) ->
                    (code d =? 120)%nat || (code d =? 88)%nat = false) as Hd.
  { intros d [Hdig | [H1 H2]].
    - unfold isDigit, inRange in Hdig. apply andb_true_iff in Hdig as [_ Hle].
      apply Nat.leb_le in Hle.
      destruct (Nat.eqb_spec (code d) 120), (Nat.eqb_spec (code d) 88); simpl;
        (reflexivity || lia).
    - apply Nat.eqb_neq in H1, H2. now rewrite H1, H2. }
  unfold radixOf. destruct digits as [|d digits]; simpl.
  - destruct rest as [|d rest]; [reflexivity|].
    rewrite Hd by (right; tauto). now rewrite andb_false_r.
  - simpl in Hdigits. apply andb_true_iff in Hdigits as [Hdig _].
    rewrite Hd by now left. now rewrite andb_false_r.
Qed.

Lemma parseInt_numeral spaces digits rest :
  forallb isWhiteSpace spaces = true ->
  digits <> [] ->
  forallb isDigit digits = true ->
  match rest with
  | c :: _ => isDigit c = false /\ code c <> 120%nat /\ code c <> 88%nat
  | [] => True
  end ->
  parseInt (string_of_list_ascii (spaces ++ digits ++ rest)) = Some (numeral digits)
  /\ parseInt (string_of_list_ascii (spaces ++ "-"%char :: digits ++ rest))
     = Some (- numeral digits).
Proof.
  intros Hspaces Hsome Hdigits Hrest.
  assert (match rest with c :: _ => isDigit c = false | [] => True end) as Hrest'.
  { destruct rest; tauto. }
  pose proof (radixOf_numeral digits rest Hsome Hdigits Hrest) as Hplain.
  pose proof (digitsPrefix_numeral digits rest Hsome Hdigits Hrest') as Hvalue.
  assert (exists c tl, digits ++ rest = c :: tl /\ isDigit c = true)
    as (c & tl & Hhead & Hc).
  { destruct digits as [|c digits]; [contradiction|]. exists c, (digits ++ rest).
    simpl in Hdigits. apply andb_true_iff in Hdigits as [Hc _]. now split. }
  unfold parseInt. rewrite !list_ascii_of_string_of_list_ascii.
  split.
  - rewrite (dropWhile_white_space spaces) by exact Hspaces.
    rewrite Hhead, (dropWhile_head isWhiteSpace c) by now apply digit_not_white_space.
    rewrite signOf_digit by exact Hc. cbn [fst snd]. rewrite <- Hhead, Hplain.
    cbn [fst snd]. now rewrite Hvalue.
  - rewrite (dropWhile_white_space spaces) by exact Hspaces.
    rewrite (dropWhile_head isWhiteSpace "-"%char) by reflexivity.
    change (signOf ("-"%char :: digits ++ rest)) with (true, digits ++ rest).
    cbn [fst snd]. rewrite Hplain. cbn [fst snd]. now rewrite Hvalue.
Qed.

Lemma searchLimit_range limit : searchLimit limit < 0 \/ 1 <= searchLimit limit <= 20.
Proof.
  unfold searchLimit.
  destruct (parseInt _) as [n|]; [|lia].
  destruct (Z.eqb_spec n 0); lia.
Qed.

(** [slice(0, limit)] keeps a prefix: of [limit] elements at most, or all
    but the last [-limit]. *)
Lemma sliceTo_prefix {A} (limit : Z) (l : list A) :
  exists dropped,
    l = sliceTo limit l ++ dropped
    /\ (0 <= limit -> length (sliceTo limit l) = Nat.min (Z.to_nat limit) (length l))
    /\ (limit < 0 -> length dropped = Nat.min (Z.to_nat (- limit)) (length l)).
Proof.
  unfold sliceTo. destruct (Z.ltb_spec limit 0) as [Hneg | Hpos].
  - exists (skipn (Z.to_nat (Z.max (Z.of_nat (length l) + limit) 0)) l).
    split; [now rewrite firstn_skipn|]. split; [lia|]. intros _.
    rewrite length_skipn. lia.
  - exists (skipn (Z.to_nat limit) l).
    split; [now rewrite firstn_skipn|]. split; [|lia]. intros _.
    now rewrite length_firstn.
Qed.

Lemma sliceTo_map {A B} (f : A -> B) limit l :
  sliceTo limit (map f l) = map f (sliceTo limit l).
Proof. unfold sliceTo. rewrite length_map. destruct (limit <? 0); apply firstn_map. Qed.

Lemma firstn_app_prefix {A} (n : nat) (kept dropped : list A) x :
  In x (firstn n kept) -> In x (firstn n (kept ++ dropped)).
Proof.
  revert kept. induction n as [|n IH]; intros [|y kept]; simpl; try contradiction.
  intros [-> | H]; [now left | right; now apply IH].
Qed.

Lemma numeral_nonnegative digits : forallb isDigit digits = true -> 0 <= numeral digits.
Proof.
  unfold numeral.
  assert (forall n, forallb isDigit digits = true -> 0 <= n ->
                    0 <= fold_left (fun n c => n * 10 + (Z.of_nat (code c) - 48)) digits n)
    as Hfrom.
  { induction digits as [|c digits IH]; intros n Hdigits Hn; simpl; [exact Hn|].
    simpl in Hdigits. apply andb_true_iff in Hdigits as [Hc Hdigits].
    apply IH; [exact Hdigits|].
    unfold isDigit, inRange in Hc. apply andb_true_iff in Hc as [Hlo _].
    apply Nat.leb_le in Hlo. lia. }
  intros Hdigits. now apply Hfrom.
Qed.

Lemma toItem_videoId (l : list video) : map itemVideoId (map toItem l) = map videoId l.
Proof. rewrite map_map. reflexivity. Qed.

End LimitFacts.


(** The search endpoint of the yt-dlp variant caps the number of items at
    20 only when the limit is not negative.  The limit is never 0: it is
    negative, or from 1 to 20.  It is 10 without a [limit] parameter.  For
    a parameter that holds a decimal numeral, after white space and before
    the end or a character that is neither a digit nor [x] nor [X], it is
    10 when the numeral denotes 0 and else the lesser of the number and 20;
    with a minus sign before the numeral it is 10 for 0 and else the
    negative number itself.  For a query that is not empty the handler
    calls yt-search with the trimmed query; a rejection gets 500, and a
    list of videos gets the items of a prefix of the list: the first
    [limit] videos at most when the limit is positive, all but the last
    [-limit] when it is negative.  The timer then calls [getStreamUrl] for
    identifiers among those of the first three videos that the cache does
    not hold, and for nothing else. *)
Theorem search_limit_caps_at_20_unless_negative :
  (forall limit,
      Snapshot.searchLimit limit < 0 \/ 1 <= Snapshot.searchLimit limit <= 20)
  /\ Snapshot.searchLimit None = 10
  /\ (forall spaces digits rest,
         forallb Chars.isWhiteSpace spaces = true ->
         digits <> [] ->
         forallb Chars.isDigit digits = true ->
         match rest with
         | c :: _ =>
             Chars.isDigit c = false /\ Chars.code c <> 120%nat /\ Chars.code c <> 88%nat
         | [] => True
         end ->
         Snapshot.searchLimit
           (Some (Api.QString (string_of_list_ascii (spaces ++ digits ++ rest))))
         = (if Snapshot.numeral digits =? 0 then 10 else Z.min (Snapshot.numeral digits) 20)
         /\ Snapshot.searchLimit
              (Some (Api.QString
                       (string_of_list_ascii (spaces ++ "-"%char :: digits ++ rest))))
            = (if Snapshot.numeral digits =? 0 then 10 else - Snapshot.numeral digits))
  /\ (forall q limit videos,
         Js.truthy (Api.searchQuery q) = true ->
         exists k kept dropped,
           Snapshot.searchGet q limit = Api.AwaitYts (Api.searchQuery q) k
           /\ (forall e,
                  k (Api.YtsRejected e) = Snapshot.searchFailed (Api.searchQuery q))
           /\ videos = kept ++ dropped
           /\ k (Api.YtsResolved (Some (map Some videos)))
              = {| Api.searchStatus := 200;
                   Api.searchSent := Api.SearchItems (map Api.toItem kept) |}
           /\ (0 < Snapshot.searchLimit limit ->
               length kept
               = Nat.min (Z.to_nat (Snapshot.searchLimit limit)) (length videos))
           /\ (Snapshot.searchLimit limit < 0 ->
               length dropped
               = Nat.min (Z.to_nat (- Snapshot.searchLimit limit)) (length videos))
           /\ (forall has id,
                  In id (Snapshot.prewarmed has (map Api.toItem kept)) ->
                  has id = false /\ In id (map Api.videoId (firstn 3 videos)))).
Proof.
  split; [exact searchLimit_range|]. split; [reflexivity|]. split.
  - intros spaces digits rest Hspaces Hsome Hdigits Hrest.
    destruct (parseInt_numeral spaces digits rest Hspaces Hsome Hdigits Hrest)
      as [Hplus Hminus].
    pose proof (numeral_nonnegative digits Hdigits) as Hnonneg.
    unfold Snapshot.searchLimit. cbn [Api.toText]. rewrite Hplus, Hminus.
    destruct (Z.eqb_spec (Snapshot.numeral digits) 0) as [-> | Hne]; [now split|].
    split; [reflexivity|].
    destruct (Z.eqb_spec (- Snapshot.numeral digits) 0); lia.
  - intros q limit videos Hquery.
    destruct (sliceTo_prefix (Snapshot.searchLimit limit) videos)
      as (dropped & Hsplit & Hkept & Hdropped).
    unfold Snapshot.searchGet. rewrite Hquery. cbn [negb].
    eexists _, (Snapshot.sliceTo (Snapshot.searchLimit limit) videos), dropped.
    split; [reflexivity|]. split; [reflexivity|]. split; [exact Hsplit|].
    split; [now rewrite sliceTo_map, mapItems_all|].
    split; [intros Hpos; apply Hkept; lia|]. split; [exact Hdropped|].
    intros has id [Hin Hnot]%filter_In. split; [now apply negb_true_iff in Hnot|].
    rewrite firstn_map, toItem_videoId in Hin.
    apply in_map_iff in Hin as (v & <- & Hv). apply in_map.
    rewrite Hsplit. now apply firstn_app_prefix.
Qed.

(** The theorem at work: [limit=-1] with 25 videos found leaves 24 items. *)
Lemma search_limit_caps_at_20_unless_negative_witness :
  let video :=
    {| Api.videoId := Some "dQw4w9WgXcQ"%string; Api.title := None; Api.thumbnail := None;
       Api.videoAuthor := None; Api.seconds := None |} in
  let limit := Some (Api.QString "-1") in
  Snapshot.searchLimit limit = -1
  /\ exists k kept dropped,
      Snapshot.searchGet (Some (Api.QString "song")) limit = Api.AwaitYts "song" k
      /\ repeat video 25 = kept ++ dropped
      /\ k (Api.YtsResolved (Some (map Some (repeat video 25))))
         = {| Api.searchStatus := 200;
              Api.searchSent := Api.SearchItems (map Api.toItem kept) |}
      /\ length dropped = 1%nat.
Proof.
  intros video limit. split.
  - exact (proj2 (proj1 (proj2 (proj2 search_limit_caps_at_20_unless_negative))
                    [] ["1"%char] [] eq_refl ltac:(discriminate) eq_refl I)).
  - destruct (proj2 (proj2 (proj2 search_limit_caps_at_20_unless_negative))
                (Some (Api.QString "song")) limit (repeat video 25) eq_refl)
      as (k & kept & dropped & Hget & _ & Hsplit & Hsent & _ & Hdropped & _).
    exists k, kept, dropped. split; [exact Hget|]. split; [exact Hsplit|].
    split; [exact Hsent|]. apply Hdropped. reflexivity.
Defined.
